(** * web-highlighter, [src/study/selection.js]: selection capture and restoration

    A shallow embedding of the study script and of the part of the DOM it
    touches.  The document is a store of nodes addressed by identity; the
    script's functions are transcribed one by one, each [while] loop as a
    recursion on an iteration budget, each DOM method as a function on the
    store that may raise. *)

From Stdlib Require Import ZArith Ascii String List Lia.
From stdpp Require Import base list.
Import ListNotations.

Set Warnings "-register-all".

Local Open Scope string_scope.
Local Open Scope list_scope.
Local Open Scope Z_scope.

(* ================================================================== *)
(** ** Outcomes of JavaScript evaluation *)
(* ================================================================== *)

(** Exceptions the script can meet. *)
Inductive exn : Type :=
| TypeError            (* property access on [null]/[undefined], missing method *)
| IndexSizeError       (* [splitText] with an offset past the end *)
| HierarchyRequestError.

(** A computation returns, throws, or exhausts its iteration budget.  Every
    [while] loop of the script pops one node per iteration; it is run with a
    budget of one more than the number of nodes of the store, which a store
    that holds a tree never exhausts (see [getTextNodeOffset_walk],
    [restoreContainer_returns] and [getSelectedNodes_text_range]). *)
Inductive outcome (A : Type) : Type :=
| Ok (a : A)
| Throw (e : exn)
| OutOfFuel.
Arguments Ok {A} a.
Arguments Throw {A} e.
Arguments OutOfFuel {A}.

(** Sequencing: an exception or an exhausted budget ends the computation. *)
Global Instance outcome_bind : MBind outcome := fun A B f m =>
  match m with
  | Ok a => f a
  | Throw e => Throw e
  | OutOfFuel => OutOfFuel
  end.

(* ================================================================== *)
(** ** The document store *)
(* ================================================================== *)

(** The three kinds of node the script meets.  The document is an HTML
    document (the script is pasted into the console of a web page) and its
    elements are HTML elements.  An element carries its name as it was
    written, in the markup or in the call of [createElement], its
    [className] and its inline [style.backgroundColor].  The host does not
    keep the case of the name as written: the element's local name is the
    name in ASCII lowercase (see [tagName_of] and [matchesTag]). *)
Inductive nodeKind : Type :=
| DocumentNode
| ElementNode (name className backgroundColor : string)
| TextNode (data : string).

(** ASCII case conversion, as the DOM standard applies it to names: only
    the letters [A-Z] and [a-z] are affected. *)
Definition ascii_upper (c : ascii) : ascii :=
  let n := nat_of_ascii c in
  if Nat.leb 97 n && Nat.leb n 122 then ascii_of_nat (n - 32) else c.

Definition ascii_lower (c : ascii) : ascii :=
  let n := nat_of_ascii c in
  if Nat.leb 65 n && Nat.leb n 90 then ascii_of_nat (n + 32) else c.

Fixpoint ascii_uppercase (s : string) : string :=
  match s with
  | EmptyString => EmptyString
  | String c s' => String (ascii_upper c) (ascii_uppercase s')
  end.

Fixpoint ascii_lowercase (s : string) : string :=
  match s with
  | EmptyString => EmptyString
  | String c s' => String (ascii_lower c) (ascii_lowercase s')
  end.

Global Instance string_eq_dec : EqDecision string := string_dec.

Global Instance nodeKind_eq_dec : EqDecision nodeKind.
Proof. solve_decision. Defined.

(** A node, with the links the DOM keeps in both directions.  A node
    reference is the node's index in the store. *)
Record node : Type := Node {
  kind : nodeKind;
  parentNode : option nat;
  childNodes : list nat
}.

Abbreviation dom := (list node).

(** The global [document] is the first node of the store. *)
Definition document : nat := 0%nat.

Definition nodeType (nd : node) : Z :=
  match kind nd with
  | ElementNode _ _ _ => 1
  | TextNode _ => 3
  | DocumentNode => 9
  end.

Definition isText (nd : node) : bool := nodeType nd =? 3.

(** [Text.data]; meaningless (empty) on other kinds. *)
Definition data_of (nd : node) : string :=
  match kind nd with
  | TextNode s => s
  | _ => ""
  end.

(** [node.textContent.length], which the script reads on text nodes only. *)
Definition textLength (nd : node) : Z := Z.of_nat (String.length (data_of nd)).

(** [===] on two node references, either of which may be [undefined]. *)
Definition strictEq (a b : option nat) : bool :=
  match a, b with
  | Some x, Some y => Nat.eqb x y
  | None, None => true
  | _, _ => false
  end.

(** [x instanceof Text]. *)
Definition instanceofText (h : dom) (x : option nat) : bool :=
  match x with
  | Some n => match h !! n with Some nd => isText nd | None => false end
  | None => false
  end.

(** Index of the first occurrence of [x], as [Array.prototype.indexOf]
    counts it: [-1] when absent. *)
Fixpoint indexOf (l : list nat) (x : nat) : Z :=
  match l with
  | [] => -1
  | y :: l' => if Nat.eqb y x then 0
               else let r := indexOf l' x in if r <? 0 then -1 else r + 1
  end.

(** [collection[i]] for a number [i]: [undefined] outside the collection. *)
Definition item (l : list nat) (i : Z) : option nat :=
  if i <? 0 then None else l !! Z.to_nat i.

(** The element after the first occurrence of [x]. *)
Fixpoint next_in (l : list nat) (x : nat) : option nat :=
  match l with
  | [] => None
  | y :: l' => if Nat.eqb y x then head l' else next_in l' x
  end.

(** [l] with [y] put right after the first occurrence of [x]. *)
Fixpoint insert_after (l : list nat) (x y : nat) : list nat :=
  match l with
  | [] => []
  | z :: l' => if Nat.eqb z x then z :: y :: l' else z :: insert_after l' x y
  end.

(** [l] with the first occurrence of [x] replaced by [y]. *)
Fixpoint replace_first (l : list nat) (x y : nat) : list nat :=
  match l with
  | [] => []
  | z :: l' => if Nat.eqb z x then y :: l' else z :: replace_first l' x y
  end.

(** [node.nextSibling]. *)
Definition nextSibling (h : dom) (n : nat) : option nat :=
  match h !! n with
  | Some nd =>
      match parentNode nd with
      | Some p => match h !! p with
                  | Some pn => next_in (childNodes pn) n
                  | None => None
                  end
      | None => None
      end
  | None => None
  end.

(** [node.parentElement]: the parent when it is an element. *)
Definition parentElement (h : dom) (n : nat) : option nat :=
  match h !! n with
  | Some nd =>
      match parentNode nd with
      | Some p => match h !! p with
                  | Some (Node (ElementNode _ _ _) _ _) => Some p
                  | _ => None
                  end
      | None => None
      end
  | None => None
  end.

(** [element.tagName]: for an HTML element of an HTML document, the
    qualified name in ASCII uppercase.  The qualified name is the local
    name, the ASCII lowercase of the name as written; its uppercase is the
    uppercase of the name as written (see [ascii_uppercase_lowercase]). *)
Definition tagName_of (nd : node) : string :=
  match kind nd with
  | ElementNode t _ _ => ascii_uppercase t
  | _ => ""
  end.

(** Tree order below (and including) [n]; [fuel] bounds the depth. *)
Fixpoint preorder (fuel : nat) (h : dom) (n : nat) : list nat :=
  match fuel with
  | O => []
  | S fuel' =>
      match h !! n with
      | Some nd => n :: flat_map (preorder fuel' h) (childNodes nd)
      | None => []
      end
  end.

(** Whether [getElementsByTagName(tag)] of an HTML document matches the
    node: every element for ["*"], otherwise the HTML elements whose
    qualified name is [tag] in ASCII lowercase. *)
Definition matchesTag (h : dom) (tag : string) (n : nat) : bool :=
  match h !! n with
  | Some (Node (ElementNode t _ _) _ _) =>
      String.eqb tag "*" || String.eqb (ascii_lowercase t) (ascii_lowercase tag)
  | _ => false
  end.

(** [document.getElementsByTagName(tag)]: the matching elements of the
    document in tree order. *)
Definition getElementsByTagName (h : dom) (tag : string) : list nat :=
  filter (fun n => Is_true (matchesTag h tag n)) (preorder (length h) h document).

(** [text.splitText(offset)]: the tail of the data moves to a new text node
    inserted right after [n]; [n] keeps the head.  Returns the new node.
    An offset below 0 or past the end of the data raises [IndexSizeError]
    (as an unsigned long, a negative offset is past the end of any string);
    on anything but a text node the method is missing. *)
Definition splitText (h : dom) (n : nat) (offset : Z) : outcome (dom * nat) :=
  match h !! n with
  | Some (Node (TextNode s) par kids) =>
      let len := String.length s in
      if (offset <? 0) || (Z.of_nat len <? offset) then Throw IndexSizeError
      else
        let o := Z.to_nat offset in
        let new := length h in
        let newNode := Node (TextNode (substring o (len - o) s)) par [] in
        let h1 :=
          match par with
          | Some p =>
              match h !! p with
              | Some pn =>
                  <[p := Node (kind pn) (parentNode pn)
                              (insert_after (childNodes pn) n new)]> h
              | None => h
              end
          | None => h
          end in
        let h2 := <[n := Node (TextNode (substring 0 o s)) par kids]> h1 in
        Ok (h2 ++ [newNode], new)
  | _ => Throw TypeError
  end.

(** [document.createElement(tag)]. *)
Definition createElement (h : dom) (tag : string) : dom * nat :=
  (h ++ [Node (ElementNode tag "" "") None []], length h).

(** [element.style.backgroundColor = colour]. *)
Definition setBackgroundColor (h : dom) (n : nat) (colour : string) : outcome dom :=
  match h !! n with
  | Some (Node (ElementNode t c _) par kids) =>
      Ok (<[n := Node (ElementNode t c colour) par kids]> h)
  | _ => Throw TypeError
  end.

(** [node.cloneNode(false)]: a parentless, childless copy. *)
Definition cloneNode_shallow (h : dom) (n : nat) : outcome (dom * nat) :=
  match h !! n with
  | Some nd => Ok (h ++ [Node (kind nd) None []], length h)
  | None => Throw TypeError
  end.

(** [parent.appendChild(child)] for a parentless [child]. *)
Definition appendChild (h : dom) (parent child : nat) : outcome dom :=
  match h !! parent, h !! child with
  | Some pn, Some cn =>
      match kind cn with
      | DocumentNode => Throw HierarchyRequestError
      | _ =>
          let h1 := <[parent := Node (kind pn) (parentNode pn)
                                     (childNodes pn ++ [child])]> h in
          Ok (<[child := Node (kind cn) (Some parent) (childNodes cn)]> h1)
      end
  | _, _ => Throw TypeError
  end.

(** [parent.replaceChild(new, old)] for a parentless [new] and a child [old]
    of [parent]. *)
Definition replaceChild (h : dom) (parent new old : nat) : outcome dom :=
  match h !! parent, h !! new, h !! old with
  | Some pn, Some nn, Some on =>
      let h1 := <[parent := Node (kind pn) (parentNode pn)
                                 (replace_first (childNodes pn) old new)]> h in
      let h2 := <[new := Node (kind nn) (Some parent) (childNodes nn)]> h1 in
      Ok (<[old := Node (kind on) None (childNodes on)]> h2)
  | _, _, _ => Throw TypeError
  end.

(* ================================================================== *)
(** ** The script *)
(* ================================================================== *)

(** The [for] loop that pushes the children from the last to the first, so
    that the first child is popped next.  The head of the list is the top
    of the stack. *)
Definition pushChildren (children stack : list nat) : list nat :=
  fold_left (fun st c => c :: st) (rev children) stack.

(** *** [getTextNodeOffset] *)

Fixpoint getTextNodeOffset_loop (fuel : nat) (h : dom) (textNode : nat)
    (nodeStack : list nat) (offset : Z) : outcome Z :=
  match fuel with
  | O => OutOfFuel
  | S fuel' =>
      match nodeStack with
      | [] => Ok offset
      | currentNode :: nodeStack =>
          match h !! currentNode with
          | None => Throw TypeError
          | Some nd =>
              let nodeStack := pushChildren (childNodes nd) nodeStack in
              if (nodeType nd =? 3) && negb (Nat.eqb currentNode textNode) then
                getTextNodeOffset_loop fuel' h textNode nodeStack
                  (offset + textLength nd)
              else if nodeType nd =? 3 then Ok offset
              else getTextNodeOffset_loop fuel' h textNode nodeStack offset
          end
      end
  end.

Definition getTextNodeOffset (h : dom) (parentElement textNode : nat) : outcome Z :=
  getTextNodeOffset_loop (S (length h)) h textNode [parentElement] 0.

(** *** [getSelectedTextNodePosition] *)

Record address : Type := Address {
  parentTagName : string;
  parentIndex : Z;
  textNodeOffset : Z;
  textNodeLength : Z
}.

Definition getSelectedTextNodePosition (h : dom) (selectedTextNode : option nat)
  : outcome address :=
  match selectedTextNode with
  | None => Throw TypeError
  | Some n =>
      match h !! n, parentElement h n with
      | Some nd, Some pe =>
          match h !! pe with
          | Some pn =>
              let parentTagName := tagName_of pn in
              let similarElements := getElementsByTagName h parentTagName in
              let parentIndex := indexOf similarElements pe in
              textNodeOffset ← getTextNodeOffset h pe n;
              Ok (Address parentTagName parentIndex textNodeOffset (textLength nd))
          | None => Throw TypeError
          end
      | _, _ => Throw TypeError
      end
  end.

(** *** [storeSelectedNodes]: the one slot of [localStorage] *)

Definition storeSelectedNodes (h : dom) (selectedTextNodes : list (option nat))
  : outcome (list address) :=
  (fix map_positions (l : list (option nat)) : outcome (list address) :=
     match l with
     | [] => Ok []
     | n :: l' =>
         a ← getSelectedTextNodePosition h n;
         rest ← map_positions l';
         Ok (a :: rest)
     end) selectedTextNodes.

(** *** [wrapHighlight] *)

Definition wrapHighlight (h : dom) (node : option nat) : outcome (dom * nat) :=
  let '(h1, wrapper) := createElement h "span" in
  h2 ← setBackgroundColor h1 wrapper "yellow";
  match node with
  | None => Throw TypeError
  | Some n =>
      '(h3, copy) ← cloneNode_shallow h2 n;
      h4 ← appendChild h3 wrapper copy;
      match h4 !! n with
      | Some nd =>
          match parentNode nd with
          | Some p =>
              h5 ← replaceChild h4 p wrapper n;
              Ok (h5, wrapper)
          | None => Throw TypeError
          end
      | None => Throw TypeError
      end
  end.

(** *** [getNodesIfSameStartEnd] *)

Record range : Type := Range {
  startContainer : option nat;
  startOffset : Z;
  endContainer : option nat;
  endOffset : Z
}.

Definition getNodesIfSameStartEnd (h : dom) (r : range)
  : outcome (dom * list (option nat)) :=
  match startContainer r with
  | None => Throw TypeError
  | Some sc =>
      '(h1, _) ← splitText h sc (startOffset r);
      match nextSibling h1 sc with
      | None => Throw TypeError
      | Some selectedContainer =>
          '(h2, _) ← splitText h1 selectedContainer (endOffset r - startOffset r);
          Ok (h2, [Some selectedContainer])
      end
  end.

(** *** [getSelectedNodes] *)

Fixpoint getSelectedNodes_loop (fuel : nat) (h : dom) (r : range)
    (nodesStack : list nat) (withinSelectedRange : bool)
    (selectedNodes : list (option nat)) : outcome (dom * list (option nat)) :=
  match fuel with
  | O => OutOfFuel
  | S fuel' =>
      match nodesStack with
      | [] => Ok (h, selectedNodes)
      | currentNode :: nodesStack =>
          match h !! currentNode with
          | None => Throw TypeError
          | Some nd =>
              let nodesStack := pushChildren (childNodes nd) nodesStack in
              if strictEq (Some currentNode) (startContainer r) then
                if nodeType nd =? 3 then
                  '(h1, _) ← splitText h currentNode (startOffset r);
                  let selectedNode := nextSibling h1 currentNode in
                  getSelectedNodes_loop fuel' h1 r nodesStack true
                    (selectedNodes ++ [selectedNode])
                else
                  getSelectedNodes_loop fuel' h r nodesStack true selectedNodes
              else if strictEq (Some currentNode) (endContainer r) then
                if nodeType nd =? 3 then
                  '(h1, _) ← splitText h currentNode (endOffset r);
                  Ok (h1, selectedNodes ++ [Some currentNode])
                else Ok (h, selectedNodes)
              else if withinSelectedRange && (nodeType nd =? 3) then
                getSelectedNodes_loop fuel' h r nodesStack withinSelectedRange
                  (selectedNodes ++ [Some currentNode])
              else
                getSelectedNodes_loop fuel' h r nodesStack withinSelectedRange
                  selectedNodes
          end
      end
  end.

Definition getSelectedNodes (h : dom) (rootElement : nat) (r : range)
  : outcome (dom * list (option nat)) :=
  if strictEq (startContainer r) (endContainer r)
     && instanceofText h (startContainer r)
  then getNodesIfSameStartEnd h r
  else getSelectedNodes_loop (S (length h)) h r [rootElement] false [].

(** *** [restoreContainer] *)

Fixpoint restoreContainer_loop (fuel : nat) (h : dom) (textNodeOffset : Z)
    (nodeStack : list nat) (currentOffset finalOffset : Z)
  : outcome (option nat * Z) :=
  match fuel with
  | O => OutOfFuel
  | S fuel' =>
      match nodeStack with
      | [] => Ok (None, finalOffset)
      | currentNode :: nodeStack =>
          match h !! currentNode with
          | None => Throw TypeError
          | Some nd =>
              let nodeStack := pushChildren (childNodes nd) nodeStack in
              if nodeType nd =? 3 then
                let finalOffset := textNodeOffset - currentOffset in
                let currentOffset := currentOffset + textLength nd in
                if currentOffset >=? textNodeOffset
                then Ok (Some currentNode, finalOffset)
                else restoreContainer_loop fuel' h textNodeOffset nodeStack
                       currentOffset finalOffset
              else restoreContainer_loop fuel' h textNodeOffset nodeStack
                     currentOffset finalOffset
          end
      end
  end.

(** The result [{ node, offset }]. *)
Definition restoreContainer (h : dom) (nodeInfo : option address)
  : outcome (option nat * Z) :=
  match nodeInfo with
  | None => Throw TypeError
  | Some a =>
      let parentElement := item (getElementsByTagName h (parentTagName a)) (parentIndex a) in
      match parentElement with
      | None =>
          (* the stack holds [undefined]: the loop is not entered, and the
             fallback [currentNode = parentElement] is [undefined] again *)
          Ok (None, 0)
      | Some pe =>
          '(currentNode, finalOffset) ←
             restoreContainer_loop (S (length h)) h (textNodeOffset a) [pe] 0 0;
          match currentNode with
          | Some n => Ok (Some n, finalOffset)
          | None => Ok (Some pe, finalOffset)
          end
      end
  end.

(** *** [restoreSelectedNodes] *)

Definition restoreSelectedNodes (h : dom) (stored : option (list address))
  : outcome range :=
  let parsed := match stored with Some l => l | None => [] end in
  let startSelectedNode := parsed !! 0%nat in
  let endSelectNode := parsed !! 1%nat in
  '(startContainer, startOffset) ← restoreContainer h startSelectedNode;
  '(endContainer, endOffset) ← restoreContainer h endSelectNode;
  match endSelectNode with
  | Some e =>
      Ok (Range startContainer startOffset endContainer (endOffset + textNodeLength e))
  | None => Throw TypeError
  end.

(** *** [selection]: the page, the listener and the restoration on load *)

Record page : Type := Page {
  page_dom : dom;
  localStorage_selection : option (list address)
}.

(** [selectedNodes.forEach(node => wrapHighlight(node))]. *)
Fixpoint forEach_wrapHighlight (h : dom) (selectedNodes : list (option nat))
  : outcome dom :=
  match selectedNodes with
  | [] => Ok h
  | n :: rest =>
      '(h1, _) ← wrapHighlight h n;
      forEach_wrapHighlight h1 rest
  end.

(** What [window.getSelection()] shows to the listener: the live range of
    the host's selection, if there is one.  [isCollapsed] is the host's
    attribute: no range, or a range whose two boundary points coincide. *)
Definition isCollapsed (sel : option range) : bool :=
  match sel with
  | None => true
  | Some r =>
      strictEq (startContainer r) (endContainer r)
      && (startOffset r =? endOffset r)
  end.

(** [selectedNodes[i]] of a JavaScript array. *)
Definition at_index (l : list (option nat)) (i : Z) : option nat :=
  if i <? 0 then None else
  match l !! Z.to_nat i with Some x => x | None => None end.

(** The [mouseup] listener. *)
Definition mouseup (pg : page) (sel : option range) : outcome page :=
  let isSelectedContent := negb (isCollapsed sel) in
  if isSelectedContent then
    match sel with
    | None => Throw IndexSizeError
    | Some r =>
        '(h1, selectedNodes) ← getSelectedNodes (page_dom pg) document r;
        positions ← storeSelectedNodes h1
          [at_index selectedNodes 0;
           at_index selectedNodes (Z.of_nat (length selectedNodes) - 1)];
        h2 ← forEach_wrapHighlight h1 selectedNodes;
        Ok (Page h2 (Some positions))
    end
  else Ok pg.

(** The restoration that [selection()] runs when the page loads. *)
Definition restore_on_load (pg : page) : outcome page :=
  match localStorage_selection pg with
  | Some _ =>
      r ← restoreSelectedNodes (page_dom pg) (localStorage_selection pg);
      '(h1, selectedNodes) ← getSelectedNodes (page_dom pg) document r;
      h2 ← forEach_wrapHighlight h1 selectedNodes;
      Ok (Page h2 (localStorage_selection pg))
  | None => Ok pg
  end.

(* ================================================================== *)
(** ** Documents from markup *)
(* ================================================================== *)

Inductive markup : Type :=
| Txt (data : string)
| Elem (tag : string) (kids : list markup).

Fixpoint msize (m : markup) : nat :=
  match m with
  | Txt _ => 1
  | Elem _ kids => S (fold_right (fun k n => (msize k + n)%nat) 0%nat kids)
  end.

Definition fsize (ms : list markup) : nat :=
  fold_right (fun k n => (msize k + n)%nat) 0%nat ms.

(** The references of the roots of a forest laid out from [base] on. *)
Fixpoint kid_ids (base : nat) (ms : list markup) : list nat :=
  match ms with
  | [] => []
  | m :: ms' => base :: kid_ids (base + msize m) ms'
  end.

(** The nodes of [m], numbered in tree order from [base] on. *)
Fixpoint flat (parent base : nat) (m : markup) : list node :=
  match m with
  | Txt s => [Node (TextNode s) (Some parent) []]
  | Elem t kids =>
      Node (ElementNode t "" "") (Some parent) (kid_ids (S base) kids)
      :: (fix go (b : nat) (l : list markup) : list node :=
            match l with
            | [] => []
            | k :: l' => flat base b k ++ go (b + msize k)%nat l'
            end) (S base) kids
  end.

Fixpoint flat_forest (parent base : nat) (ms : list markup) : list node :=
  match ms with
  | [] => []
  | m :: ms' => flat parent base m ++ flat_forest parent (base + msize m) ms'
  end.

(** The store of a freshly loaded document with the given body. *)
Definition load (body : list markup) : dom :=
  Node DocumentNode None (kid_ids 1 body) :: flat_forest document 1 body.

Definition scenario : list markup :=
  [Elem "p" [Txt "Hello"]; Elem "p" [Txt "World"]].

(* ================================================================== *)
(** ** Documents as trees *)
(* ================================================================== *)

(** The tree a store represents: every node with its reference, its kind
    and its children in order. *)
Inductive tree : Type :=
| Tree (id : nat) (k : nodeKind) (kids : list tree).

Definition root_id (t : tree) : nat := match t with Tree i _ _ => i end.
Definition root_kind (t : tree) : nodeKind := match t with Tree _ k _ => k end.
Definition kids_of (t : tree) : list tree := match t with Tree _ _ ks => ks end.

(** The nodes of a tree in document (pre-)order. *)
Fixpoint pre (t : tree) : list (nat * nodeKind) :=
  match t with
  | Tree i k kids => (i, k) :: flat_map pre kids
  end.

Definition pre_forest (ts : list tree) : list (nat * nodeKind) := flat_map pre ts.

Definition ids (t : tree) : list nat := map fst (pre t).

(** [rep h par t]: the store [h] holds the tree [t] below the parent [par]. *)
Fixpoint rep (h : dom) (par : option nat) (t : tree) : Prop :=
  match t with
  | Tree i k kids =>
      h !! i = Some (Node k par (map root_id kids))
      /\ fold_right (fun kid acc => rep h (Some i) kid /\ acc) True kids
  end.

(** Text nodes are leaves. *)
Fixpoint text_leaves (t : tree) : Prop :=
  match t with
  | Tree i k kids =>
      (match k with TextNode _ => kids = [] | _ => True end)
      /\ fold_right (fun kid acc => text_leaves kid /\ acc) True kids
  end.

(** A well-formed document: the store holds a tree whose root is the
    [document] node, no node occurs twice, and text nodes are leaves. *)
Definition wf_dom (h : dom) (t : tree) : Prop :=
  rep h None t /\ root_id t = document /\ root_kind t = DocumentNode
  /\ NoDup (ids t) /\ text_leaves t.

(** The data of the text nodes of a list of nodes, in order. *)
Fixpoint text_of (p : list (nat * nodeKind)) : string :=
  match p with
  | [] => ""
  | (_, TextNode s) :: p' => s ++ text_of p'
  | _ :: p' => text_of p'
  end.

Definition text_len (p : list (nat * nodeKind)) : Z :=
  Z.of_nat (String.length (text_of p)).

(** The references of the text nodes of a list of nodes, in order. *)
Fixpoint text_ids (p : list (nat * nodeKind)) : list nat :=
  match p with
  | [] => []
  | (i, TextNode _) :: p' => i :: text_ids p'
  | _ :: p' => text_ids p'
  end.

(** The references of the roots of a forest: what the traversal stack
    holds when the trees of the forest are still to be visited. *)
Definition roots (ts : list tree) : list nat := map root_id ts.

Definition rep_forest (h : dom) (ts : list tree) : Prop :=
  Forall (fun t => exists par, rep h par t) ts.

(** What the loop of [getTextNodeOffset] computes, read off the nodes in
    document order. *)
Fixpoint offset_walk (textNode : nat) (p : list (nat * nodeKind)) (offset : Z) : Z :=
  match p with
  | [] => offset
  | (i, TextNode s) :: p' =>
      if Nat.eqb i textNode then offset
      else offset_walk textNode p' (offset + Z.of_nat (String.length s))
  | _ :: p' => offset_walk textNode p' offset
  end.

(** What the loop of [restoreContainer] computes, read off the nodes in
    document order. *)
Fixpoint restore_walk (textNodeOffset : Z) (p : list (nat * nodeKind))
    (currentOffset finalOffset : Z) : option nat * Z :=
  match p with
  | [] => (None, finalOffset)
  | (i, TextNode s) :: p' =>
      let finalOffset := textNodeOffset - currentOffset in
      let currentOffset := currentOffset + Z.of_nat (String.length s) in
      if currentOffset >=? textNodeOffset then (Some i, finalOffset)
      else restore_walk textNodeOffset p' currentOffset finalOffset
  | _ :: p' => restore_walk textNodeOffset p' currentOffset finalOffset
  end.

(** The tree of a freshly loaded document: the markup with the references
    [load] gives to its nodes. *)
Fixpoint label (base : nat) (m : markup) : tree :=
  match m with
  | Txt s => Tree base (TextNode s) []
  | Elem t kids =>
      Tree base (ElementNode t "" "")
        ((fix go (b : nat) (l : list markup) : list tree :=
            match l with
            | [] => []
            | k :: l' => label b k :: go (b + msize k)%nat l'
            end) (S base) kids)
  end.

Fixpoint label_forest (base : nat) (ms : list markup) : list tree :=
  match ms with
  | [] => []
  | m :: ms' => label base m :: label_forest (base + msize m) ms'
  end.

Definition document_tree (body : list markup) : tree :=
  Tree document DocumentNode (label_forest 1 body).

(** A tree with all the trees below it. *)
Fixpoint subtrees (t : tree) : list tree :=
  match t with
  | Tree i k kids => Tree i k kids :: flat_map subtrees kids
  end.

(** The tree after [splitText]: the leaf [s] keeps the first [o] characters
    of its data, and a new leaf [new] with the rest follows it among the
    children of its parent. *)
Fixpoint tsplit (s o new : nat) (t : tree) : tree :=
  match t with
  | Tree i k kids =>
      Tree i k
        (flat_map
           (fun kid =>
              match kid with
              | Tree j (TextNode c) ks =>
                  if Nat.eqb j s
                  then [Tree j (TextNode (substring 0 o c)) ks;
                        Tree new (TextNode (substring o (String.length c - o) c)) []]
                  else [tsplit s o new kid]
              | _ => [tsplit s o new kid]
              end) kids)
  end.

(** The same on the nodes in document order. *)
Fixpoint psplit (s o new : nat) (p : list (nat * nodeKind)) : list (nat * nodeKind) :=
  match p with
  | [] => []
  | (j, TextNode c) :: p' =>
      if Nat.eqb j s
      then (j, TextNode (substring 0 o c))
           :: (new, TextNode (substring o (String.length c - o) c))
           :: psplit s o new p'
      else (j, TextNode c) :: psplit s o new p'
  | x :: p' => x :: psplit s o new p'
  end.

(** [node.data] of a reference. *)
Definition node_data (h : dom) (n : nat) : string :=
  match h !! n with
  | Some nd => data_of nd
  | None => ""
  end.

(** The contents of a sequence of leaves, concatenated in order. *)
Fixpoint collected_text (h : dom) (l : list nat) : string :=
  match l with
  | [] => ""
  | n :: l' => node_data h n ++ collected_text h l'
  end.

(** *** The plain text between two boundary positions

    From the specification's words: a boundary position is a node with an
    offset; in a text leaf the offset counts characters of its content, in
    an element it counts children.  The plain text between two positions is
    the part of the document's text that lies between them. *)

Definition find_subtree (t : tree) (n : nat) : option tree :=
  find (fun st => Nat.eqb (root_id st) n) (subtrees t).

(** The nodes that precede [n] in document order. *)
Fixpoint nodes_before (n : nat) (p : list (nat * nodeKind)) : list (nat * nodeKind) :=
  match p with
  | [] => []
  | (i, k) :: p' => if Nat.eqb i n then [] else (i, k) :: nodes_before n p'
  end.

(** The number of characters of the document's text before a position. *)
Definition abs_position (t : tree) (n : nat) (o : Z) : Z :=
  let before := text_len (nodes_before n (pre t)) in
  match find_subtree t n with
  | Some (Tree _ (TextNode _) _) => before + o
  | Some (Tree _ _ kids) => before + text_len (pre_forest (take (Z.to_nat o) kids))
  | None => 0
  end.

Definition plain_text_between (t : tree) (r : range) : string :=
  match startContainer r, endContainer r with
  | Some s, Some e =>
      let a := abs_position t s (startOffset r) in
      let b := abs_position t e (endOffset r) in
      substring (Z.to_nat a) (Z.to_nat (b - a)) (text_of (pre t))
  | _, _ => ""
  end.

(** The length of the text that a position in a node other than a text
    leaf leaves behind it inside the node: the text below the children that
    come before the child the offset counts up to. *)
Definition text_skipped (t : tree) (n : nat) (o : Z) : Z :=
  match find_subtree t n with
  | Some (Tree _ _ kids) => text_len (pre_forest (take (Z.to_nat o) kids))
  | None => 0
  end.

(** A boundary position at which the traversal cuts the text where the
    position is: in a text leaf, any offset within the data; in another
    node, an offset with no text in the children before it (offset 0, for
    one), since the traversal starts or stops at the node itself. *)
Definition exact_boundary (t : tree) (n : nat) (k : nodeKind) (o : Z) : Prop :=
  match k with
  | TextNode c => 0 <= o <= Z.of_nat (String.length c)
  | _ => text_skipped t n o = 0
  end.

(** The ranges, start not after end, for which the traversal collects the
    text between the two positions:
    - both positions in one text leaf;
    - the start container before the end container in document order, each
      boundary exact;
    - both positions in one node that is no text leaf, the start exact and
      all the text that follows the node in the document before the end
      position (the traversal never meets the end and runs to the end of
      the document);
    - the end container, no text leaf, before the start container in
      document order (an ancestor of it), with no text between the two
      positions (the traversal stops before it has collected anything). *)
Inductive exact_range (t : tree) : range -> Prop :=
| exact_range_same_leaf (s : nat) (c : string) (so eo : Z)
    (p1 p2 : list (nat * nodeKind)) :
    pre t = p1 ++ (s, TextNode c) :: p2 ->
    0 <= so -> so <= eo -> eo <= Z.of_nat (String.length c) ->
    exact_range t (Range (Some s) so (Some s) eo)
| exact_range_ordered (s e : nat) (ks ke : nodeKind) (so eo : Z)
    (p1 p2 p3 : list (nat * nodeKind)) :
    pre t = p1 ++ (s, ks) :: p2 ++ (e, ke) :: p3 ->
    exact_boundary t s ks so ->
    exact_boundary t e ke eo ->
    exact_range t (Range (Some s) so (Some e) eo)
| exact_range_same_node (s : nat) (ks : nodeKind) (so eo : Z)
    (p1 p2 : list (nat * nodeKind)) :
    pre t = p1 ++ (s, ks) :: p2 ->
    (forall c, ks <> TextNode c) ->
    text_skipped t s so = 0 ->
    text_skipped t s eo = text_len p2 ->
    exact_range t (Range (Some s) so (Some s) eo)
| exact_range_end_first (s e : nat) (ks ke : nodeKind) (so eo : Z)
    (p1 p2 p3 : list (nat * nodeKind)) :
    pre t = p1 ++ (e, ke) :: p2 ++ (s, ks) :: p3 ->
    (forall c, ke <> TextNode c) ->
    abs_position t s so = abs_position t e eo ->
    exact_range t (Range (Some s) so (Some e) eo).

(** The part of a boundary container's data before the offset and the part
    from the offset on; a node that is no text leaf has no data. *)
Definition head_text (k : nodeKind) (o : Z) : string :=
  match k with
  | TextNode c => substring 0 (Z.to_nat o) c
  | _ => ""
  end.

Definition tail_text (k : nodeKind) (o : Z) : string :=
  match k with
  | TextNode c => substring (Z.to_nat o) (String.length c - Z.to_nat o) c
  | _ => ""
  end.

(** The nodes that stand for a boundary container once the traversal has
    passed it: a text leaf is cut at the offset and the new node [new] holds
    the part from the offset on; any other node is as it was. *)
Definition cut_leaf (n : nat) (k : nodeKind) (o : Z) (new : nat)
  : list (nat * nodeKind) :=
  match k with
  | TextNode c =>
      [(n, TextNode (substring 0 (Z.to_nat o) c));
       (new, TextNode (substring (Z.to_nat o) (String.length c - Z.to_nat o) c))]
  | _ => [(n, k)]
  end.

(** What [tsplit] does to one child. *)
Definition split_kid (s o new : nat) (kid : tree) : list tree :=
  match kid with
  | Tree j (TextNode c) ks =>
      if Nat.eqb j s
      then [Tree j (TextNode (substring 0 o c)) ks;
            Tree new (TextNode (substring o (String.length c - o) c)) []]
      else [tsplit s o new kid]
  | _ => [tsplit s o new kid]
  end.

(** The store [h'] differs from [h] by a split of the leaf [s], a child of
    [p] with data [c], at [o]: [s] keeps the head, the new last node of the
    store holds the tail, and [p] has it as the child after [s]. *)
Definition split_effect (h : dom) (s p : nat) (c : string) (o : nat) (h' : dom) : Prop :=
  length h' = S (length h)
  /\ h' !! s = Some (Node (TextNode (substring 0 o c)) (Some p) [])
  /\ h' !! length h
     = Some (Node (TextNode (substring o (String.length c - o) c)) (Some p) [])
  /\ (forall pn, h !! p = Some pn ->
        h' !! p = Some (Node (kind pn) (parentNode pn)
                             (insert_after (childNodes pn) s (length h))))
  /\ (forall i, i <> s -> i <> p -> (i < length h)%nat -> h' !! i = h !! i).

(** [element.textContent]: the data of the text nodes below the element,
    concatenated in tree order. *)
Definition textContent (h : dom) (n : nat) : string :=
  collected_text h (preorder (length h) h n).

Definition className_of (nd : node) : string :=
  match kind nd with
  | ElementNode _ c _ => c
  | _ => ""
  end.

(** *** The default options of the library (the constants file)

    The collaborator that supplies the tag and the class name of highlight
    wrappers: [getDefaultOptions], without its [$root] and
    [exceptSelectors]. *)

Definition DEFAULT_WRAP_TAG : string := "span".

Record highlightStyle : Type := { className : string }.

Record options : Type := {
  wrapTag : string;
  verbose : bool;
  style : highlightStyle
}.

Definition getDefaultOptions : options :=
  {| wrapTag := DEFAULT_WRAP_TAG;
     verbose := false;
     style := {| className := "highlight-mengshou-wrap" |} |}.

(** Whether a node of the given kind is matched by
    [getElementsByTagName(tag)], and the matched nodes of a list of nodes
    in document order. *)
Definition kind_matches (tag : string) (k : nodeKind) : bool :=
  match k with
  | ElementNode t _ _ =>
      String.eqb tag "*" || String.eqb (ascii_lowercase t) (ascii_lowercase tag)
  | _ => false
  end.

Fixpoint elements_by_tag (tag : string) (p : list (nat * nodeKind)) : list nat :=
  match p with
  | [] => []
  | (i, k) :: p' =>
      if kind_matches tag k then i :: elements_by_tag tag p'
      else elements_by_tag tag p'
  end.

(** The leaf that a boundary of kind [k] contributes to the collected
    sequence: the node [i] when the boundary container is a text node,
    nothing otherwise. *)
Definition boundary_leaf (k : nodeKind) (i : nat) : list nat :=
  match k with
  | TextNode _ => [i]
  | _ => []
  end.

(* ================================================================== *)
(** ** Lists, strings and stacks *)
(* ================================================================== *)

Lemma pushChildren_app (children stack : list nat) :
  pushChildren children stack = children ++ stack.
Proof.
  unfold pushChildren.
  rewrite <- (fold_left_rev_right (fun c st => c :: st)), rev_involutive.
  induction children as [|c cs IH]; simpl; [reflexivity | now rewrite IH].
Qed.

Lemma string_length_app (s1 s2 : string) :
  String.length (s1 ++ s2) = (String.length s1 + String.length s2)%nat.
Proof. induction s1 as [|c s1 IH]; simpl; [reflexivity | now rewrite IH]. Qed.

Lemma string_app_assoc (s1 s2 s3 : string) :
  ((s1 ++ s2) ++ s3 = s1 ++ (s2 ++ s3))%string.
Proof. induction s1 as [|c s1 IH]; simpl; [reflexivity | now rewrite IH]. Qed.

Lemma string_app_nil_r (s : string) : (s ++ "")%string = s.
Proof. induction s as [|c s IH]; simpl; [reflexivity | now rewrite IH]. Qed.

Lemma substring_full (s : string) : substring 0 (String.length s) s = s.
Proof. induction s as [|c s IH]; simpl; [reflexivity | now rewrite IH]. Qed.

Lemma substring_length (s : string) :
  forall n m : nat,
    (n + m <= String.length s)%nat -> String.length (substring n m s) = m.
Proof.
  induction s as [|c s IH]; intros [|n] [|m] H; simpl in *; try reflexivity; try lia.
  - rewrite (IH 0%nat m); [reflexivity | lia].
  - apply IH. lia.
  - apply IH. lia.
Qed.

Lemma substring_app_skip (a b : string) (n m : nat) :
  substring (String.length a + n) m (a ++ b) = substring n m b.
Proof. induction a as [|c a IH]; simpl; [reflexivity | exact IH]. Qed.

Lemma substring_app_inside (a b : string) :
  forall n m : nat,
    (n + m <= String.length a)%nat -> substring n m (a ++ b) = substring n m a.
Proof.
  induction a as [|c a IH]; intros n m H; simpl in *.
  - assert (n = 0%nat) by lia. assert (m = 0%nat) by lia. subst.
    destruct b; reflexivity.
  - destruct n as [|n].
    + destruct m as [|m]; [reflexivity |]. simpl. f_equal. apply IH. lia.
    + apply IH. lia.
Qed.

Lemma substring_app_cross (a b : string) (m : nat) :
  forall n : nat,
    (n <= String.length a)%nat ->
    substring n (String.length a - n + m) (a ++ b)
    = (substring n (String.length a - n) a ++ substring 0 m b)%string.
Proof.
  induction a as [|c a IH]; intros n H; simpl in *.
  - assert (n = 0%nat) by lia. subst. simpl. destruct m; reflexivity.
  - destruct n as [|n].
    + simpl. f_equal. specialize (IH 0%nat ltac:(lia)).
      rewrite Nat.sub_0_r in IH. exact IH.
    + apply IH. lia.
Qed.

(** A substring of a suffix is a substring further to the right. *)
Lemma substring_suffix (s : string) (m k : nat) :
  forall n : nat,
    (n <= String.length s)%nat ->
    substring m k (substring n (String.length s - n) s) = substring (n + m) k s.
Proof.
  induction s as [|c s IH]; intros n H.
  - simpl in H. assert (n = 0%nat) by lia. subst. reflexivity.
  - destruct n as [|n].
    + now rewrite Nat.sub_0_r, substring_full.
    + change (substring m k (substring n (String.length s - n) s)
              = substring (n + m) k s).
      apply IH. simpl in H. lia.
Qed.

(** Distinct references below the size of the store: no more of them
    than the store has nodes. *)
Lemma NoDup_bounded_length (l : list nat) (n : nat) :
  NoDup l -> (forall x, x ∈ l -> (x < n)%nat) -> (length l <= n)%nat.
Proof.
  intros Hnd Hlt.
  assert (l ⊆+ seq 0 n) as Hsub.
  { apply NoDup_submseteq; [exact Hnd |].
    intros x Hx. apply elem_of_seq. specialize (Hlt x Hx). lia. }
  apply submseteq_length in Hsub. now rewrite length_seq in Hsub.
Qed.

Lemma NoDup_mid (l1 l2 : list nat) (x : nat) :
  NoDup (l1 ++ x :: l2) -> (x ∉ l1) /\ (x ∉ l2).
Proof.
  intros Hnd. apply NoDup_app in Hnd as (_ & Hdisj & Hnd).
  apply NoDup_cons in Hnd as [Hx _]. split; [| exact Hx].
  intros Hin. apply (Hdisj x Hin). now left.
Qed.

Lemma NoDup_insert_mid (l1 l2 : list nat) (x y : nat) :
  NoDup (l1 ++ x :: l2) -> y ∉ l1 ++ x :: l2 -> NoDup (l1 ++ x :: y :: l2).
Proof.
  intros Hnd Hy. apply NoDup_app in Hnd as (H1 & Hdisj & Hnd).
  apply NoDup_cons in Hnd as [Hx H2].
  apply NoDup_app. split; [exact H1 |]. split.
  - intros z Hz Hin. apply elem_of_cons in Hin as [-> | Hin].
    + apply (Hdisj x Hz). now left.
    + apply elem_of_cons in Hin as [-> | Hin].
      * apply Hy. apply elem_of_app. now left.
      * apply (Hdisj z Hz). now right.
  - apply NoDup_cons. split.
    + intros Hin. apply elem_of_cons in Hin as [-> | Hin]; [| contradiction].
      apply Hy. apply elem_of_app. right. now left.
    + apply NoDup_cons. split; [| exact H2].
      intros Hin. apply Hy. apply elem_of_app. right. now right.
Qed.

Lemma NoDup_fst_unique {B : Type} (l : list (nat * B)) (i : nat) (a b : B) :
  NoDup (map fst l) -> (i, a) ∈ l -> (i, b) ∈ l -> a = b.
Proof.
  induction l as [|[j x] l IH]; intros Hnd Ha Hb; [inversion Ha |].
  simpl in Hnd. apply NoDup_cons in Hnd as [Hj Hnd].
  apply elem_of_cons in Ha as [Ha | Ha]; apply elem_of_cons in Hb as [Hb | Hb].
  - congruence.
  - inversion Ha; subst. exfalso. apply Hj.
    apply list_elem_of_fmap. now exists (j, b).
  - inversion Hb; subst. exfalso. apply Hj.
    apply list_elem_of_fmap. now exists (j, a).
  - now apply IH.
Qed.

Lemma indexOf_nonneg (l : list nat) (x : nat) : x ∈ l -> 0 <= indexOf l x.
Proof.
  induction l as [|y l IH]; intros Hin; [inversion Hin |].
  simpl. destruct (Nat.eqb_spec y x) as [-> | Hne]; [lia |].
  apply elem_of_cons in Hin as [-> | Hin]; [congruence |].
  specialize (IH Hin). destruct (indexOf l x <? 0) eqn:E; lia.
Qed.

Lemma item_indexOf (l : list nat) (x : nat) : x ∈ l -> item l (indexOf l x) = Some x.
Proof.
  intros Hin. unfold item.
  pose proof (indexOf_nonneg l x Hin) as Hnn.
  destruct (indexOf l x <? 0) eqn:E; [lia | clear E].
  induction l as [|y l IH]; [inversion Hin |].
  simpl in *. destruct (Nat.eqb_spec y x) as [-> | Hne]; [reflexivity |].
  apply elem_of_cons in Hin as [-> | Hin]; [congruence |].
  pose proof (indexOf_nonneg l x Hin).
  destruct (indexOf l x <? 0) eqn:E; [lia |].
  replace (Z.to_nat (indexOf l x + 1)) with (S (Z.to_nat (indexOf l x))) by lia.
  simpl. apply IH; [assumption | lia].
Qed.

Lemma next_in_insert_after (l : list nat) (x y : nat) :
  x ∈ l -> next_in (insert_after l x y) x = Some y.
Proof.
  induction l as [|z l IH]; intros Hin; [inversion Hin |].
  simpl. destruct (Nat.eqb_spec z x) as [-> | Hne].
  - simpl. now rewrite Nat.eqb_refl.
  - simpl. destruct (Nat.eqb_spec z x); [contradiction |].
    apply IH. apply elem_of_cons in Hin as [-> | Hin]; [contradiction | exact Hin].
Qed.

Lemma replace_first_at (l1 l2 : list nat) (x y : nat) :
  x ∉ l1 -> replace_first (l1 ++ x :: l2) x y = l1 ++ y :: l2.
Proof.
  induction l1 as [|z l1 IH]; intros Hx; simpl.
  - now rewrite Nat.eqb_refl.
  - destruct (Nat.eqb_spec z x) as [-> | Hne].
    + exfalso. apply Hx. now left.
    + f_equal. apply IH. intros Hin. apply Hx. now right.
Qed.

Lemma strictEq_refl (x : option nat) : strictEq x x = true.
Proof. destruct x; simpl; [apply Nat.eqb_refl | reflexivity]. Qed.

Lemma strictEq_Some_false (i : nat) (x : option nat) :
  x <> Some i -> strictEq (Some i) x = false.
Proof.
  destruct x as [j|]; simpl; [| reflexivity].
  intros Hne. apply Nat.eqb_neq. congruence.
Qed.

Ltac by_decide := apply (bool_decide_unpack _); vm_compute; exact I.

(* ================================================================== *)
(** ** Trees and the stores that hold them *)
(* ================================================================== *)

Lemma tree_ind' (P : tree -> Prop) :
  (forall i k kids, Forall P kids -> P (Tree i k kids)) ->
  forall t, P t.
Proof.
  intros H. fix IH 1. intros [i k kids]. apply H.
  induction kids as [|kid kids IHk]; constructor; [apply IH | exact IHk].
Qed.

Lemma fold_conj_Forall {A : Type} (P : A -> Prop) (l : list A) :
  fold_right (fun x acc => P x /\ acc) True l <-> Forall P l.
Proof.
  induction l as [|x l IH]; simpl.
  - split; [constructor | trivial].
  - rewrite IH. split.
    + intros [? ?]. now constructor.
    + intros H. inversion H; subst. now split.
Qed.

Lemma rep_Tree (h : dom) (par : option nat) (i : nat) (k : nodeKind) (kids : list tree) :
  rep h par (Tree i k kids) <->
  h !! i = Some (Node k par (roots kids)) /\ Forall (rep h (Some i)) kids.
Proof. simpl. now rewrite fold_conj_Forall. Qed.

Lemma text_leaves_Tree (i : nat) (k : nodeKind) (kids : list tree) :
  text_leaves (Tree i k kids) <->
  (match k with TextNode _ => kids = [] | _ => True end) /\ Forall text_leaves kids.
Proof. simpl. now rewrite fold_conj_Forall. Qed.

Lemma text_leaves_kids (i : nat) (k : nodeKind) (kids : list tree) :
  text_leaves (Tree i k kids) -> Forall text_leaves kids.
Proof. intros H. now apply text_leaves_Tree in H as [_ H]. Qed.

Lemma pre_forest_cons (t : tree) (ts : list tree) :
  pre_forest (t :: ts) = pre t ++ pre_forest ts.
Proof. reflexivity. Qed.

Lemma pre_forest_app (ts1 ts2 : list tree) :
  pre_forest (ts1 ++ ts2) = pre_forest ts1 ++ pre_forest ts2.
Proof. unfold pre_forest. apply flat_map_app. Qed.

(** Popping the first root of a forest and pushing its children leaves
    the forest [kids ++ ts] to visit. *)
Lemma pre_forest_pop (i : nat) (k : nodeKind) (kids ts : list tree) :
  pre_forest (Tree i k kids :: ts) = (i, k) :: pre_forest (kids ++ ts).
Proof. rewrite pre_forest_cons, pre_forest_app. reflexivity. Qed.

Lemma pre_forest_single (t : tree) : pre_forest [t] = pre t.
Proof. unfold pre_forest. simpl. apply app_nil_r. Qed.

Lemma pre_forest_nil (ts : list tree) : pre_forest ts = [] -> ts = [].
Proof. destruct ts as [|[i k kids] ts]; [reflexivity | discriminate]. Qed.

Lemma pre_forest_head (ts : list tree) (x : nat * nodeKind) (rest : list (nat * nodeKind)) :
  pre_forest ts = x :: rest ->
  exists kids ts0, ts = Tree (fst x) (snd x) kids :: ts0 /\ pre_forest (kids ++ ts0) = rest.
Proof.
  destruct ts as [|[i k kids] ts0]; [discriminate |].
  rewrite pre_forest_pop. intros H. inversion H; subst. simpl. eauto.
Qed.

(** A node of a forest lies in one of its trees. *)
Lemma pre_forest_split (x : nat * nodeKind) :
  forall (kids : list tree) (p1 p2 : list (nat * nodeKind)),
    pre_forest kids = p1 ++ x :: p2 ->
    exists K1 kid K2 q1 q2,
      kids = K1 ++ kid :: K2
      /\ pre kid = q1 ++ x :: q2
      /\ p1 = pre_forest K1 ++ q1
      /\ p2 = q2 ++ pre_forest K2.
Proof.
  induction kids as [|kid kids IH]; intros p1 p2 Hpre.
  - destruct p1; discriminate.
  - rewrite pre_forest_cons in Hpre.
    apply app_eq_inv in Hpre as [(l & H1 & H2) | (l & H1 & H2)].
    + destruct l as [|y l].
      * rewrite app_nil_r in H1. simpl in H2.
        destruct (IH [] p2 (eq_sym H2)) as (K1 & kid' & K2 & q1 & q2 & -> & Hk & Hq1 & ->).
        exists (kid :: K1), kid', K2, q1, q2.
        repeat split; [exact Hk |].
        rewrite pre_forest_cons, <- app_assoc, <- Hq1, app_nil_r. now symmetry.
      * inversion H2; subst. exists [], kid, kids, p1, l. now repeat split.
    + destruct (IH l p2 H2) as (K1 & kid' & K2 & q1 & q2 & -> & Hk & -> & ->).
      exists (kid :: K1), kid', K2, q1, q2.
      repeat split; [exact Hk |].
      rewrite H1, pre_forest_cons. now rewrite app_assoc.
Qed.

Lemma pre_root (t : tree) : exists rest, pre t = (root_id t, root_kind t) :: rest.
Proof. destruct t. simpl. eauto. Qed.

Lemma roots_app (ts1 ts2 : list tree) : roots (ts1 ++ ts2) = roots ts1 ++ roots ts2.
Proof. apply map_app. Qed.

Lemma roots_nil (ts : list tree) : roots ts = [] -> ts = [].
Proof. destruct ts; [reflexivity | discriminate]. Qed.

Lemma ids_Tree (i : nat) (k : nodeKind) (kids : list tree) :
  ids (Tree i k kids) = i :: flat_map ids kids.
Proof.
  unfold ids. simpl. f_equal.
  induction kids as [|kid kids IH]; [reflexivity |].
  simpl. now rewrite map_app, IH.
Qed.

Lemma root_in_ids (t : tree) : root_id t ∈ ids t.
Proof. destruct t. rewrite ids_Tree. now left. Qed.

Lemma ids_in_forest (ts : list tree) (t : tree) (i : nat) :
  t ∈ ts -> i ∈ ids t -> i ∈ map fst (pre_forest ts).
Proof.
  intros Ht Hi. unfold ids in Hi.
  apply list_elem_of_fmap in Hi as (x & -> & Hx).
  apply list_elem_of_fmap. exists x. split; [reflexivity |].
  apply list_elem_of_In, in_flat_map. exists t. split; now apply list_elem_of_In.
Qed.

Lemma NoDup_forest (kids : list tree) :
  NoDup (flat_map ids kids) ->
  NoDup (roots kids) /\ Forall (fun kid => NoDup (ids kid)) kids.
Proof.
  induction kids as [|kid kids IH]; intros Hnd.
  - split; constructor.
  - simpl in Hnd. apply NoDup_app in Hnd as (Hkid & Hdisj & Hrest).
    destruct (IH Hrest) as [Hroots Hall]. split; [| now constructor].
    simpl. apply NoDup_cons. split; [| exact Hroots].
    intros Hin. apply (Hdisj (root_id kid) (root_in_ids kid)).
    unfold roots in Hin. apply list_elem_of_fmap in Hin as (kid' & Heq & Hin).
    apply list_elem_of_In, in_flat_map. exists kid'.
    split; [now apply list_elem_of_In |].
    apply list_elem_of_In. rewrite Heq. apply root_in_ids.
Qed.

Lemma NoDup_ids_Tree (i : nat) (k : nodeKind) (kids : list tree) :
  NoDup (ids (Tree i k kids)) ->
  NoDup (roots kids) /\ Forall (fun kid => NoDup (ids kid)) kids.
Proof.
  rewrite ids_Tree. intros Hnd. apply NoDup_cons in Hnd as [_ Hnd].
  now apply NoDup_forest.
Qed.

Lemma rep_forest_pop (h : dom) (i : nat) (k : nodeKind) (kids ts : list tree) :
  rep_forest h (Tree i k kids :: ts) ->
  (exists par, h !! i = Some (Node k par (roots kids)))
  /\ rep_forest h (kids ++ ts).
Proof.
  intros H. inversion H as [|? ? [par Hr] Hts]; subst.
  apply rep_Tree in Hr as [Hi Hk]. split; [eauto |].
  apply Forall_app. split; [| exact Hts].
  eapply Forall_impl; [exact Hk |]. simpl. eauto.
Qed.

Lemma rep_lookup (h : dom) :
  forall (t : tree) (par : option nat) (i : nat) (k : nodeKind),
    rep h par t -> (i, k) ∈ pre t ->
    exists par' kids, h !! i = Some (Node k par' kids).
Proof.
  induction t as [j kj kids IH] using tree_ind'; intros par i k Hr Hin.
  apply rep_Tree in Hr as [Hj Hk]. simpl in Hin.
  apply elem_of_cons in Hin as [Heq | Hin].
  - inversion Heq; subst. eauto.
  - apply list_elem_of_In, in_flat_map in Hin as (kid & Hkid & Hin).
    rewrite Forall_forall in IH, Hk.
    eapply IH; [apply list_elem_of_In; exact Hkid | apply Hk, list_elem_of_In; exact Hkid
               | apply list_elem_of_In; exact Hin].
Qed.

Lemma rep_ids_lt (h : dom) (t : tree) (par : option nat) (i : nat) :
  rep h par t -> i ∈ ids t -> (i < length h)%nat.
Proof.
  intros Hr Hin. unfold ids in Hin.
  apply list_elem_of_fmap in Hin as ([j k] & -> & Hin).
  destruct (rep_lookup _ _ _ _ _ Hr Hin) as (par' & kids & Hl).
  eapply lookup_lt_Some; exact Hl.
Qed.

Lemma rep_size_le (h : dom) (t : tree) (par : option nat) :
  rep h par t -> NoDup (ids t) -> (length (pre t) <= length h)%nat.
Proof.
  intros Hr Hnd.
  replace (length (pre t)) with (length (ids t)) by (unfold ids; apply length_map).
  apply NoDup_bounded_length; [exact Hnd |].
  intros x Hx. eapply rep_ids_lt; eauto.
Qed.

Lemma rep_text_leaf (h : dom) :
  forall (t : tree) (par : option nat) (s : nat) (c : string),
    rep h par t -> text_leaves t -> (s, TextNode c) ∈ pre t ->
    exists par', h !! s = Some (Node (TextNode c) par' []).
Proof.
  induction t as [i k kids IH] using tree_ind'; intros par s c Hr Htl Hin.
  apply rep_Tree in Hr as [Hi Hk].
  apply text_leaves_Tree in Htl as [Hleaf Hkids].
  simpl in Hin. apply elem_of_cons in Hin as [Heq | Hin].
  - inversion Heq; subst. simpl in Hleaf. subst kids. rewrite Hi. eauto.
  - apply list_elem_of_In, in_flat_map in Hin as (kid & Hkid & Hin).
    apply list_elem_of_In in Hkid, Hin.
    rewrite Forall_forall in IH, Hk, Hkids.
    exact (IH kid Hkid (Some i) s c (Hk kid Hkid) (Hkids kid Hkid) Hin).
Qed.

(** Where a node at a given place of the document order hangs: it is the
    root, or the store links it to a parent that comes before it. *)
Lemma rep_parent (h : dom) :
  forall (t : tree) (par : option nat) (s : nat) (k : nodeKind)
         (p1 p2 : list (nat * nodeKind)),
    rep h par t ->
    pre t = p1 ++ (s, k) :: p2 ->
    (p1 = [] /\ s = root_id t)
    \/ exists p pn ks,
         h !! s = Some (Node k (Some p) ks)
         /\ h !! p = Some pn
         /\ s ∈ childNodes pn
         /\ p ∈ map fst p1.
Proof.
  induction t as [i k0 kids IH] using tree_ind'; intros par s k p1 p2 Hr Hpre.
  apply rep_Tree in Hr as [Hi Hk].
  change (pre (Tree i k0 kids)) with ((i, k0) :: pre_forest kids) in Hpre.
  destruct p1 as [|x p1]; simpl in Hpre.
  - left. inversion Hpre; subst. split; reflexivity.
  - right. inversion Hpre as [[Hx Hrest]]; subst x. clear Hpre.
    apply pre_forest_split in Hrest
      as (K1 & kid & K2 & q1 & q2 & -> & Hkid & -> & ->).
    rewrite Forall_forall in IH, Hk.
    assert (kid ∈ K1 ++ kid :: K2) as Hin by (apply elem_of_app; right; now left).
    destruct (IH kid Hin (Some i) s k q1 q2 (Hk kid Hin) Hkid)
      as [[-> Hroot] | (p & pn & ks & Hs & Hp & Hsin & Hpin)].
    + destruct kid as [j kj ks]. simpl in Hroot. subst j.
      simpl in Hkid. inversion Hkid; subst kj.
      specialize (Hk _ Hin). apply rep_Tree in Hk as [Hs _].
      exists i, (Node k0 par (roots (K1 ++ Tree s k ks :: K2))), (roots ks).
      repeat split; [exact Hs | exact Hi | |].
      * cbn [childNodes]. rewrite roots_app. apply elem_of_app. right. now left.
      * simpl. now left.
    + exists p, pn, ks. repeat split; try assumption.
      simpl. right. rewrite map_app. apply elem_of_app. now right.
Qed.

(** A tree is still represented when the store has not changed at its
    nodes. *)
Lemma rep_frame (h h' : dom) :
  forall (t : tree) (par : option nat),
    rep h par t ->
    (forall i, i ∈ ids t -> h' !! i = h !! i) ->
    rep h' par t.
Proof.
  induction t as [i k kids IH] using tree_ind'; intros par Hr Hsame.
  apply rep_Tree in Hr as [Hi Hk]. apply rep_Tree. split.
  - rewrite Hsame; [exact Hi | rewrite ids_Tree; now left].
  - rewrite Forall_forall in IH, Hk. apply Forall_forall. intros kid Hin.
    apply IH; [exact Hin | now apply Hk |].
    intros j Hj. apply Hsame. rewrite ids_Tree. right.
    apply list_elem_of_In, in_flat_map. exists kid.
    split; now apply list_elem_of_In.
Qed.

Lemma rep_forest_frame (h h' : dom) (ts : list tree) :
  rep_forest h ts ->
  (forall i, i ∈ map fst (pre_forest ts) -> h' !! i = h !! i) ->
  rep_forest h' ts.
Proof.
  intros Hr Hsame. unfold rep_forest in *.
  rewrite Forall_forall in Hr. apply Forall_forall. intros t Hin.
  destruct (Hr t Hin) as (par & Hrt). exists par.
  apply (rep_frame h h' t par Hrt).
  intros i Hi. apply Hsame. eapply ids_in_forest; eauto.
Qed.

(* ================================================================== *)
(** ** The text of a list of nodes *)
(* ================================================================== *)

Lemma text_of_app (p q : list (nat * nodeKind)) :
  text_of (p ++ q) = (text_of p ++ text_of q)%string.
Proof.
  induction p as [|[i k] p IH]; simpl; [reflexivity |].
  destruct k; simpl; try exact IH. now rewrite IH, string_app_assoc.
Qed.

Lemma text_len_app (p q : list (nat * nodeKind)) :
  text_len (p ++ q) = text_len p + text_len q.
Proof. unfold text_len. rewrite text_of_app, string_length_app. lia. Qed.

Lemma text_len_cons_text (i : nat) (s : string) (p : list (nat * nodeKind)) :
  text_len ((i, TextNode s) :: p) = Z.of_nat (String.length s) + text_len p.
Proof. unfold text_len. simpl. rewrite string_length_app. lia. Qed.

Lemma text_len_nonneg (p : list (nat * nodeKind)) : 0 <= text_len p.
Proof. unfold text_len. lia. Qed.

Lemma text_len_no_text (p : list (nat * nodeKind)) : text_ids p = [] -> text_len p = 0.
Proof.
  unfold text_len. induction p as [|[i k] p IH]; simpl; [reflexivity |].
  destruct k; simpl; try exact IH. discriminate.
Qed.

Lemma text_ids_subset (p : list (nat * nodeKind)) (i : nat) :
  i ∈ text_ids p -> i ∈ map fst p.
Proof.
  induction p as [|[j k] p IH]; simpl; [easy |].
  destruct k; intros H; try (apply elem_of_cons; right; now apply IH).
  apply elem_of_cons in H as [-> | H]; apply elem_of_cons; [now left | right; now apply IH].
Qed.

Lemma text_ids_app (p q : list (nat * nodeKind)) :
  text_ids (p ++ q) = text_ids p ++ text_ids q.
Proof.
  induction p as [|[i k] p IH]; [reflexivity |].
  destruct k; simpl; now rewrite ?IH.
Qed.

(** The data the store holds for the text nodes of a represented tree. *)
Lemma collected_text_rep (h : dom) (t : tree) (par : option nat)
    (q : list (nat * nodeKind)) :
  rep h par t -> (forall x, x ∈ q -> x ∈ pre t) ->
  collected_text h (text_ids q) = text_of q.
Proof.
  intros Hr. induction q as [|[i k] q IH]; intros Hq; [reflexivity |].
  assert (collected_text h (text_ids q) = text_of q) as IH'
    by (apply IH; intros x Hx; apply Hq; now right).
  destruct k as [|tg cl bg|c]; simpl; try exact IH'.
  rewrite IH'. f_equal. unfold node_data.
  destruct (rep_lookup h t par i (TextNode c) Hr) as (par' & kids & ->);
    [apply Hq; now left | reflexivity].
Qed.

Lemma collected_text_ids (h : dom) (t : tree) (par : option nat)
    (q : list (nat * nodeKind)) :
  rep h par t -> (forall x, x ∈ q -> x ∈ pre t) ->
  collected_text h (map fst q) = text_of q.
Proof.
  intros Hr. induction q as [|[i k] q IH]; intros Hq; [reflexivity |].
  assert (collected_text h (map fst q) = text_of q) as IH'
    by (apply IH; intros x Hx; apply Hq; now right).
  cbn [map fst collected_text]. rewrite IH'. unfold node_data.
  destruct (rep_lookup h t par i k Hr) as (par' & kids & ->); [apply Hq; now left |].
  destruct k; reflexivity.
Qed.

(* ================================================================== *)
(** ** Subtrees and tree order *)
(* ================================================================== *)

Lemma subtrees_self (t : tree) : t ∈ subtrees t.
Proof. destruct t. simpl. now left. Qed.

Lemma subtrees_inv (i : nat) (k : nodeKind) (kids : list tree) (st : tree) :
  st ∈ subtrees (Tree i k kids) ->
  st = Tree i k kids
  \/ exists K1 kid K2, kids = K1 ++ kid :: K2 /\ st ∈ subtrees kid.
Proof.
  simpl. intros Hin. apply elem_of_cons in Hin as [-> | Hin]; [now left | right].
  apply list_elem_of_In, in_flat_map in Hin as (kid & Hkid & Hin).
  apply in_split in Hkid as (K1 & K2 & ->).
  exists K1, kid, K2. split; [reflexivity | now apply list_elem_of_In].
Qed.

(** The nodes of a subtree are consecutive in document order. *)
Lemma subtree_pre (t st : tree) :
  st ∈ subtrees t -> exists A B, pre t = A ++ pre st ++ B.
Proof.
  revert st. induction t as [i k kids IH] using tree_ind'; intros st Hin.
  apply subtrees_inv in Hin as [-> | (K1 & kid & K2 & -> & Hin)].
  - exists [], []. now rewrite app_nil_r.
  - rewrite Forall_forall in IH.
    destruct (IH kid ltac:(apply elem_of_app; right; now left) st Hin) as (A & B & HAB).
    exists ((i, k) :: pre_forest K1 ++ A), (B ++ pre_forest K2).
    change (pre (Tree i k (K1 ++ kid :: K2)))
      with ((i, k) :: pre_forest (K1 ++ kid :: K2)).
    rewrite pre_forest_app, pre_forest_cons, HAB.
    simpl. now rewrite <- !app_assoc.
Qed.

Lemma subtree_rep (h : dom) (t st : tree) (par : option nat) :
  rep h par t -> st ∈ subtrees t -> exists par', rep h par' st.
Proof.
  revert st par. induction t as [i k kids IH] using tree_ind'; intros st par Hr Hin.
  apply subtrees_inv in Hin as [-> | (K1 & kid & K2 & -> & Hin)]; [eauto |].
  apply rep_Tree in Hr as [_ Hk]. rewrite Forall_forall in IH, Hk.
  assert (kid ∈ K1 ++ kid :: K2) as Hkid by (apply elem_of_app; right; now left).
  exact (IH kid Hkid st (Some i) (Hk kid Hkid) Hin).
Qed.

Lemma subtree_NoDup (t st : tree) :
  NoDup (ids t) -> st ∈ subtrees t -> NoDup (ids st).
Proof.
  intros Hnd Hin. destruct (subtree_pre t st Hin) as (A & B & HAB).
  unfold ids in *. rewrite HAB, !map_app in Hnd.
  apply NoDup_app in Hnd as (_ & _ & Hnd).
  now apply NoDup_app in Hnd as (Hnd & _ & _).
Qed.

(** Every node of a tree is the root of one of its subtrees. *)
Lemma subtree_of_id (t : tree) (i : nat) :
  i ∈ ids t -> exists st, st ∈ subtrees t /\ root_id st = i.
Proof.
  induction t as [j k kids IH] using tree_ind'; intros Hin.
  unfold ids in Hin. simpl in Hin. apply elem_of_cons in Hin as [-> | Hin].
  - exists (Tree j k kids). split; [apply subtrees_self | reflexivity].
  - apply list_elem_of_fmap in Hin as (x & -> & Hin).
    apply list_elem_of_In, in_flat_map in Hin as (kid & Hkid & Hin).
    rewrite Forall_forall in IH.
    destruct (IH kid (proj2 (list_elem_of_In _ _) Hkid)) as (st & Hst & Hroot).
    { unfold ids. apply list_elem_of_fmap. exists x. split; [reflexivity |].
      now apply list_elem_of_In. }
    exists st. split; [| exact Hroot].
    simpl. apply elem_of_cons. right.
    apply list_elem_of_In, in_flat_map. exists kid. split; [exact Hkid |].
    now apply list_elem_of_In.
Qed.

(** The host's tree order of a represented tree is the order of [pre]. *)
Lemma preorder_rep (h : dom) :
  forall (fuel : nat) (t : tree) (par : option nat),
    rep h par t -> (length (pre t) <= fuel)%nat ->
    preorder fuel h (root_id t) = ids t.
Proof.
  induction fuel as [|fuel IH]; intros [i k kids] par Hr Hlen; [simpl in Hlen; lia |].
  apply rep_Tree in Hr as [Hi Hk]. simpl in Hlen.
  cbn [preorder root_id]. rewrite Hi. cbn [childNodes].
  unfold ids. cbn [pre map fst]. f_equal.
  assert (length (flat_map pre kids) <= fuel)%nat as Hlen' by lia. clear Hlen Hi.
  induction kids as [|kid kids IHk]; [reflexivity |].
  inversion Hk; subst. simpl in Hlen'. rewrite length_app in Hlen'.
  simpl. rewrite map_app. f_equal.
  - apply (IH kid (Some i)); [assumption | lia].
  - apply IHk; [assumption | lia].
Qed.

Lemma wf_dom_preorder (h : dom) (t : tree) :
  wf_dom h t -> preorder (length h) h document = ids t.
Proof.
  intros (Hr & Hroot & _ & Hnd & _). rewrite <- Hroot.
  eapply preorder_rep; [exact Hr |]. now apply (rep_size_le h t None).
Qed.

(** [textContent] of a represented tree is the text of its nodes. *)
Lemma textContent_rep (h : dom) (t : tree) (par : option nat) :
  rep h par t -> (length (pre t) <= length h)%nat ->
  textContent h (root_id t) = text_of (pre t).
Proof.
  intros Hr Hlen. unfold textContent.
  rewrite (preorder_rep h (length h) t par Hr Hlen).
  apply (collected_text_ids h t par (pre t) Hr). auto.
Qed.

(** Case conversion: the lowercase of the uppercase of a name is its
    lowercase, and the other way round. *)
Lemma ascii_lower_upper (c : ascii) : ascii_lower (ascii_upper c) = ascii_lower c.
Proof. destruct c as [[] [] [] [] [] [] [] []]; reflexivity. Qed.

Lemma ascii_upper_lower (c : ascii) : ascii_upper (ascii_lower c) = ascii_upper c.
Proof. destruct c as [[] [] [] [] [] [] [] []]; reflexivity. Qed.

Lemma ascii_lowercase_uppercase (s : string) :
  ascii_lowercase (ascii_uppercase s) = ascii_lowercase s.
Proof.
  induction s as [|c s IH]; [reflexivity |].
  cbn [ascii_uppercase ascii_lowercase]. now rewrite ascii_lower_upper, IH.
Qed.

Lemma ascii_uppercase_lowercase (s : string) :
  ascii_uppercase (ascii_lowercase s) = ascii_uppercase s.
Proof.
  induction s as [|c s IH]; [reflexivity |].
  cbn [ascii_uppercase ascii_lowercase]. now rewrite ascii_upper_lower, IH.
Qed.

(** An element of the document is among the elements that
    [getElementsByTagName] returns for its own [tagName]. *)
Lemma elem_getElementsByTagName (h : dom) (p : nat) (t c b : string)
    (par : option nat) (kids : list nat) :
  p ∈ preorder (length h) h document ->
  h !! p = Some (Node (ElementNode t c b) par kids) ->
  p ∈ getElementsByTagName h (ascii_uppercase t).
Proof.
  intros Hin Hl. unfold getElementsByTagName.
  apply list_elem_of_filter. split; [| exact Hin].
  unfold matchesTag. rewrite Hl, ascii_lowercase_uppercase, String.eqb_refl.
  destruct (String.eqb _ "*"); exact I.
Qed.

(* ================================================================== *)
(** ** Loaded documents are well-formed *)
(* ================================================================== *)

Lemma markup_ind' (P : markup -> Prop) :
  (forall s, P (Txt s)) ->
  (forall t kids, Forall P kids -> P (Elem t kids)) ->
  forall m, P m.
Proof.
  intros Ht He. fix IH 1. intros [s | t kids]; [apply Ht | apply He].
  induction kids as [|kid kids IHk]; constructor; [apply IH | exact IHk].
Qed.

Lemma flat_Elem (par b : nat) (t : string) (kids : list markup) :
  flat par b (Elem t kids)
  = Node (ElementNode t "" "") (Some par) (kid_ids (S b) kids)
    :: flat_forest b (S b) kids.
Proof.
  cbn [flat label]. f_equal.
  all: try (generalize (S b) as b';
       induction kids as [|kid kids IH]; intros b'; [reflexivity |];
       cbn [flat_forest label_forest]; f_equal; apply IH).
Qed.

Lemma label_Elem (b : nat) (t : string) (kids : list markup) :
  label b (Elem t kids) = Tree b (ElementNode t "" "") (label_forest (S b) kids).
Proof.
  cbn [flat label]. f_equal.
  all: try (generalize (S b) as b';
       induction kids as [|kid kids IH]; intros b'; [reflexivity |];
       cbn [flat_forest label_forest]; f_equal; apply IH).
Qed.

Lemma msize_Elem (t : string) (kids : list markup) :
  msize (Elem t kids) = S (fsize kids).
Proof. reflexivity. Qed.

Lemma fsize_cons (m : markup) (ms : list markup) :
  fsize (m :: ms) = (msize m + fsize ms)%nat.
Proof. reflexivity. Qed.

Lemma root_id_label (b : nat) (m : markup) : root_id (label b m) = b.
Proof. destruct m; reflexivity. Qed.

Lemma roots_label_forest (ms : list markup) :
  forall b, roots (label_forest b ms) = kid_ids b ms.
Proof.
  induction ms as [|m ms IH]; intros b; [reflexivity |].
  simpl. now rewrite root_id_label, IH.
Qed.

Lemma flat_length (par : nat) :
  forall (m : markup) (b : nat), length (flat par b m) = msize m.
Proof.
  revert par. intros par0 m. revert par0.
  induction m as [s | t kids IH] using markup_ind'; intros par b; [reflexivity |].
  rewrite flat_Elem, msize_Elem. cbn [length]. f_equal.
  generalize (S b) as b'.
  induction kids as [|kid kids IHk]; intros b'; [reflexivity |].
  inversion IH; subst. cbn [flat_forest]. rewrite length_app, fsize_cons.
  f_equal; [auto | apply IHk; assumption].
Qed.

Lemma rep_label :
  forall (m : markup) (h A C : dom) (par b : nat),
    h = A ++ flat par b m ++ C -> length A = b ->
    rep h (Some par) (label b m).
Proof.
  induction m as [s | t kids IH] using markup_ind'; intros h A C par b Hh HA.
  - simpl. split; [| exact I]. subst h b.
    rewrite lookup_app_r by lia. now rewrite Nat.sub_diag.
  - rewrite label_Elem. apply rep_Tree. rewrite flat_Elem in Hh. split.
    + subst h b. rewrite lookup_app_r by lia. rewrite Nat.sub_diag.
      simpl. now rewrite roots_label_forest.
    + assert (h = (A ++ [Node (ElementNode t "" "") (Some par) (kid_ids (S b) kids)])
                  ++ flat_forest b (S b) kids ++ C) as Hh'
        by (rewrite Hh, <- app_assoc; reflexivity).
      assert (length (A ++ [Node (ElementNode t "" "") (Some par) (kid_ids (S b) kids)])
              = S b) as HA' by (rewrite length_app; simpl; lia).
      clear Hh HA. revert Hh' HA'.
      generalize (A ++ [Node (ElementNode t "" "") (Some par) (kid_ids (S b) kids)]) as A'.
      generalize C as C'. generalize (S b) as b'.
      induction kids as [|kid kids IHk]; intros b' C' A' Hh' HA'; [constructor |].
      inversion IH as [|? ? IHkid IHrest]; subst.
      cbn [label_forest flat_forest] in *. constructor.
      * apply (IHkid _ A' (flat_forest b (length A' + msize kid) kids ++ C')
                 b (length A')); [| reflexivity].
        now rewrite <- app_assoc.
      * apply (IHk IHrest (length A' + msize kid)%nat C' (A' ++ flat b (length A') kid)).
        -- now rewrite <- !app_assoc.
        -- rewrite length_app, flat_length. reflexivity.
Qed.

Lemma rep_label_forest (ms : list markup) :
  forall (h A C : dom) (par b : nat),
    h = A ++ flat_forest par b ms ++ C -> length A = b ->
    Forall (rep h (Some par)) (label_forest b ms).
Proof.
  induction ms as [|m ms IH]; intros h A C par b Hh HA; [constructor |].
  cbn [label_forest flat_forest] in *. constructor.
  - apply (rep_label m h A (flat_forest par (b + msize m) ms ++ C) par b);
      [now rewrite <- app_assoc in Hh | exact HA].
  - apply (IH h (A ++ flat par b m) C par (b + msize m)%nat).
    + now rewrite <- !app_assoc in *.
    + rewrite length_app, flat_length. lia.
Qed.

Lemma ids_label :
  forall (m : markup) (b : nat), ids (label b m) = seq b (msize m).
Proof.
  induction m as [s | t kids IH] using markup_ind'; intros b; [reflexivity |].
  rewrite label_Elem, ids_Tree, msize_Elem. cbn [seq]. f_equal.
  generalize (S b) as b'.
  induction kids as [|kid kids IHk]; intros b'; [reflexivity |].
  inversion IH as [|? ? IHkid IHrest]; subst.
  cbn [label_forest flat_map]. rewrite fsize_cons, seq_app.
  f_equal; [apply IHkid | apply IHk; assumption].
Qed.

Lemma ids_label_forest (ms : list markup) :
  forall b, flat_map ids (label_forest b ms) = seq b (fsize ms).
Proof.
  induction ms as [|m ms IH]; intros b; [reflexivity |].
  cbn [label_forest flat_map]. now rewrite fsize_cons, seq_app, ids_label, IH.
Qed.

Lemma text_leaves_label :
  forall (m : markup) (b : nat), text_leaves (label b m).
Proof.
  induction m as [s | t kids IH] using markup_ind'; intros b.
  - simpl. auto.
  - rewrite label_Elem. apply text_leaves_Tree. split; [exact I |].
    generalize (S b) as b'.
    induction kids as [|kid kids IHk]; intros b'; [constructor |].
    inversion IH; subst. cbn [label_forest]. constructor; auto.
Qed.

Lemma text_leaves_label_forest (ms : list markup) :
  forall b, Forall text_leaves (label_forest b ms).
Proof.
  induction ms as [|m ms IH]; intros b; [constructor |].
  cbn [label_forest]. constructor; [apply text_leaves_label | apply IH].
Qed.

(** The store of a freshly loaded document is well-formed, and its tree is
    the markup with the nodes numbered in document order. *)
Lemma load_wf (body : list markup) : wf_dom (load body) (document_tree body).
Proof.
  unfold wf_dom, load, document_tree.
  split; [| split; [reflexivity | split; [reflexivity | split]]].
  - apply rep_Tree. split.
    + simpl. now rewrite roots_label_forest.
    + apply (rep_label_forest body _ [Node DocumentNode None (kid_ids 1 body)] []
               document 1%nat); [| reflexivity].
      now rewrite app_nil_r.
  - rewrite ids_Tree, ids_label_forest.
    change (document :: seq 1 (fsize body)) with (seq 0 (S (fsize body))).
    apply NoDup_seq.
  - apply text_leaves_Tree. split; [exact I | apply text_leaves_label_forest].
Qed.

(* ================================================================== *)
(** ** [getTextNodeOffset] *)
(* ================================================================== *)

Lemma getTextNodeOffset_loop_walk (h : dom) (textNode : nat) :
  forall (fuel : nat) (ts : list tree) (offset : Z),
    rep_forest h ts ->
    (length (pre_forest ts) < fuel)%nat ->
    getTextNodeOffset_loop fuel h textNode (roots ts) offset
    = Ok (offset_walk textNode (pre_forest ts) offset).
Proof.
  induction fuel as [|fuel IH]; intros ts offset Hrep Hlen; [lia |].
  destruct ts as [|[i k kids] ts]; [reflexivity |].
  apply rep_forest_pop in Hrep as [[par Hi] Hrep].
  rewrite pre_forest_pop in *. simpl in Hlen.
  cbn [getTextNodeOffset_loop roots map root_id]. rewrite Hi.
  cbn [childNodes]. rewrite pushChildren_app, <- roots_app.
  unfold nodeType, textLength, data_of. cbn [kind offset_walk].
  destruct k as [|t c b|s]; cbn.
  - apply IH; [assumption | lia].
  - apply IH; [assumption | lia].
  - destruct (Nat.eqb i textNode); cbn; [reflexivity |].
    apply IH; [assumption | lia].
Qed.

(** No text node of the list is the target: the walk adds up all the text. *)
Lemma offset_walk_absent (textNode : nat) (p : list (nat * nodeKind)) (offset : Z) :
  textNode ∉ text_ids p ->
  offset_walk textNode p offset = offset + text_len p.
Proof.
  revert offset. induction p as [|[i k] p IH]; intros offset Hn.
  - unfold text_len. simpl. lia.
  - destruct k as [|t c b|s]; simpl in *; try (now apply IH).
    destruct (Nat.eqb_spec i textNode) as [-> | Hne].
    + exfalso. apply Hn. now left.
    + rewrite IH; [| intros Hin; apply Hn; now right].
      rewrite text_len_cons_text. lia.
Qed.

(** The target is met after the nodes [p1]: the walk stops with their text. *)
Lemma offset_walk_found (textNode : nat) (s : string)
    (p1 p2 : list (nat * nodeKind)) (offset : Z) :
  textNode ∉ text_ids p1 ->
  offset_walk textNode (p1 ++ (textNode, TextNode s) :: p2) offset
  = offset + text_len p1.
Proof.
  revert offset. induction p1 as [|[i k] p1 IH]; intros offset Hn.
  - simpl. rewrite Nat.eqb_refl. unfold text_len. simpl. lia.
  - destruct k as [|t c b|s']; simpl in *; try (now apply IH).
    destruct (Nat.eqb_spec i textNode) as [-> | Hne].
    + exfalso. apply Hn. now left.
    + rewrite IH; [| intros Hin; apply Hn; now right].
      rewrite text_len_cons_text. lia.
Qed.

(** The function below an ancestor: the walk over the ancestor's nodes. *)
Lemma getTextNodeOffset_walk (h : dom) (par : option nat) (anc : tree) (textNode : nat) :
  rep h par anc -> NoDup (ids anc) ->
  getTextNodeOffset h (root_id anc) textNode
  = Ok (offset_walk textNode (pre anc) 0).
Proof.
  intros Hr Hnd. unfold getTextNodeOffset.
  rewrite <- pre_forest_single.
  apply (getTextNodeOffset_loop_walk h textNode (S (length h)) [anc] 0).
  - constructor; [eauto | constructor].
  - rewrite pre_forest_single. pose proof (rep_size_le _ _ _ Hr Hnd). lia.
Qed.

(** C5 (as amended).  When the ancestor does not contain the target leaf,
    [getTextNodeOffset] does not fail: the traversal runs to its end and
    the function returns the total length of the text below the ancestor. *)
Theorem getTextNodeOffset_outside (h : dom) (par : option nat) (anc : tree) (textNode : nat) :
  rep h par anc -> NoDup (ids anc) -> textNode ∉ ids anc ->
  getTextNodeOffset h (root_id anc) textNode = Ok (text_len (pre anc)).
Proof.
  intros Hr Hnd Hout.
  rewrite (getTextNodeOffset_walk h par anc textNode Hr Hnd).
  rewrite offset_walk_absent; [f_equal; lia |].
  intros Hin. apply Hout. now apply text_ids_subset.
Qed.

Lemma getTextNodeOffset_outside_witness :
  getTextNodeOffset (load scenario) 1 4 = Ok 5.
Proof.
  apply (getTextNodeOffset_outside (load scenario) (Some 0%nat)
           (Tree 1 (ElementNode "p" "" "") [Tree 2 (TextNode "Hello") []]) 4).
  - simpl. repeat split; reflexivity.
  - by_decide.
  - by_decide.
Defined.

(** C5 as stated fails: in [<p>Hello</p><p>World</p>] the first paragraph
    does not contain the leaf "World", and the function returns 5, the
    length of "Hello", where the claim has it fail. *)
Lemma getTextNodeOffset_outside_returns :
  (4%nat ∉ preorder 5 (load scenario) 1)
  /\ getTextNodeOffset (load scenario) 1 4 = Ok 5
  /\ (forall e, getTextNodeOffset (load scenario) 1 4 <> Throw e).
Proof.
  split; [by_decide |]. split; [reflexivity |].
  intros e. vm_compute. discriminate.
Qed.

(* ================================================================== *)
(** ** [restoreContainer] and [restoreSelectedNodes] *)
(* ================================================================== *)

Lemma restoreContainer_loop_walk (h : dom) (textNodeOffset : Z) :
  forall (fuel : nat) (ts : list tree) (currentOffset finalOffset : Z),
    rep_forest h ts ->
    (length (pre_forest ts) < fuel)%nat ->
    restoreContainer_loop fuel h textNodeOffset (roots ts) currentOffset finalOffset
    = Ok (restore_walk textNodeOffset (pre_forest ts) currentOffset finalOffset).
Proof.
  induction fuel as [|fuel IH]; intros ts cur fin Hrep Hlen; [lia |].
  destruct ts as [|[i k kids] ts]; [reflexivity |].
  apply rep_forest_pop in Hrep as [[par Hi] Hrep].
  rewrite pre_forest_pop in *. simpl in Hlen.
  cbn [restoreContainer_loop roots map root_id]. rewrite Hi.
  cbn [childNodes]. rewrite pushChildren_app, <- roots_app.
  unfold nodeType, textLength, data_of. cbn [kind restore_walk].
  destruct k as [|t c b|s]; cbn.
  - apply IH; [assumption | lia].
  - apply IH; [assumption | lia].
  - destruct (cur + Z.of_nat (String.length s) >=? textNodeOffset); [reflexivity |].
    apply IH; [assumption | lia].
Qed.

(** The walk passes the nodes [p1] when they hold no text, or when their
    text ends before the offset; it stops at the next leaf if that leaf
    reaches the offset. *)
Lemma restore_walk_stop (off : Z) (t : nat) (c : string) :
  forall (p1 p2 : list (nat * nodeKind)) (cur fin : Z),
    (text_ids p1 <> [] -> cur + text_len p1 < off) ->
    off <= cur + text_len p1 + Z.of_nat (String.length c) ->
    restore_walk off (p1 ++ (t, TextNode c) :: p2) cur fin
    = (Some t, off - (cur + text_len p1)).
Proof.
  induction p1 as [|[i k] p1 IH]; intros p2 cur fin Hbefore Hreach.
  - unfold text_len in *. simpl in *.
    destruct (cur + Z.of_nat (String.length c) >=? off) eqn:E; [f_equal; lia | lia].
  - destruct k as [|tg cl bg|s]; simpl in *; try (now apply IH).
    rewrite text_len_cons_text in *.
    pose proof (text_len_nonneg p1).
    assert (cur + (Z.of_nat (String.length s) + text_len p1) < off)
      by (apply Hbefore; discriminate).
    destruct (cur + Z.of_nat (String.length s) >=? off) eqn:E; [lia |].
    rewrite IH; [f_equal; lia | intros _; lia | lia].
Qed.

Lemma restoreContainer_located (h : dom) (a : address) (par : option nat) (pt : tree) :
  item (getElementsByTagName h (parentTagName a)) (parentIndex a) = Some (root_id pt) ->
  rep h par pt -> NoDup (ids pt) ->
  restoreContainer h (Some a)
  = Ok (match restore_walk (textNodeOffset a) (pre pt) 0 0 with
        | (Some n, fin) => (Some n, fin)
        | (None, fin) => (Some (root_id pt), fin)
        end).
Proof.
  intros Hitem Hr Hnd. unfold restoreContainer. rewrite Hitem.
  rewrite <- (pre_forest_single pt).
  change [root_id pt] with (roots [pt]).
  rewrite restoreContainer_loop_walk.
  - cbn. destruct (restore_walk _ _ _ _) as [[n|] fin]; reflexivity.
  - constructor; [eauto | constructor].
  - rewrite pre_forest_single. pose proof (rep_size_le _ _ _ Hr Hnd). lia.
Qed.

(** C9 (as amended).  When [textNodeOffset] is the cumulative length of the
    text leaves up to and including a non-empty leaf [T] of the located
    parent element, [restoreContainer] stops at [T] and returns
    [(T, length of T)], the position at the end of [T], not the leaf that
    follows with offset 0. *)
Theorem restoreContainer_end_of_leaf (h : dom) (a : address) (par : option nat)
    (pt : tree) (T : nat) (c : string) (p1 p2 : list (nat * nodeKind)) :
  item (getElementsByTagName h (parentTagName a)) (parentIndex a) = Some (root_id pt) ->
  rep h par pt -> NoDup (ids pt) ->
  pre pt = p1 ++ (T, TextNode c) :: p2 ->
  c <> "" ->
  textNodeOffset a = text_len p1 + Z.of_nat (String.length c) ->
  restoreContainer h (Some a) = Ok (Some T, Z.of_nat (String.length c)).
Proof.
  intros Hitem Hr Hnd Hpre Hc Hoff.
  rewrite (restoreContainer_located h a par pt Hitem Hr Hnd), Hpre.
  assert (0 < Z.of_nat (String.length c)) by (destruct c; [congruence | simpl; lia]).
  rewrite restore_walk_stop; [do 2 f_equal; lia | intros _; lia | lia].
Qed.

Lemma restoreContainer_end_of_leaf_witness :
  restoreContainer
    (load [Elem "p" [Txt "Hello"; Elem "b" [Txt "big"]; Txt "World"]])
    (Some (Address "p" 0 8 5))
  = Ok (Some 4%nat, 3).
Proof.
  apply (restoreContainer_end_of_leaf
           (load [Elem "p" [Txt "Hello"; Elem "b" [Txt "big"]; Txt "World"]])
           (Address "p" 0 8 5) (Some 0%nat)
           (label 1 (Elem "p" [Txt "Hello"; Elem "b" [Txt "big"]; Txt "World"]))
           4 "big"
           [(1%nat, ElementNode "p" "" ""); (2%nat, TextNode "Hello");
            (3%nat, ElementNode "b" "" "")]
           [(5%nat, TextNode "World")]).
  - reflexivity.
  - simpl. repeat split; reflexivity.
  - by_decide.
  - reflexivity.
  - discriminate.
  - reflexivity.
Defined.

(** C9 as stated fails for an empty leaf [T]: below [<p>], with the text
    leaves "Hello", "" and "World", the offset 5 is the cumulative length up
    to and including the empty leaf (node 3), yet the traversal has already
    stopped at "Hello" (node 2) and returns [(node 2, 5)], not
    [(node 3, 0)]. *)
Lemma restoreContainer_empty_leaf_skipped :
  let h := load [Elem "p" [Txt "Hello"; Txt ""; Txt "World"]] in
  let a := Address "p" 0 5 5 in
  item (getElementsByTagName h (parentTagName a)) (parentIndex a) = Some 1%nat
  /\ pre (label 1 (Elem "p" [Txt "Hello"; Txt ""; Txt "World"]))
     = [(1%nat, ElementNode "p" "" ""); (2%nat, TextNode "Hello")]
       ++ (3%nat, TextNode "") :: [(4%nat, TextNode "World")]
  /\ 0 < textNodeOffset a
  /\ textNodeOffset a
     = text_len [(1%nat, ElementNode "p" "" ""); (2%nat, TextNode "Hello")]
       + Z.of_nat (String.length "")
  /\ restoreContainer h (Some a) = Ok (Some 2%nat, 5)
  /\ restoreContainer h (Some a) <> Ok (Some 3%nat, Z.of_nat (String.length "")).
Proof.
  cbv zeta. repeat split; try reflexivity. vm_compute. discriminate.
Qed.

(** C2 (as amended).  For a text leaf [L] that is the first text leaf, in
    document order, below its parent element in the document, decoding the
    address that encoding [L] produces returns [L] together with the offset
    of the start of [L] within its parent's text, which is 0. *)
Theorem restoreContainer_first_leaf (h : dom) (par : option nat) (p : nat)
    (t c b : string) (k1 k2 lk : list tree) (L : nat) (s : string) :
  rep h par (Tree p (ElementNode t c b) (k1 ++ Tree L (TextNode s) lk :: k2)) ->
  NoDup (ids (Tree p (ElementNode t c b) (k1 ++ Tree L (TextNode s) lk :: k2))) ->
  p ∈ preorder (length h) h document ->
  text_ids (pre_forest k1) = [] ->
  exists a,
    getSelectedTextNodePosition h (Some L) = Ok a
    /\ textNodeOffset a = text_len (pre_forest k1)
    /\ textNodeOffset a = 0
    /\ restoreContainer h (Some a) = Ok (Some L, textNodeOffset a).
Proof.
  intros Hr Hnd Hdoc Hfirst.
  set (kids := k1 ++ Tree L (TextNode s) lk :: k2) in *.
  set (pt := Tree p (ElementNode t c b) kids) in *.
  assert (pre pt = ((p, ElementNode t c b) :: pre_forest k1)
                   ++ (L, TextNode s) :: (pre_forest lk ++ pre_forest k2)) as Hpre.
  { change (pre pt) with ((p, ElementNode t c b) :: pre_forest kids).
    unfold kids. rewrite pre_forest_app, pre_forest_cons. reflexivity. }
  pose proof Hr as Hr'. apply rep_Tree in Hr' as [Hp Hkids].
  assert (h !! L = Some (Node (TextNode s) (Some p) (roots lk))) as HL.
  { rewrite Forall_forall in Hkids.
    specialize (Hkids (Tree L (TextNode s) lk)).
    assert (rep h (Some p) (Tree L (TextNode s) lk)) as HrL
      by (apply Hkids, elem_of_app; right; now left).
    now apply rep_Tree in HrL as [? _]. }
  assert (text_len ((p, ElementNode t c b) :: pre_forest k1) = 0) as Hlen0
    by (apply text_len_no_text; exact Hfirst).
  assert (text_len (pre_forest k1) = 0) as Hlen0' by (now apply text_len_no_text).
  assert (getTextNodeOffset h p L = Ok 0) as Hoff.
  { change p with (root_id pt).
    rewrite (getTextNodeOffset_walk h par pt L Hr Hnd), Hpre.
    rewrite offset_walk_found; [now rewrite Hlen0 |].
    simpl. rewrite Hfirst. intros Hin. inversion Hin. }
  exists (Address (ascii_uppercase t)
            (indexOf (getElementsByTagName h (ascii_uppercase t)) p) 0
            (Z.of_nat (String.length s))).
  split; [| split; [| split]].
  - unfold getSelectedTextNodePosition, parentElement.
    rewrite HL. cbn [parentNode]. rewrite Hp. cbv iota beta. rewrite Hp.
    cbn [tagName_of kind]. rewrite Hoff. reflexivity.
  - cbn [textNodeOffset]. now rewrite Hlen0'.
  - reflexivity.
  - assert (p ∈ getElementsByTagName h (ascii_uppercase t)) as Hin
      by (eapply elem_getElementsByTagName; eauto).
    rewrite (restoreContainer_located h _ par pt); cbn [parentTagName parentIndex textNodeOffset].
    + rewrite Hpre, restore_walk_stop.
      * rewrite Hlen0. reflexivity.
      * intros Hne. exfalso. apply Hne. exact Hfirst.
      * rewrite Hlen0. lia.
    + now apply item_indexOf.
    + exact Hr.
    + exact Hnd.
Qed.

Lemma restoreContainer_first_leaf_witness :
  exists a,
    getSelectedTextNodePosition
      (load [Elem "p" [Elem "i" []; Txt "Hello"; Elem "b" [Txt "big"]]]) (Some 3%nat) = Ok a
    /\ textNodeOffset a = 0
    /\ textNodeOffset a = 0
    /\ restoreContainer
         (load [Elem "p" [Elem "i" []; Txt "Hello"; Elem "b" [Txt "big"]]]) (Some a)
       = Ok (Some 3%nat, textNodeOffset a).
Proof.
  apply (restoreContainer_first_leaf
           (load [Elem "p" [Elem "i" []; Txt "Hello"; Elem "b" [Txt "big"]]])
           (Some 0%nat) 1 "p" "" ""
           [Tree 2 (ElementNode "i" "" "") []]
           [Tree 4 (ElementNode "b" "" "") [Tree 5 (TextNode "big") []]]
           [] 3 "Hello").
  - simpl. repeat split; reflexivity.
  - by_decide.
  - by_decide.
  - reflexivity.
Defined.

(** C2 as stated fails for a later leaf: in [<p>Hello<b>big</b>World</p>]
    the leaf "World" (node 5) starts at offset 8 of the paragraph's text; its
    address decodes to the end of "big" (node 4, offset 3), not to
    [(node 5, 8)]. *)
Lemma restoreContainer_later_leaf :
  let h := load [Elem "p" [Txt "Hello"; Elem "b" [Txt "big"]; Txt "World"]] in
  getSelectedTextNodePosition h (Some 5%nat) = Ok (Address "P" 0 8 5)
  /\ getTextNodeOffset h 1 5 = Ok 8
  /\ restoreContainer h (Some (Address "P" 0 8 5)) = Ok (Some 4%nat, 3)
  /\ restoreContainer h (Some (Address "P" 0 8 5)) <> Ok (Some 5%nat, 8).
Proof.
  cbv zeta. repeat split; try reflexivity. vm_compute. discriminate.
Qed.

(** In a well-formed document [restoreContainer] always returns. *)
Lemma restoreContainer_returns (h : dom) (t : tree) (a : address) :
  wf_dom h t -> exists n o, restoreContainer h (Some a) = Ok (n, o).
Proof.
  intros Hwf.
  destruct (item (getElementsByTagName h (parentTagName a)) (parentIndex a))
    as [pe|] eqn:Hitem.
  - assert (pe ∈ ids t) as Hin.
    { unfold item in Hitem. destruct (parentIndex a <? 0); [discriminate |].
      apply list_elem_of_lookup_2 in Hitem. unfold getElementsByTagName in Hitem.
      apply list_elem_of_filter in Hitem as [_ Hitem].
      now rewrite (wf_dom_preorder h t Hwf) in Hitem. }
    destruct Hwf as (Hr & _ & _ & Hnd & _).
    destruct (subtree_of_id t pe Hin) as (st & Hst & <-).
    destruct (subtree_rep h t st None Hr Hst) as (par' & Hr').
    rewrite (restoreContainer_located h a par' st Hitem Hr' (subtree_NoDup t st Hnd Hst)).
    destruct (restore_walk _ _ _ _) as [[n|] fin]; eauto.
  - unfold restoreContainer. rewrite Hitem. eauto.
Qed.

(** C6.  For a stored pair of addresses read back from the store, the
    range that [restoreSelectedNodes] rebuilds starts at the decoded start
    position unchanged and ends at the decoded end offset plus the stored
    end address's [textNodeLength]. *)
Theorem restoreSelectedNodes_offsets (h : dom) (t : tree) (s e : address) :
  wf_dom h t ->
  exists sc so ec eo,
    restoreContainer h (Some s) = Ok (sc, so)
    /\ restoreContainer h (Some e) = Ok (ec, eo)
    /\ restoreSelectedNodes h (Some [s; e])
       = Ok (Range sc so ec (eo + textNodeLength e)).
Proof.
  intros Hwf.
  destruct (restoreContainer_returns h t s Hwf) as (sc & so & Hs).
  destruct (restoreContainer_returns h t e Hwf) as (ec & eo & He).
  exists sc, so, ec, eo. split; [exact Hs |]. split; [exact He |].
  unfold restoreSelectedNodes. cbn [lookup list_lookup].
  rewrite Hs, He. reflexivity.
Qed.

Lemma restoreSelectedNodes_offsets_witness :
  exists sc so ec eo,
    restoreContainer (load scenario) (Some (Address "p" 0 3 2)) = Ok (sc, so)
    /\ restoreContainer (load scenario) (Some (Address "p" 1 0 3)) = Ok (ec, eo)
    /\ restoreSelectedNodes (load scenario) (Some [Address "p" 0 3 2; Address "p" 1 0 3])
       = Ok (Range sc so ec (eo + textNodeLength (Address "p" 1 0 3))).
Proof.
  apply (restoreSelectedNodes_offsets (load scenario) (document_tree scenario)
           (Address "p" 0 3 2) (Address "p" 1 0 3)).
  apply load_wf.
Defined.

(* ================================================================== *)
(** ** [splitText] on the store and on the tree *)
(* ================================================================== *)

Lemma splitText_effect (h : dom) (s p : nat) (c : string) (pn : node) (o : Z) :
  h !! s = Some (Node (TextNode c) (Some p) []) ->
  h !! p = Some pn ->
  s <> p ->
  0 <= o <= Z.of_nat (String.length c) ->
  exists h',
    splitText h s o = Ok (h', length h)
    /\ split_effect h s p c (Z.to_nat o) h'.
Proof.
  intros Hs Hp Hsp Ho. unfold splitText. rewrite Hs, Hp.
  destruct (o <? 0) eqn:E1; [lia |].
  destruct (Z.of_nat (String.length c) <? o) eqn:E2; [lia |].
  cbn [orb]. eexists. split; [reflexivity |].
  pose proof (lookup_lt_Some _ _ _ Hs) as Hls.
  pose proof (lookup_lt_Some _ _ _ Hp) as Hlp.
  repeat split.
  - rewrite length_app, !length_insert. simpl. lia.
  - rewrite lookup_app_l by (rewrite !length_insert; lia).
    apply list_lookup_insert_eq. rewrite length_insert. lia.
  - rewrite lookup_app_r by (rewrite !length_insert; lia).
    rewrite !length_insert, Nat.sub_diag. reflexivity.
  - intros pn' Hpn'. rewrite Hp in Hpn'. inversion Hpn'; subst pn'.
    rewrite lookup_app_l by (rewrite !length_insert; lia).
    rewrite list_lookup_insert_ne by exact Hsp.
    apply list_lookup_insert_eq. lia.
  - intros i His Hip Hil.
    rewrite lookup_app_l by (rewrite !length_insert; lia).
    rewrite !list_lookup_insert_ne by congruence. reflexivity.
Qed.

Lemma tsplit_Tree (s o new i : nat) (k : nodeKind) (kids : list tree) :
  tsplit s o new (Tree i k kids) = Tree i k (flat_map (split_kid s o new) kids).
Proof. reflexivity. Qed.

Lemma root_id_tsplit (s o new : nat) (t : tree) : root_id (tsplit s o new t) = root_id t.
Proof. destruct t. reflexivity. Qed.

Lemma root_kind_tsplit (s o new : nat) (t : tree) :
  root_kind (tsplit s o new t) = root_kind t.
Proof. destruct t. reflexivity. Qed.

Section Split.
Variables (h h' : dom) (s p : nat) (c : string) (o : nat).
Hypothesis Hs : h !! s = Some (Node (TextNode c) (Some p) []).
Hypothesis Heff : split_effect h s p c o h'.

Let new := length h.

(** A child with the reference [s] is the leaf that is split, and its
    parent is [p]. *)
Lemma split_kid_of_s (i : nat) (k : nodeKind) (ks : list tree) :
  rep h (Some i) (Tree s k ks) -> k = TextNode c /\ i = p /\ ks = [].
Proof.
  intros Hr. apply rep_Tree in Hr as [Hl _]. rewrite Hs in Hl.
  injection Hl as Hk Hp Hks.
  split; [congruence |]. split; [congruence |]. apply roots_nil. congruence.
Qed.

Lemma split_kid_other (kid : tree) :
  root_id kid <> s -> split_kid s o new kid = [tsplit s o new kid].
Proof.
  destruct kid as [j k ks]. simpl. intros Hne.
  destruct k; try reflexivity.
  destruct (Nat.eqb_spec j s); [contradiction | reflexivity].
Qed.

Lemma roots_split_kids_absent (kids : list tree) :
  s ∉ roots kids -> roots (flat_map (split_kid s o new) kids) = roots kids.
Proof.
  induction kids as [|kid kids IH]; intros Hn; [reflexivity |].
  cbn [flat_map]. rewrite roots_app, split_kid_other.
  - cbn. rewrite root_id_tsplit. f_equal. apply IH.
    intros Hin. apply Hn. now right.
  - intros Heq. apply Hn. apply elem_of_cons. left. now symmetry.
Qed.

Lemma roots_split_kids (i : nat) (kids : list tree) :
  Forall (rep h (Some i)) kids ->
  NoDup (roots kids) ->
  roots (flat_map (split_kid s o new) kids) = insert_after (roots kids) s new.
Proof.
  induction kids as [|[j k ks] kids IH]; intros Hr Hnd; [reflexivity |].
  inversion Hr as [|? ? Hkid Hrest]; subst.
  simpl in Hnd. apply NoDup_cons in Hnd as [Hj Hnd].
  cbn [flat_map]. rewrite roots_app. cbn [roots map root_id insert_after].
  destruct (Nat.eqb_spec j s) as [-> | Hne].
  - destruct (split_kid_of_s _ _ _ Hkid) as (-> & -> & ->).
    cbn. rewrite Nat.eqb_refl. cbn. do 2 f_equal.
    now apply roots_split_kids_absent.
  - rewrite split_kid_other by exact Hne.
    cbn. f_equal. fold (roots kids). rewrite <- IH by assumption. reflexivity.
Qed.

Lemma insert_after_absent (l : list nat) (x y : nat) :
  x ∉ l -> insert_after l x y = l.
Proof.
  induction l as [|z l IH]; intros Hx; [reflexivity |].
  simpl. destruct (Nat.eqb_spec z x) as [-> | Hne].
  - exfalso. apply Hx. now left.
  - f_equal. apply IH. intros Hin. apply Hx. now right.
Qed.

Lemma tsplit_rep :
  forall (t : tree) (par : option nat),
    rep h par t -> NoDup (ids t) -> root_id t <> s ->
    rep h' par (tsplit s o new t).
Proof.
  destruct Heff as (Hlen & Hs' & Hnew & Hp' & Hother).
  induction t as [i k kids IH] using tree_ind'; intros par Hr Hnd Hroot.
  simpl in Hroot. rewrite tsplit_Tree. apply rep_Tree.
  apply rep_Tree in Hr as [Hi Hk].
  destruct (NoDup_ids_Tree _ _ _ Hnd) as [Hndr Hndk].
  split.
  - rewrite (roots_split_kids i kids Hk Hndr).
    destruct (Nat.eq_dec i p) as [-> | Hip].
    + rewrite (Hp' _ Hi). reflexivity.
    + rewrite Hother; [| assumption | assumption | eapply lookup_lt_Some; exact Hi].
      rewrite Hi. do 2 f_equal. symmetry. apply insert_after_absent.
      intros Hin. unfold roots in Hin.
      apply list_elem_of_fmap in Hin as ([j kj ks] & Hj & Hin). simpl in Hj. subst j.
      rewrite Forall_forall in Hk.
      destruct (split_kid_of_s _ _ _ (Hk _ Hin)) as (_ & ? & _). contradiction.
  - apply Forall_flat_map.
    rewrite Forall_forall in IH, Hk, Hndk. apply Forall_forall.
    intros [j kj ks] Hin.
    specialize (Hk _ Hin). specialize (Hndk _ Hin). specialize (IH _ Hin).
    destruct (Nat.eq_dec j s) as [-> | Hjs].
    + destruct (split_kid_of_s _ _ _ Hk) as (-> & -> & ->).
      cbn. rewrite Nat.eqb_refl.
      repeat constructor; cbn; [exact Hs' | exact Hnew].
    + rewrite split_kid_other by exact Hjs.
      constructor; [| constructor]. apply IH; assumption.
Qed.

End Split.

Lemma psplit_app (s o new : nat) (p q : list (nat * nodeKind)) :
  psplit s o new (p ++ q) = psplit s o new p ++ psplit s o new q.
Proof.
  induction p as [|[j k] p IH]; [reflexivity |].
  destruct k; simpl; rewrite ?IH; try reflexivity.
  destruct (Nat.eqb j s); simpl; now rewrite ?IH.
Qed.

Lemma psplit_absent (s o new : nat) (p : list (nat * nodeKind)) :
  s ∉ map fst p -> psplit s o new p = p.
Proof.
  induction p as [|[j k] p IH]; intros Hn; [reflexivity |].
  assert (psplit s o new p = p) as Hp
    by (apply IH; intros Hin; apply Hn; simpl; now right).
  destruct k; simpl; try (now rewrite Hp).
  destruct (Nat.eqb_spec j s) as [-> | Hne]; [| now rewrite Hp].
  exfalso. apply Hn. simpl. now left.
Qed.

Lemma psplit_at (s o new : nat) (c : string) (p1 p2 : list (nat * nodeKind)) :
  s ∉ map fst p1 -> s ∉ map fst p2 ->
  psplit s o new (p1 ++ (s, TextNode c) :: p2)
  = p1 ++ (s, TextNode (substring 0 o c))
       :: (new, TextNode (substring o (String.length c - o) c)) :: p2.
Proof.
  intros H1 H2. rewrite psplit_app, (psplit_absent _ _ _ p1 H1).
  simpl. rewrite Nat.eqb_refl. now rewrite (psplit_absent _ _ _ p2 H2).
Qed.

(** The nodes of the split tree are the split nodes of the tree. *)
Lemma pre_tsplit (s o new : nat) :
  forall t : tree,
    text_leaves t ->
    pre (tsplit s o new t)
    = match t with
      | Tree i k _ => (i, k) :: psplit s o new (pre_forest (kids_of t))
      end.
Proof.
  induction t as [i k kids IH] using tree_ind'; intros Htl.
  rewrite tsplit_Tree. cbn [pre kids_of]. f_equal.
  apply text_leaves_kids in Htl.
  induction kids as [|[j kj ks] kids IHk]; [reflexivity |].
  inversion IH as [|? ? IHkid IHrest]; subst.
  inversion Htl as [|? ? Hkid Hrest]; subst.
  cbn [flat_map]. rewrite flat_map_app, pre_forest_cons, psplit_app.
  rewrite (IHk IHrest Hrest). f_equal.
  specialize (IHkid Hkid).
  pose proof Hkid as Hkid'. apply text_leaves_Tree in Hkid' as [Hleaf _].
  destruct kj as [|tg cl bg|c].
  - cbn [split_kid flat_map]. rewrite app_nil_r. exact IHkid.
  - cbn [split_kid flat_map]. rewrite app_nil_r. exact IHkid.
  - subst ks. cbn [split_kid pre flat_map psplit app].
    destruct (Nat.eqb j s); reflexivity.
Qed.

Lemma pre_tsplit_root (s o new : nat) (t : tree) :
  text_leaves t ->
  (forall c, root_kind t = TextNode c -> root_id t <> s) ->
  pre (tsplit s o new t) = psplit s o new (pre t).
Proof.
  intros Htl Hroot. rewrite pre_tsplit by exact Htl.
  destruct t as [i k kids]. cbn [kids_of pre psplit].
  fold (pre_forest kids).
  destruct k; try reflexivity.
  destruct (Nat.eqb_spec i s) as [-> | Hne]; [| reflexivity].
  exfalso. now apply (Hroot data).
Qed.

Lemma text_leaves_tsplit (s o new : nat) :
  forall t : tree, text_leaves t -> text_leaves (tsplit s o new t).
Proof.
  induction t as [i k kids IH] using tree_ind'; intros Htl.
  rewrite tsplit_Tree. apply text_leaves_Tree.
  apply text_leaves_Tree in Htl as [Hleaf Hkids]. split.
  - destruct k; try exact I. now subst kids.
  - apply Forall_flat_map. rewrite Forall_forall in IH, Hkids. apply Forall_forall.
    intros [j kj ks] Hin. specialize (IH _ Hin (Hkids _ Hin)).
    specialize (Hkids _ Hin). apply text_leaves_Tree in Hkids as [Hl Hks].
    destruct kj as [|tg cl bg|c]; cbn [split_kid];
      try (constructor; [exact IH | constructor]).
    destruct (Nat.eqb j s); [| constructor; [exact IH | constructor]].
    subst ks. repeat constructor.
Qed.

(** [splitText] on a leaf of a well-formed document: the document stays
    well-formed, with the new leaf right after the old one. *)
Lemma splitText_wf (h : dom) (t : tree) (s : nat) (c : string) (o : Z)
    (p1 p2 : list (nat * nodeKind)) :
  wf_dom h t ->
  pre t = p1 ++ (s, TextNode c) :: p2 ->
  0 <= o <= Z.of_nat (String.length c) ->
  exists h' p,
    splitText h s o = Ok (h', length h)
    /\ split_effect h s p c (Z.to_nat o) h'
    /\ nextSibling h' s = Some (length h)
    /\ p ∈ map fst p1
    /\ wf_dom h' (tsplit s (Z.to_nat o) (length h) t)
    /\ pre (tsplit s (Z.to_nat o) (length h) t)
       = p1 ++ (s, TextNode (substring 0 (Z.to_nat o) c))
            :: (length h, TextNode (substring (Z.to_nat o)
                                      (String.length c - Z.to_nat o) c))
            :: p2.
Proof.
  intros (Hr & Hroot & Hkind & Hnd & Htl) Hpre Ho.
  assert ((s ∉ map fst p1) /\ (s ∉ map fst p2)) as [Hs1 Hs2].
  { unfold ids in Hnd. rewrite Hpre, map_app in Hnd. now apply NoDup_mid in Hnd. }
  destruct (rep_text_leaf h t None s c Hr Htl) as (par' & Hs).
  { rewrite Hpre. apply elem_of_app. right. now left. }
  destruct (rep_parent h t None s (TextNode c) p1 p2 Hr Hpre)
    as [[-> Hsroot] | (p & pn & ks & Hs' & Hp & Hsin & Hpin)].
  { exfalso. destruct (pre_root t) as (rest & Hpr). rewrite Hpr in Hpre.
    simpl in Hpre. inversion Hpre. congruence. }
  rewrite Hs in Hs'. inversion Hs'; subst par' ks. clear Hs'.
  assert (s <> p) as Hsp by (intros ->; contradiction).
  destruct (splitText_effect h s p c pn o Hs Hp Hsp Ho) as (h' & Hsplit & Heff).
  assert (pre (tsplit s (Z.to_nat o) (length h) t)
          = p1 ++ (s, TextNode (substring 0 (Z.to_nat o) c))
               :: (length h, TextNode (substring (Z.to_nat o)
                                         (String.length c - Z.to_nat o) c))
               :: p2) as Hpre'.
  { rewrite pre_tsplit_root; [| exact Htl | intros c'; rewrite Hkind; discriminate].
    rewrite Hpre. now apply psplit_at. }
  exists h', p. split; [exact Hsplit |]. split; [exact Heff |].
  pose proof Heff as (Hlen & Hs' & Hnew & Hp' & Hother).
  split; [| split; [exact Hpin | split; [| exact Hpre']]].
  - unfold nextSibling. rewrite Hs'. cbn [parentNode].
    rewrite (Hp' pn Hp). cbn [childNodes]. now apply next_in_insert_after.
  - repeat split.
    + apply (tsplit_rep h h' s p c (Z.to_nat o) Hs Heff t None Hr Hnd).
      intros Heq. destruct (pre_root t) as (rest & Hpr).
      rewrite Hpr, Heq in Hpre. destruct p1 as [|x p1]; simpl in Hpre.
      * inversion Hpre. congruence.
      * inversion Hpre; subst x. apply Hs1. simpl. now left.
    + now rewrite root_id_tsplit.
    + now rewrite root_kind_tsplit.
    + unfold ids in *. rewrite Hpre', map_app. cbn [map fst].
      rewrite Hpre, map_app in Hnd. cbn [map fst] in Hnd.
      apply NoDup_insert_mid; [exact Hnd |].
      intros Hin.
      assert (length h ∈ ids t) as Hin'
        by (unfold ids; rewrite Hpre, map_app; exact Hin).
      pose proof (rep_ids_lt h t None (length h) Hr Hin'). lia.
    + now apply text_leaves_tsplit.
Qed.

(* ================================================================== *)
(** ** The plain text between two positions *)
(* ================================================================== *)

Lemma nodes_before_at (s : nat) (k : nodeKind) (p1 p2 : list (nat * nodeKind)) :
  s ∉ map fst p1 -> nodes_before s (p1 ++ (s, k) :: p2) = p1.
Proof.
  induction p1 as [|[i ki] p1 IH]; intros Hn; simpl.
  - now rewrite Nat.eqb_refl.
  - destruct (Nat.eqb_spec i s) as [-> | Hne].
    + exfalso. apply Hn. simpl. now left.
    + f_equal. apply IH. intros Hin. apply Hn. simpl. now right.
Qed.

Lemma find_subtree_kind (t : tree) (s : nat) (k : nodeKind) :
  NoDup (ids t) -> (s, k) ∈ pre t ->
  exists ks, find_subtree t s = Some (Tree s k ks).
Proof.
  intros Hnd Hin. unfold find_subtree.
  destruct (find _ (subtrees t)) as [[j kj ks]|] eqn:Hfind.
  - apply find_some in Hfind as [Hst Hroot].
    apply Nat.eqb_eq in Hroot. simpl in Hroot. subst j.
    apply list_elem_of_In in Hst.
    destruct (subtree_pre t _ Hst) as (A & B & HAB).
    assert ((s, kj) ∈ pre t) as Hin'.
    { rewrite HAB. apply elem_of_app. right. apply elem_of_app. left.
      simpl. now left. }
    rewrite (NoDup_fst_unique (pre t) s k kj Hnd Hin Hin'). eauto.
  - exfalso.
    assert (s ∈ ids t) as Hs
      by (unfold ids; apply list_elem_of_fmap; now exists (s, k)).
    destruct (subtree_of_id t s Hs) as (st & Hst & Hroot).
    apply list_elem_of_In in Hst.
    pose proof (find_none _ _ Hfind st Hst) as Hf. simpl in Hf.
    rewrite Hroot, Nat.eqb_refl in Hf. discriminate.
Qed.

(** A position in a text leaf: the text before the leaf, plus the offset. *)
Lemma abs_position_text (t : tree) (s : nat) (c : string) (o : Z)
    (p1 p2 : list (nat * nodeKind)) :
  NoDup (ids t) ->
  pre t = p1 ++ (s, TextNode c) :: p2 ->
  abs_position t s o = text_len p1 + o.
Proof.
  intros Hnd Hpre. unfold abs_position.
  destruct (find_subtree_kind t s (TextNode c) Hnd) as (ks & ->).
  { rewrite Hpre. apply elem_of_app. right. now left. }
  rewrite Hpre, nodes_before_at; [reflexivity |].
  unfold ids in Hnd. rewrite Hpre, map_app in Hnd. now apply NoDup_mid in Hnd.
Qed.

Lemma plain_text_same_leaf (t : tree) (s : nat) (c : string) (so eo : Z)
    (p1 p2 : list (nat * nodeKind)) :
  NoDup (ids t) ->
  pre t = p1 ++ (s, TextNode c) :: p2 ->
  0 <= so -> so <= eo -> eo <= Z.of_nat (String.length c) ->
  plain_text_between t (Range (Some s) so (Some s) eo)
  = substring (Z.to_nat so) (Z.to_nat (eo - so)) c.
Proof.
  intros Hnd Hpre Hso Hle Heo. unfold plain_text_between.
  cbn [startContainer endContainer startOffset endOffset].
  rewrite !(abs_position_text t s c _ p1 p2 Hnd Hpre).
  rewrite Hpre, text_of_app. cbn [text_of].
  pose proof (text_len_nonneg p1) as Hp1. unfold text_len in *.
  replace (Z.to_nat (Z.of_nat (String.length (text_of p1)) + so))
    with (String.length (text_of p1) + Z.to_nat so)%nat by lia.
  replace (Z.of_nat (String.length (text_of p1)) + eo
           - (Z.of_nat (String.length (text_of p1)) + so)) with (eo - so) by lia.
  rewrite substring_app_skip. apply substring_app_inside. lia.
Qed.

(* ================================================================== *)
(** ** [getSelectedNodes] *)
(* ================================================================== *)

(** The loop over nodes that are neither boundary: nothing is split, and
    the text leaves are collected when the range has begun. *)
Lemma getSelectedNodes_loop_run (h : dom) (r : range) :
  forall (p1 : list (nat * nodeKind)) (fuel : nat) (ts : list tree)
         (within : bool) (sel : list (option nat)) (p2 : list (nat * nodeKind)),
    rep_forest h ts ->
    pre_forest ts = p1 ++ p2 ->
    (forall i, i ∈ map fst p1 ->
               startContainer r <> Some i /\ endContainer r <> Some i) ->
    exists ts',
      rep_forest h ts' /\ pre_forest ts' = p2
      /\ getSelectedNodes_loop (length p1 + fuel) h r (roots ts) within sel
         = getSelectedNodes_loop fuel h r (roots ts') within
             (sel ++ (if within then map Some (text_ids p1) else [])).
Proof.
  induction p1 as [|[i k] p1 IH]; intros fuel ts within sel p2 Hrep Hpre Hnot.
  - exists ts. split; [exact Hrep |]. split; [exact Hpre |].
    simpl. destruct within; now rewrite app_nil_r.
  - destruct ts as [|[i' k' kids] ts]; [discriminate |].
    rewrite pre_forest_pop in Hpre. simpl in Hpre.
    inversion Hpre as [[Hi' Hk' Hrest]]. subst i' k'. clear Hpre.
    apply rep_forest_pop in Hrep as [[par Hi] Hrep].
    destruct (Hnot i ltac:(simpl; now left)) as [Hns Hne].
    assert (forall j, j ∈ map fst p1 ->
                      startContainer r <> Some j /\ endContainer r <> Some j) as Hnot'
      by (intros j Hj; apply Hnot; simpl; now right).
    cbn [length Nat.add getSelectedNodes_loop roots map root_id].
    rewrite Hi. cbn [childNodes].
    rewrite pushChildren_app, <- roots_app.
    rewrite (strictEq_Some_false i _ Hns), (strictEq_Some_false i _ Hne).
    unfold nodeType. cbn [kind].
    destruct within, k as [|tg cl bg|c]; cbn [andb Z.eqb Pos.eqb text_ids].
    + destruct (IH fuel (kids ++ ts) true sel p2 Hrep Hrest Hnot') as (ts' & ? & ? & ->).
      exists ts'. auto.
    + destruct (IH fuel (kids ++ ts) true sel p2 Hrep Hrest Hnot') as (ts' & ? & ? & ->).
      exists ts'. auto.
    + destruct (IH fuel (kids ++ ts) true (sel ++ [Some i]) p2 Hrep Hrest Hnot')
        as (ts' & ? & ? & ->).
      exists ts'. split; [assumption |]. split; [assumption |].
      cbn [map]. now rewrite <- app_assoc.
    + destruct (IH fuel (kids ++ ts) false sel p2 Hrep Hrest Hnot') as (ts' & ? & ? & ->).
      exists ts'. auto.
    + destruct (IH fuel (kids ++ ts) false sel p2 Hrep Hrest Hnot') as (ts' & ? & ? & ->).
      exists ts'. auto.
    + destruct (IH fuel (kids ++ ts) false sel p2 Hrep Hrest Hnot') as (ts' & ? & ? & ->).
      exists ts'. auto.
Qed.

(** The two boundaries in one leaf: the leaf is split twice and the middle
    part is the one node returned. *)
Lemma getSelectedNodes_same_leaf (h : dom) (t : tree) (s : nat) (c : string)
    (so eo : Z) (p1 p2 : list (nat * nodeKind)) :
  wf_dom h t ->
  pre t = p1 ++ (s, TextNode c) :: p2 ->
  0 <= so -> so <= eo -> eo <= Z.of_nat (String.length c) ->
  exists h2 t2,
    getSelectedNodes h document (Range (Some s) so (Some s) eo)
    = Ok (h2, [Some (length h)])
    /\ wf_dom h2 t2
    /\ pre t2
       = p1 ++ (s, TextNode (substring 0 (Z.to_nat so) c))
            :: (length h, TextNode (substring (Z.to_nat so) (Z.to_nat (eo - so)) c))
            :: (S (length h), TextNode (substring (Z.to_nat eo)
                                          (String.length c - Z.to_nat eo) c))
            :: p2.
Proof.
  intros Hwf Hpre Hso Hle Heo.
  pose proof Hwf as (Hr & Hroot & Hkind & Hnd & Htl).
  destruct (rep_text_leaf h t None s c Hr Htl) as (par & Hs).
  { rewrite Hpre. apply elem_of_app. right. now left. }
  destruct (splitText_wf h t s c so p1 p2 Hwf Hpre ltac:(lia))
    as (h1 & p & Hsplit1 & Heff1 & Hnext1 & Hp1 & Hwf1 & Hpre1).
  set (t1 := tsplit s (Z.to_nat so) (length h) t) in *.
  pose proof Heff1 as (Hlen1 & _ & _ & _ & _).
  set (c' := substring (Z.to_nat so) (String.length c - Z.to_nat so) c) in *.
  assert (String.length c' = (String.length c - Z.to_nat so)%nat) as Hlenc'
    by (apply substring_length; lia).
  assert (pre t1 = (p1 ++ [(s, TextNode (substring 0 (Z.to_nat so) c))])
                   ++ (length h, TextNode c') :: p2) as Hpre1'.
  { rewrite Hpre1, <- app_assoc. reflexivity. }
  destruct (splitText_wf h1 t1 (length h) c' (eo - so) _ p2 Hwf1 Hpre1' ltac:(lia))
    as (h2 & pe & Hsplit2 & _ & _ & _ & Hwf2 & Hpre2).
  exists h2, (tsplit (length h) (Z.to_nat (eo - so)) (length h1) t1).
  split; [| split; [exact Hwf2 |]].
  - unfold getSelectedNodes, instanceofText, getNodesIfSameStartEnd.
    cbn [startContainer endContainer startOffset endOffset strictEq].
    rewrite Nat.eqb_refl, Hs. cbn [isText nodeType kind Z.eqb Pos.eqb andb].
    rewrite Hsplit1. cbn [mbind outcome_bind]. rewrite Hnext1, Hsplit2.
    reflexivity.
  - rewrite Hpre2, Hlen1, <- app_assoc. cbn [app]. do 3 f_equal.
    + unfold c'. rewrite substring_suffix by lia. now rewrite Nat.add_0_r.
    + unfold c' at 2. rewrite substring_suffix by lia. rewrite Hlenc'.
      replace (Z.to_nat so + Z.to_nat (eo - so))%nat with (Z.to_nat eo) by lia.
      replace (String.length c - Z.to_nat so - Z.to_nat (eo - so))%nat
        with (String.length c - Z.to_nat eo)%nat by lia.
      reflexivity.
Qed.


Lemma substring_split (c : string) :
  forall o : nat,
    (o <= String.length c)%nat ->
    (substring 0 o c ++ substring o (String.length c - o) c)%string = c.
Proof.
  induction c as [|a c IH]; intros o Ho.
  - simpl in Ho. assert (o = 0%nat) by lia. subst. reflexivity.
  - destruct o as [|o].
    + cbn [substring append]. rewrite Nat.sub_0_r.
      change (substring 0 (String.length (String a c)) (String a c) = String a c).
      apply substring_full.
    + simpl in Ho.
      change (String a (substring 0 o c ++ substring o (String.length c - o) c)%string
              = String a c).
      f_equal. apply IH. lia.
Qed.

Lemma substring_none (s : string) : forall n : nat, substring n 0 s = "".
Proof. induction s as [|c s IH]; intros [|n]; simpl; auto. Qed.

Lemma substring_middle (x m y : string) :
  substring (String.length x) (String.length m) (x ++ m ++ y) = m.
Proof.
  rewrite <- (Nat.add_0_r (String.length x)), substring_app_skip.
  rewrite substring_app_inside by lia. apply substring_full.
Qed.

Lemma text_of_cons (x : nat * nodeKind) (p : list (nat * nodeKind)) :
  text_of (x :: p) = (text_of [x] ++ text_of p)%string.
Proof. change (x :: p) with ([x] ++ p). apply text_of_app. Qed.

(** Cutting a boundary container keeps its text, and adds the new leaf to
    the text leaves when the container is one. *)
Lemma text_of_cut_leaf (n : nat) (k : nodeKind) (o : Z) (new : nat) :
  (forall c, k = TextNode c -> 0 <= o <= Z.of_nat (String.length c)) ->
  text_of (cut_leaf n k o new) = text_of [(n, k)].
Proof.
  destruct k as [|tg cl bg|c]; try reflexivity.
  intros Ho. specialize (Ho c eq_refl).
  cbn [cut_leaf text_of]. rewrite !string_app_nil_r.
  apply substring_split. lia.
Qed.

Lemma text_ids_cut_leaf (n : nat) (k : nodeKind) (o : Z) (new : nat) :
  text_ids (cut_leaf n k o new) = boundary_leaf k n ++ boundary_leaf k new.
Proof. destruct k; reflexivity. Qed.

Lemma head_tail_text (k : nodeKind) (n : nat) (o : Z) :
  (forall c, k = TextNode c -> 0 <= o <= Z.of_nat (String.length c)) ->
  text_of [(n, k)] = (head_text k o ++ tail_text k o)%string.
Proof.
  destruct k as [|tg cl bg|c]; try reflexivity.
  intros Ho. specialize (Ho c eq_refl).
  cbn [text_of head_text tail_text]. rewrite string_app_nil_r.
  symmetry. apply substring_split. lia.
Qed.

(** The step of the loop at the start container. *)
Lemma getSelectedNodes_loop_start (h : dom) (t : tree) (r : range) (s : nat)
    (ks : nodeKind) (kids ts0 : list tree) (p1 rest : list (nat * nodeKind))
    (fuel : nat) (within : bool) (sel : list (option nat)) :
  wf_dom h t ->
  pre t = p1 ++ (s, ks) :: rest ->
  rep_forest h (Tree s ks kids :: ts0) ->
  pre_forest (kids ++ ts0) = rest ->
  startContainer r = Some s ->
  (forall c, ks = TextNode c -> 0 <= startOffset r <= Z.of_nat (String.length c)) ->
  exists (h1 : dom) (t1 : tree),
    getSelectedNodes_loop (S fuel) h r (roots (Tree s ks kids :: ts0)) within sel
    = getSelectedNodes_loop fuel h1 r (roots (kids ++ ts0)) true
        (sel ++ map Some (boundary_leaf ks (length h)))
    /\ wf_dom h1 t1
    /\ pre t1 = p1 ++ cut_leaf s ks (startOffset r) (length h) ++ rest
    /\ length h1 = (length h + length (boundary_leaf ks s))%nat
    /\ rep_forest h1 (kids ++ ts0).
Proof.
  intros Hwf Hpre Hrep Hrest Hsc Hso.
  pose proof Hwf as (Hr & Hroot & Hkind & Hnd & Htl).
  apply rep_forest_pop in Hrep as [[par Hs] Hrep0].
  cbn [getSelectedNodes_loop roots map root_id]. rewrite Hs.
  cbn [childNodes]. rewrite pushChildren_app. fold (roots kids) (roots ts0).
  rewrite <- roots_app, Hsc. cbn [strictEq]. rewrite Nat.eqb_refl.
  unfold nodeType. cbn [kind].
  destruct ks as [|tg cl bg|c]; cbn [Z.eqb Pos.eqb boundary_leaf map cut_leaf length].
  - exists h, t. rewrite app_nil_r, Nat.add_0_r. repeat split; assumption.
  - exists h, t. rewrite app_nil_r, Nat.add_0_r. repeat split; assumption.
  - specialize (Hso c eq_refl).
    destruct (splitText_wf h t s c (startOffset r) p1 rest Hwf Hpre Hso)
      as (h1 & p & Hsplit1 & Heff1 & Hnext1 & Hp1 & Hwf1 & Hpre1).
    pose proof Heff1 as (Hlen1 & _ & _ & _ & Hother1).
    rewrite Hsplit1. cbn [mbind outcome_bind]. rewrite Hnext1.
    exists h1, (tsplit s (Z.to_nat (startOffset r)) (length h) t).
    split; [reflexivity |]. split; [exact Hwf1 |]. split; [exact Hpre1 |].
    split; [lia |].
    apply (rep_forest_frame h h1 _ Hrep0). intros i Hi. rewrite Hrest in Hi.
    pose proof Hnd as Hnd'. unfold ids in Hnd'.
    rewrite Hpre, map_app in Hnd'. cbn [map fst] in Hnd'.
    pose proof Hnd' as (_ & Hdisj & (Hsrest & _)%NoDup_cons)%NoDup_app.
    apply Hother1.
    + intros ->. contradiction.
    + intros ->. apply (Hdisj p Hp1). now right.
    + apply (rep_ids_lt h t None i Hr). unfold ids.
      rewrite Hpre, map_app. apply elem_of_app. right. cbn [map fst]. now right.
Qed.

(** The step of the loop at the end container, when it is not also the
    start container. *)
Lemma getSelectedNodes_loop_end (h : dom) (t : tree) (r : range) (e : nat)
    (ke : nodeKind) (kids ts0 : list tree) (p1 rest : list (nat * nodeKind))
    (fuel : nat) (within : bool) (sel : list (option nat)) :
  wf_dom h t ->
  pre t = p1 ++ (e, ke) :: rest ->
  rep_forest h (Tree e ke kids :: ts0) ->
  startContainer r <> Some e ->
  endContainer r = Some e ->
  (forall c, ke = TextNode c -> 0 <= endOffset r <= Z.of_nat (String.length c)) ->
  exists (h' : dom) (t' : tree),
    getSelectedNodes_loop (S fuel) h r (roots (Tree e ke kids :: ts0)) within sel
    = Ok (h', sel ++ map Some (boundary_leaf ke e))
    /\ wf_dom h' t'
    /\ pre t' = p1 ++ cut_leaf e ke (endOffset r) (length h) ++ rest
    /\ ((forall c, ke <> TextNode c) -> h' = h).
Proof.
  intros Hwf Hpre Hrep Hsc Hec Heo.
  apply rep_forest_pop in Hrep as [[par He] _].
  cbn [getSelectedNodes_loop roots map root_id]. rewrite He.
  rewrite (strictEq_Some_false e _ Hsc), Hec. cbn [strictEq]. rewrite Nat.eqb_refl.
  unfold nodeType. cbn [kind].
  destruct ke as [|tg cl bg|c]; cbn [Z.eqb Pos.eqb boundary_leaf map cut_leaf].
  - exists h, t. rewrite app_nil_r. auto.
  - exists h, t. rewrite app_nil_r. auto.
  - specialize (Heo c eq_refl).
    destruct (splitText_wf h t e c (endOffset r) p1 rest Hwf Hpre Heo)
      as (h' & p & Hsplit & _ & _ & _ & Hwf' & Hpre').
    rewrite Hsplit. cbn [mbind outcome_bind].
    exists h', (tsplit e (Z.to_nat (endOffset r)) (length h) t).
    split; [reflexivity |]. split; [exact Hwf' |]. split; [exact Hpre' |].
    intros Hno. exfalso. now apply (Hno c).
Qed.

(** The traversal when the start container comes before the end container
    in document order: what it returns and the document it leaves. *)
Lemma getSelectedNodes_between_run (h : dom) (t : tree) (s e : nat) (ks ke : nodeKind)
    (so eo : Z) (p1 p2 p3 : list (nat * nodeKind)) :
  wf_dom h t ->
  pre t = p1 ++ (s, ks) :: p2 ++ (e, ke) :: p3 ->
  (forall c, ks = TextNode c -> 0 <= so <= Z.of_nat (String.length c)) ->
  (forall c, ke = TextNode c -> 0 <= eo <= Z.of_nat (String.length c)) ->
  exists (h' : dom) (t' : tree),
    getSelectedNodes h document (Range (Some s) so (Some e) eo)
    = Ok (h', map Some (boundary_leaf ks (length h) ++ text_ids p2 ++ boundary_leaf ke e))
    /\ wf_dom h' t'
    /\ pre t'
       = p1 ++ cut_leaf s ks so (length h) ++ p2
            ++ cut_leaf e ke eo (length h + length (boundary_leaf ks s)) ++ p3.
Proof.
  intros Hwf Hpre Hso Heo.
  pose proof Hwf as (Hr & Hroot & Hkind & Hnd & Htl).
  pose proof Hnd as Hnd'. unfold ids in Hnd'.
  rewrite Hpre, map_app in Hnd'. cbn [map fst] in Hnd'.
  rewrite map_app in Hnd'. cbn [map fst] in Hnd'.
  pose proof Hnd' as (Hnd1 & Hdisj1 & Hnd23)%NoDup_app.
  pose proof Hnd23 as (Hs23 & Hnd23')%NoDup_cons.
  pose proof Hnd23' as (Hnd2 & Hdisj2 & (He3 & Hnd3)%NoDup_cons)%NoDup_app.
  assert (s <> e) as Hse.
  { intros ->. apply Hs23. apply elem_of_app. right. now left. }
  assert (s ∉ map fst p1) as Hs1.
  { intros Hin. apply (Hdisj1 s Hin). now left. }
  assert (s ∉ map fst p2) as Hs2.
  { intros Hin. apply Hs23. apply elem_of_app. now left. }
  assert (e ∉ map fst p1) as He1.
  { intros Hin. apply (Hdisj1 e Hin). right. apply elem_of_app. right. now left. }
  assert (e ∉ map fst p2) as He2.
  { intros Hin. apply (Hdisj2 e Hin). now left. }
  pose proof (rep_size_le h t None Hr Hnd) as Hsize.
  rewrite Hpre, length_app in Hsize. cbn [length] in Hsize.
  rewrite length_app in Hsize. cbn [length] in Hsize.
  unfold getSelectedNodes. cbn [startContainer endContainer strictEq].
  apply Nat.eqb_neq in Hse as Hse'. rewrite Hse'. cbn [andb].
  rewrite <- Hroot. change [root_id t] with (roots [t]).
  set (k := (length h - length p1 - length p2 - 1)%nat).
  replace (S (length h)) with (length p1 + S (length p2 + S k))%nat by lia.
  set (r := Range (Some s) so (Some e) eo).
  destruct (getSelectedNodes_loop_run h r p1 (S (length p2 + S k)) [t] false []
              ((s, ks) :: p2 ++ (e, ke) :: p3))
    as (ts1 & Hrep1 & Hts1 & ->).
  { constructor; [eauto | constructor]. }
  { now rewrite pre_forest_single. }
  { intros i Hi. cbn. split; congruence. }
  apply pre_forest_head in Hts1 as (kids & ts0 & -> & Hts0). cbn [fst snd] in *.
  destruct (getSelectedNodes_loop_start h t r s ks kids ts0 p1 _
              (length p2 + S k) false ([] ++ []) Hwf Hpre Hrep1 Hts0 eq_refl Hso)
    as (h1 & t1 & -> & Hwf1 & Hpre1 & Hlen1 & Hrep0).
  destruct (getSelectedNodes_loop_run h1 r p2 (S k) (kids ++ ts0) true
              (([] ++ []) ++ map Some (boundary_leaf ks (length h)))
              ((e, ke) :: p3))
    as (ts2 & Hrep2 & Hts2 & ->).
  { exact Hrep0. }
  { exact Hts0. }
  { intros i Hi. cbn. split; congruence. }
  apply pre_forest_head in Hts2 as (kids' & ts0' & -> & _). cbn [fst snd] in *.
  assert (pre t1 = (p1 ++ cut_leaf s ks so (length h) ++ p2) ++ (e, ke) :: p3) as Hpre1'.
  { rewrite Hpre1, <- !app_assoc. reflexivity. }
  destruct (getSelectedNodes_loop_end h1 t1 r e ke kids' ts0' _ p3 k true
              ((([] ++ []) ++ map Some (boundary_leaf ks (length h)))
               ++ map Some (text_ids p2))
              Hwf1 Hpre1' Hrep2)
    as (h' & t' & -> & Hwf' & Hpre' & _).
  { cbn. congruence. }
  { reflexivity. }
  { exact Heo. }
  exists h', t'. split; [| split; [exact Hwf' |]].
  - f_equal. f_equal. cbn [app]. now rewrite !map_app, app_assoc.
  - rewrite Hpre', Hlen1, <- !app_assoc. reflexivity.
Qed.

(** The traversal when the end container is never met after the start
    container: it runs to the end of the document. *)
Lemma getSelectedNodes_open_end_run (h : dom) (t : tree) (s : nat) (ks : nodeKind)
    (so eo : Z) (ec : option nat) (p1 p2 : list (nat * nodeKind)) :
  wf_dom h t ->
  pre t = p1 ++ (s, ks) :: p2 ->
  (forall c, ks = TextNode c ->
             0 <= so <= Z.of_nat (String.length c) /\ ec <> Some s) ->
  (forall i, i ∈ map fst p1 ++ map fst p2 -> ec <> Some i) ->
  exists (h' : dom) (t' : tree),
    getSelectedNodes h document (Range (Some s) so ec eo)
    = Ok (h', map Some (boundary_leaf ks (length h) ++ text_ids p2))
    /\ wf_dom h' t'
    /\ pre t' = p1 ++ cut_leaf s ks so (length h) ++ p2.
Proof.
  intros Hwf Hpre Hso Hec.
  pose proof Hwf as (Hr & Hroot & Hkind & Hnd & Htl).
  pose proof Hnd as Hnd'. unfold ids in Hnd'.
  rewrite Hpre, map_app in Hnd'. cbn [map fst] in Hnd'.
  apply NoDup_mid in Hnd' as [Hs1 Hs2].
  pose proof (rep_size_le h t None Hr Hnd) as Hsize.
  rewrite Hpre, length_app in Hsize. cbn [length] in Hsize.
  destruct (rep_lookup h t None s ks Hr) as (par & kidsn & Hs).
  { rewrite Hpre. apply elem_of_app. right. now left. }
  assert (strictEq (Some s) ec && instanceofText h (Some s) = false) as Hspecial.
  { destruct ks as [|tg cl bg|c].
    - unfold instanceofText. rewrite Hs. cbn. now rewrite andb_false_r.
    - unfold instanceofText. rewrite Hs. cbn. now rewrite andb_false_r.
    - destruct (Hso c eq_refl) as [_ Hne].
      rewrite (strictEq_Some_false s ec Hne). reflexivity. }
  unfold getSelectedNodes. cbn [startContainer endContainer].
  rewrite Hspecial.
  rewrite <- Hroot. change [root_id t] with (roots [t]).
  set (k := (length h - length p1 - length p2)%nat).
  replace (S (length h)) with (length p1 + S (length p2 + k))%nat by lia.
  set (r := Range (Some s) so ec eo).
  destruct (getSelectedNodes_loop_run h r p1 (S (length p2 + k)) [t] false []
              ((s, ks) :: p2))
    as (ts1 & Hrep1 & Hts1 & ->).
  { constructor; [eauto | constructor]. }
  { now rewrite pre_forest_single. }
  { intros i Hi. cbn. split; [congruence |].
    apply Hec. apply elem_of_app. now left. }
  apply pre_forest_head in Hts1 as (kids & ts0 & -> & Hts0). cbn [fst snd] in *.
  destruct (getSelectedNodes_loop_start h t r s ks kids ts0 p1 p2
              (length p2 + k) false ([] ++ []) Hwf Hpre Hrep1 Hts0 eq_refl)
    as (h1 & t1 & -> & Hwf1 & Hpre1 & _ & Hrep0).
  { intros c Hc. apply (Hso c Hc). }
  replace (length p2 + k)%nat with (length p2 + S (k - 1))%nat by lia.
  destruct (getSelectedNodes_loop_run h1 r p2 (S (k - 1)) (kids ++ ts0) true
              (([] ++ []) ++ map Some (boundary_leaf ks (length h))) [])
    as (ts2 & _ & Hts2 & ->).
  { exact Hrep0. }
  { now rewrite app_nil_r. }
  { intros i Hi. cbn. split; [congruence |].
    apply Hec. apply elem_of_app. now right. }
  apply pre_forest_nil in Hts2. subst ts2.
  exists h1, t1. split; [| split; [exact Hwf1 | exact Hpre1]].
  cbn [getSelectedNodes_loop roots map app]. now rewrite map_app.
Qed.

(** The traversal when the end container is met before the start
    container: it stops there. *)
Lemma getSelectedNodes_end_first_run (h : dom) (t : tree) (e : nat) (ke : nodeKind)
    (so eo : Z) (sc : option nat) (p1 p2 : list (nat * nodeKind)) :
  wf_dom h t ->
  pre t = p1 ++ (e, ke) :: p2 ->
  (forall c, ke = TextNode c -> 0 <= eo <= Z.of_nat (String.length c)) ->
  sc <> Some e ->
  (forall i, i ∈ map fst p1 -> sc <> Some i) ->
  exists (h' : dom) (t' : tree),
    getSelectedNodes h document (Range sc so (Some e) eo)
    = Ok (h', map Some (boundary_leaf ke e))
    /\ wf_dom h' t'
    /\ pre t' = p1 ++ cut_leaf e ke eo (length h) ++ p2
    /\ ((forall c, ke <> TextNode c) -> h' = h).
Proof.
  intros Hwf Hpre Heo Hsc Hsc1.
  pose proof Hwf as (Hr & Hroot & Hkind & Hnd & Htl).
  pose proof Hnd as Hnd'. unfold ids in Hnd'.
  rewrite Hpre, map_app in Hnd'. cbn [map fst] in Hnd'.
  apply NoDup_mid in Hnd' as [He1 He2].
  pose proof (rep_size_le h t None Hr Hnd) as Hsize.
  rewrite Hpre, length_app in Hsize. cbn [length] in Hsize.
  unfold getSelectedNodes. cbn [startContainer endContainer].
  assert (strictEq sc (Some e) = false) as ->.
  { destruct sc as [x|]; [| reflexivity]. cbn. apply Nat.eqb_neq. congruence. }
  cbn [andb]. rewrite <- Hroot. change [root_id t] with (roots [t]).
  set (k := (length h - length p1)%nat).
  replace (S (length h)) with (length p1 + S k)%nat by lia.
  set (r := Range sc so (Some e) eo).
  destruct (getSelectedNodes_loop_run h r p1 (S k) [t] false [] ((e, ke) :: p2))
    as (ts1 & Hrep1 & Hts1 & ->).
  { constructor; [eauto | constructor]. }
  { now rewrite pre_forest_single. }
  { intros i Hi. cbn. split; [now apply Hsc1 | congruence]. }
  apply pre_forest_head in Hts1 as (kids & ts0 & -> & _). cbn [fst snd] in *.
  destruct (getSelectedNodes_loop_end h t r e ke kids ts0 p1 p2 k false
              ([] ++ []) Hwf Hpre Hrep1 Hsc eq_refl Heo)
    as (h' & t' & -> & Hwf' & Hpre' & Hsame).
  exists h', t'. auto.
Qed.

(** A position of the document's text, from the nodes before the
    container. *)
Lemma abs_position_at (t : tree) (n : nat) (k : nodeKind) (o : Z)
    (p1 p2 : list (nat * nodeKind)) :
  NoDup (ids t) ->
  pre t = p1 ++ (n, k) :: p2 ->
  abs_position t n o
  = text_len p1 + match k with TextNode _ => o | _ => text_skipped t n o end.
Proof.
  intros Hnd Hpre. unfold abs_position, text_skipped.
  destruct (find_subtree_kind t n k Hnd) as (ks & ->).
  { rewrite Hpre. apply elem_of_app. right. now left. }
  rewrite Hpre, nodes_before_at.
  - destruct k; reflexivity.
  - unfold ids in Hnd. rewrite Hpre, map_app in Hnd. now apply NoDup_mid in Hnd.
Qed.

(** At an exact boundary, the text before the position is the text before
    the container and the head of the container's data. *)
Lemma abs_position_exact (t : tree) (n : nat) (k : nodeKind) (o : Z)
    (p1 p2 : list (nat * nodeKind)) :
  NoDup (ids t) ->
  pre t = p1 ++ (n, k) :: p2 ->
  exact_boundary t n k o ->
  abs_position t n o = text_len p1 + Z.of_nat (String.length (head_text k o)).
Proof.
  intros Hnd Hpre Hex. rewrite (abs_position_at t n k o p1 p2 Hnd Hpre).
  f_equal. destruct k as [|tg cl bg|c]; cbn [exact_boundary head_text] in *;
    try (rewrite Hex; reflexivity).
  rewrite substring_length by lia. lia.
Qed.

Lemma exact_boundary_text (t : tree) (n : nat) (k : nodeKind) (o : Z) :
  exact_boundary t n k o ->
  forall c, k = TextNode c -> 0 <= o <= Z.of_nat (String.length c).
Proof. intros Hex c ->. exact Hex. Qed.

(** The plain text between two exact boundaries, the start container before
    the end container: the tail of the start container's data, the text of
    the nodes between, and the head of the end container's data. *)
Lemma plain_text_ordered (t : tree) (s e : nat) (ks ke : nodeKind) (so eo : Z)
    (p1 p2 p3 : list (nat * nodeKind)) :
  NoDup (ids t) ->
  pre t = p1 ++ (s, ks) :: p2 ++ (e, ke) :: p3 ->
  exact_boundary t s ks so ->
  exact_boundary t e ke eo ->
  plain_text_between t (Range (Some s) so (Some e) eo)
  = (tail_text ks so ++ text_of p2 ++ head_text ke eo)%string.
Proof.
  intros Hnd Hpre Hs He. unfold plain_text_between.
  cbn [startContainer endContainer startOffset endOffset].
  rewrite (abs_position_exact t s ks so p1 _ Hnd Hpre Hs).
  assert (pre t = (p1 ++ (s, ks) :: p2) ++ (e, ke) :: p3) as Hpre'
    by (rewrite Hpre, <- app_assoc; reflexivity).
  rewrite (abs_position_exact t e ke eo _ p3 Hnd Hpre' He).
  rewrite text_len_app. unfold text_len.
  rewrite (text_of_cons (s, ks) p2), string_length_app.
  assert (text_of (pre t)
          = ((text_of p1 ++ head_text ks so)
             ++ (tail_text ks so ++ text_of p2 ++ head_text ke eo)
             ++ (tail_text ke eo ++ text_of p3))%string) as ->.
  { rewrite Hpre, text_of_app, (text_of_cons (s, ks)), text_of_app,
      (text_of_cons (e, ke)).
    rewrite (head_tail_text ks s so (exact_boundary_text t s ks so Hs)).
    rewrite (head_tail_text ke e eo (exact_boundary_text t e ke eo He)).
    now rewrite !string_app_assoc. }
  rewrite (head_tail_text ks s so (exact_boundary_text t s ks so Hs)).
  rewrite string_length_app.
  set (x := (text_of p1 ++ head_text ks so)%string).
  set (m := (tail_text ks so ++ text_of p2 ++ head_text ke eo)%string).
  assert (Z.to_nat (Z.of_nat (String.length (text_of p1))
                    + Z.of_nat (String.length (head_text ks so)))
          = String.length x) as ->.
  { unfold x. rewrite string_length_app. lia. }
  assert (Z.to_nat (Z.of_nat (String.length (text_of p1))
                    + Z.of_nat (String.length (head_text ks so)
                                + String.length (tail_text ks so)
                                + String.length (text_of p2))
                    + Z.of_nat (String.length (head_text ke eo))
                    - (Z.of_nat (String.length (text_of p1))
                       + Z.of_nat (String.length (head_text ks so))))
          = String.length m) as ->.
  { unfold x, m. rewrite !string_length_app. lia. }
  apply substring_middle.
Qed.

(** The part of a cut boundary container that follows the cut, and the
    part that precedes it, as nodes. *)
Lemma cut_leaf_parts (n : nat) (k : nodeKind) (o : Z) (new : nat) :
  exists hd tl : list (nat * nodeKind),
    cut_leaf n k o new = hd ++ tl
    /\ text_ids hd = boundary_leaf k n /\ text_ids tl = boundary_leaf k new
    /\ text_of hd = head_text k o /\ text_of tl = tail_text k o.
Proof.
  destruct k as [|tg cl bg|c].
  - exists [(n, DocumentNode)], []. repeat split.
  - exists [(n, ElementNode tg cl bg)], []. repeat split.
  - exists [(n, TextNode (substring 0 (Z.to_nat o) c))],
      [(new, TextNode (substring (Z.to_nat o) (String.length c - Z.to_nat o) c))].
    repeat split; cbn [text_of head_text tail_text]; apply string_app_nil_r.
Qed.

Lemma boundary_leaf_not_text (k : nodeKind) (n : nat) :
  (forall c, k <> TextNode c) -> boundary_leaf k n = [].
Proof. destruct k as [| |c]; try reflexivity. intros H. now destruct (H c). Qed.

Lemma cut_leaf_not_text (n : nat) (k : nodeKind) (o : Z) (new : nat) :
  (forall c, k <> TextNode c) -> cut_leaf n k o new = [(n, k)].
Proof. destruct k as [| |c]; try reflexivity. intros H. now destruct (H c). Qed.

Lemma text_of_not_text (n : nat) (k : nodeKind) :
  (forall c, k <> TextNode c) -> text_of [(n, k)] = "".
Proof. destruct k as [| |c]; try reflexivity. intros H. now destruct (H c). Qed.

(** C1 (as amended).  For every well-formed document and every range, start
    not after end, that lies in one text leaf, or whose start container
    comes before its end container in document order with both boundaries
    exact (in a text leaf, or in another node at an offset with no text in
    the children before it), or that lies in one node that is no text leaf,
    starts exact and has all the following text of the document before its
    end, or whose end container comes first and that holds no text,
    [getSelectedNodes] returns text leaves of the resulting document, a run
    of consecutive text leaves in document order, whose contents
    concatenated in order are the plain text between the two positions. *)
Theorem getSelectedNodes_text_range (h : dom) (t : tree) (r : range) :
  wf_dom h t ->
  exact_range t r ->
  exists (h' : dom) (t' : tree) (sel before after : list nat),
    getSelectedNodes h document r = Ok (h', map Some sel)
    /\ wf_dom h' t'
    /\ text_ids (pre t') = before ++ sel ++ after
    /\ collected_text h' sel = plain_text_between t r.
Proof.
  intros Hwf Hrange. pose proof Hwf as (_ & _ & _ & Hnd & _).
  destruct Hrange as [s c so eo p1 p2 Hpre Hso Hle Heo
                     | s e ks ke so eo p1 p2 p3 Hpre Hs He
                     | s ks so eo p1 p2 Hpre Hks Hskip Hall
                     | s e ks ke so eo p1 p2 p3 Hpre Hke Hsame].
  - destruct (getSelectedNodes_same_leaf h t s c so eo p1 p2 Hwf Hpre Hso Hle Heo)
      as (h2 & t2 & Hrun & Hwf2 & Hpre2).
    exists h2, t2, [length h], (text_ids p1 ++ [s]), (S (length h) :: text_ids p2).
    split; [exact Hrun |]. split; [exact Hwf2 |]. split.
    + rewrite Hpre2, text_ids_app. cbn [text_ids]. now rewrite <- app_assoc.
    + rewrite (plain_text_same_leaf t s c so eo p1 p2 Hnd Hpre Hso Hle Heo).
      destruct Hwf2 as (Hr2 & _).
      change [length h]
        with (text_ids [(length h, TextNode (substring (Z.to_nat so)
                                               (Z.to_nat (eo - so)) c))]).
      rewrite (collected_text_rep h2 t2 None _ Hr2).
      * simpl. apply string_app_nil_r.
      * intros x Hx. apply list_elem_of_singleton in Hx as ->.
        rewrite Hpre2. apply elem_of_app. right. right. now left.
  - destruct (getSelectedNodes_between_run h t s e ks ke so eo p1 p2 p3 Hwf Hpre
                (exact_boundary_text t s ks so Hs) (exact_boundary_text t e ke eo He))
      as (h' & t' & Hrun & Hwf' & Hpre').
    set (new := (length h + length (boundary_leaf ks s))%nat) in *.
    destruct (cut_leaf_parts s ks so (length h))
      as (hs & ts & Hcs & Hihs & Hits & Hths & Htts).
    destruct (cut_leaf_parts e ke eo new)
      as (he & te & Hce & Hihe & Hite & Hthe & Htte).
    exists h', t', (boundary_leaf ks (length h) ++ text_ids p2 ++ boundary_leaf ke e),
      (text_ids p1 ++ boundary_leaf ks s), (boundary_leaf ke new ++ text_ids p3).
    split; [exact Hrun |]. split; [exact Hwf' |]. split.
    + rewrite Hpre', Hcs, Hce, !text_ids_app, Hihs, Hits, Hihe, Hite.
      now rewrite <- !app_assoc.
    + rewrite (plain_text_ordered t s e ks ke so eo p1 p2 p3 Hnd Hpre Hs He).
      destruct Hwf' as (Hr' & _).
      assert (boundary_leaf ks (length h) ++ text_ids p2 ++ boundary_leaf ke e
              = text_ids (ts ++ p2 ++ he)) as ->
        by (rewrite !text_ids_app, Hits, Hihe; reflexivity).
      rewrite (collected_text_rep h' t' None _ Hr').
      * now rewrite !text_of_app, Htts, Hthe.
      * intros x Hx. rewrite Hpre', Hcs, Hce.
        rewrite !elem_of_app in Hx. rewrite !elem_of_app. tauto.
  - pose proof Hnd as Hnd'. unfold ids in Hnd'.
    rewrite Hpre, map_app in Hnd'. cbn [map fst] in Hnd'.
    apply NoDup_mid in Hnd' as [Hs1 Hs2].
    destruct (getSelectedNodes_open_end_run h t s ks so eo (Some s) p1 p2 Hwf Hpre)
      as (h' & t' & Hrun & Hwf' & Hpre').
    { intros c Hc. now destruct (Hks c). }
    { intros i Hi Heq. inversion Heq; subst.
      apply elem_of_app in Hi as [Hi | Hi]; contradiction. }
    rewrite (boundary_leaf_not_text ks _ Hks) in Hrun.
    rewrite (cut_leaf_not_text s ks so _ Hks) in Hpre'.
    exists h', t', (text_ids p2), (text_ids p1), [].
    split; [exact Hrun |]. split; [exact Hwf' |]. split.
    + rewrite Hpre', app_nil_r, !text_ids_app. f_equal.
      change (text_ids [(s, ks)]) with (boundary_leaf ks s).
      now rewrite (boundary_leaf_not_text ks s Hks).
    + destruct Hwf' as (Hr' & _).
      rewrite (collected_text_rep h' t' None _ Hr').
      * unfold plain_text_between.
        cbn [startContainer endContainer startOffset endOffset].
        rewrite !(abs_position_at t s ks _ p1 p2 Hnd Hpre).
        assert (forall o, match ks with TextNode _ => o | _ => text_skipped t s o end
                          = text_skipped t s o) as Hm.
        { intros o. destruct ks as [| |c]; try reflexivity. now destruct (Hks c). }
        rewrite !Hm, Hskip, Hall, Hpre, text_of_app, (text_of_cons (s, ks)).
        rewrite (text_of_not_text s ks Hks). cbn [append].
        unfold text_len.
        replace (Z.to_nat (Z.of_nat (String.length (text_of p1)) + 0))
          with (String.length (text_of p1) + 0)%nat by lia.
        replace (Z.to_nat (Z.of_nat (String.length (text_of p1))
                           + Z.of_nat (String.length (text_of p2))
                           - (Z.of_nat (String.length (text_of p1)) + 0)))
          with (String.length (text_of p2)) by lia.
        rewrite substring_app_skip. symmetry. apply substring_full.
      * intros x Hx. rewrite Hpre'. apply elem_of_app. right.
        apply elem_of_app. now right.
  - pose proof Hnd as Hnd'. unfold ids in Hnd'.
    rewrite Hpre, map_app in Hnd'. cbn [map fst] in Hnd'.
    rewrite map_app in Hnd'. cbn [map fst] in Hnd'.
    pose proof Hnd' as (_ & Hdisj1 & (He23 & _)%NoDup_cons)%NoDup_app.
    destruct (getSelectedNodes_end_first_run h t e ke so eo (Some s) p1
                (p2 ++ (s, ks) :: p3) Hwf Hpre)
      as (h' & t' & Hrun & Hwf' & Hpre' & _).
    { intros c Hc. now destruct (Hke c). }
    { intros Heq. inversion Heq; subst. apply He23.
      apply elem_of_app. right. now left. }
    { intros i Hi Heq. inversion Heq; subst. apply (Hdisj1 i Hi).
      right. apply elem_of_app. right. now left. }
    rewrite (boundary_leaf_not_text ke _ Hke) in Hrun.
    exists h', t', [], [], (text_ids (pre t')).
    split; [exact Hrun |]. split; [exact Hwf' |]. split; [reflexivity |].
    unfold plain_text_between.
    cbn [startContainer endContainer startOffset endOffset collected_text].
    rewrite Hsame, Z.sub_diag. symmetry. apply substring_none.
Qed.

Lemma getSelectedNodes_text_range_witness :
  exists (h' : dom) (t' : tree) (sel before after : list nat),
    getSelectedNodes (load [Elem "div" [Elem "p" [Txt "A"]; Elem "p" [Txt "B"]]])
      document (Range (Some 2%nat) 0 (Some 5%nat) 1)
    = Ok (h', map Some sel)
    /\ wf_dom h' t'
    /\ text_ids (pre t') = before ++ sel ++ after
    /\ collected_text h' sel
       = plain_text_between
           (document_tree [Elem "div" [Elem "p" [Txt "A"]; Elem "p" [Txt "B"]]])
           (Range (Some 2%nat) 0 (Some 5%nat) 1).
Proof.
  apply (getSelectedNodes_text_range
           (load [Elem "div" [Elem "p" [Txt "A"]; Elem "p" [Txt "B"]]])
           (document_tree [Elem "div" [Elem "p" [Txt "A"]; Elem "p" [Txt "B"]]])
           (Range (Some 2%nat) 0 (Some 5%nat) 1)).
  - apply load_wf.
  - apply (exact_range_ordered
             (document_tree [Elem "div" [Elem "p" [Txt "A"]; Elem "p" [Txt "B"]]])
             2 5 (ElementNode "p" "" "") (TextNode "B") 0 1
             [(0%nat, DocumentNode); (1%nat, ElementNode "div" "" "")]
             [(3%nat, TextNode "A"); (4%nat, ElementNode "p" "" "")] []).
    + reflexivity.
    + reflexivity.
    + simpl. lia.
Defined.

(** C1 as stated fails where the traversal does not cut the text at the
    boundary position.  In [<div><p>A</p><p>B</p></div>], whose text is
    "AB":
    - with the start at child 1 of the [div] (before the second paragraph)
      and the end after "B", the text between is "B", but the traversal
      collects from the [div] on: "A" and "B";
    - with the start before "A" and the end at child 1 of the second
      paragraph (after "B"), the text between is "AB", but the traversal
      stops at the paragraph: "A";
    - with both positions in the [div], at children 0 and 1, the text
      between is "A", but the traversal never meets the end: "A" and "B";
    - with the start before "A" and the end at child 2 of the [div], the
      text between is "AB", but the traversal meets the end container
      first and collects nothing. *)
Lemma getSelectedNodes_inexact_boundary :
  let body := [Elem "div" [Elem "p" [Txt "A"]; Elem "p" [Txt "B"]]] in
  let collected (r : range) (sel : list nat) (text : string) :=
    exists h', getSelectedNodes (load body) document r = Ok (h', map Some sel)
               /\ collected_text h' sel = text
               /\ text <> plain_text_between (document_tree body) r in
  wf_dom (load body) (document_tree body)
  /\ (plain_text_between (document_tree body) (Range (Some 1%nat) 1 (Some 5%nat) 1) = "B"
      /\ collected (Range (Some 1%nat) 1 (Some 5%nat) 1) [3%nat; 5%nat] "AB")
  /\ (plain_text_between (document_tree body) (Range (Some 3%nat) 0 (Some 4%nat) 1) = "AB"
      /\ collected (Range (Some 3%nat) 0 (Some 4%nat) 1) [6%nat] "A")
  /\ (plain_text_between (document_tree body) (Range (Some 1%nat) 0 (Some 1%nat) 1) = "A"
      /\ collected (Range (Some 1%nat) 0 (Some 1%nat) 1) [3%nat; 5%nat] "AB")
  /\ (plain_text_between (document_tree body) (Range (Some 3%nat) 0 (Some 1%nat) 2) = "AB"
      /\ collected (Range (Some 3%nat) 0 (Some 1%nat) 2) [] "").
Proof.
  cbv zeta. split; [apply load_wf |].
  repeat split; try reflexivity;
    (eexists; split; [vm_compute; reflexivity |];
     split; [reflexivity | vm_compute; discriminate]).
Qed.

(** C3 (as amended).  When both boundaries lie in one text leaf with content
    [c], at offsets [0 <= so <= eo <= length c], [getSelectedNodes] returns
    exactly one node, a text leaf whose content is the substring of [c] from
    [so] to [eo].  In [<p>Hello</p><p>World</p>] with the positions 2 and 5
    of the first paragraph, the one collected leaf holds "llo" and both
    stored addresses are [{parentTagName: "P", parentIndex: 0,
    textNodeOffset: 2, textNodeLength: 3}]: the tag name is stored as the
    HTML document reports it, in upper case. *)
Theorem getSelectedNodes_one_leaf :
  (forall (h : dom) (t : tree) (s : nat) (c : string) (so eo : Z),
      wf_dom h t ->
      (s, TextNode c) ∈ pre t ->
      0 <= so -> so <= eo -> eo <= Z.of_nat (String.length c) ->
      exists (h' : dom) (n : nat) (par : option nat),
        getSelectedNodes h document (Range (Some s) so (Some s) eo) = Ok (h', [Some n])
        /\ h' !! n
           = Some (Node (TextNode (substring (Z.to_nat so) (Z.to_nat (eo - so)) c))
                        par []))
  /\ (exists (h' h'' : dom),
        getSelectedNodes (load scenario) document (Range (Some 2%nat) 2 (Some 2%nat) 5)
        = Ok (h', [Some 5%nat])
        /\ node_data h' 5 = "llo"
        /\ storeSelectedNodes h' [Some 5%nat; Some 5%nat]
           = Ok [Address "P" 0 2 3; Address "P" 0 2 3]
        /\ mouseup (Page (load scenario) None)
             (Some (Range (Some 2%nat) 2 (Some 2%nat) 5))
           = Ok (Page h'' (Some [Address "P" 0 2 3; Address "P" 0 2 3]))).
Proof.
  split.
  - intros h t s c so eo Hwf Hin Hso Hle Heo.
    apply list_elem_of_split in Hin as (p1 & p2 & Hpre).
    destruct (getSelectedNodes_same_leaf h t s c so eo p1 p2 Hwf Hpre Hso Hle Heo)
      as (h2 & t2 & Hrun & (Hr2 & _ & _ & _ & Htl2) & Hpre2).
    destruct (rep_text_leaf h2 t2 None (length h)
                (substring (Z.to_nat so) (Z.to_nat (eo - so)) c) Hr2 Htl2)
      as (par & Hl).
    { rewrite Hpre2. apply elem_of_app. right. right. now left. }
    exists h2, (length h), par. split; [exact Hrun | exact Hl].
  - eexists. eexists. split; [vm_compute; reflexivity |].
    split; [reflexivity |]. split; [reflexivity |]. vm_compute. reflexivity.
Qed.

Lemma getSelectedNodes_one_leaf_witness :
  exists (h' : dom) (n : nat) (par : option nat),
    getSelectedNodes (load scenario) document (Range (Some 4%nat) 1 (Some 4%nat) 3)
    = Ok (h', [Some n])
    /\ h' !! n = Some (Node (TextNode "or") par []).
Proof.
  apply (proj1 getSelectedNodes_one_leaf (load scenario) (document_tree scenario)
           4%nat "World" 1 3).
  - apply load_wf.
  - by_decide.
  - lia.
  - lia.
  - simpl. lia.
Defined.

(** C3 as stated fails on the tag name.  The paragraphs of
    [<p>Hello</p><p>World</p>] are HTML elements of an HTML document, whose
    [tagName] is "P": the listener stores "P" in both addresses, so the
    stored pair is not the pair with [parentTagName: "p"]. *)
Lemma mouseup_stores_upper_case_tag :
  exists (h'' : dom) (stored : list address),
    mouseup (Page (load scenario) None) (Some (Range (Some 2%nat) 2 (Some 2%nat) 5))
    = Ok (Page h'' (Some stored))
    /\ map parentTagName stored = ["P"; "P"]
    /\ stored <> [Address "p" 0 2 3; Address "p" 0 2 3].
Proof.
  eexists. eexists. split; [vm_compute; reflexivity |].
  split; [reflexivity | discriminate].
Qed.

(* ================================================================== *)
(** ** [wrapHighlight] *)
(* ================================================================== *)

(** What [wrapHighlight] does to the store, for a text leaf [n] with data
    [c] that is a child of [p]. *)
Lemma wrapHighlight_effect (h : dom) (n p : nat) (c : string) (pn : node)
    (l1 l2 : list nat) :
  h !! n = Some (Node (TextNode c) (Some p) []) ->
  h !! p = Some pn ->
  childNodes pn = l1 ++ n :: l2 ->
  n ∉ l1 ->
  n <> p ->
  exists h',
    wrapHighlight h (Some n) = Ok (h', length h)
    /\ length h' = S (S (length h))
    /\ h' !! length h
       = Some (Node (ElementNode "span" "" "yellow") (Some p) [S (length h)])
    /\ h' !! S (length h) = Some (Node (TextNode c) (Some (length h)) [])
    /\ h' !! p = Some (Node (kind pn) (parentNode pn) (l1 ++ length h :: l2))
    /\ h' !! n = Some (Node (TextNode c) None [])
    /\ (forall i, i <> n -> i <> p -> (i < length h)%nat -> h' !! i = h !! i).
Proof.
  intros Hn Hp Hkids Hnl Hnp.
  pose proof (lookup_lt_Some _ _ _ Hn) as Hln.
  pose proof (lookup_lt_Some _ _ _ Hp) as Hlp.
  unfold wrapHighlight, createElement, setBackgroundColor.
  set (w := length h).
  set (h1 := h ++ [Node (ElementNode "span" "" "") None []]).
  assert (h1 !! w = Some (Node (ElementNode "span" "" "") None [])) as Hw1.
  { unfold h1, w. rewrite lookup_app_r by lia. now rewrite Nat.sub_diag. }
  rewrite Hw1. cbn [mbind outcome_bind].
  set (h2 := <[w := Node (ElementNode "span" "" "yellow") None []]> h1).
  assert (length h1 = S w) as Hl1 by (unfold h1, w; rewrite length_app; simpl; lia).
  assert (length h2 = S w) as Hl2 by (unfold h2; now rewrite length_insert).
  assert (h2 !! n = Some (Node (TextNode c) (Some p) [])) as Hn2.
  { unfold h2. rewrite list_lookup_insert_ne by (unfold w; lia).
    unfold h1. now rewrite lookup_app_l by lia. }
  unfold cloneNode_shallow. rewrite Hn2. cbn [mbind outcome_bind kind].
  rewrite Hl2.
  set (h3 := h2 ++ [Node (TextNode c) None []]).
  assert (length h3 = S (S w)) as Hl3 by (unfold h3; rewrite length_app; simpl; lia).
  assert (h3 !! w = Some (Node (ElementNode "span" "" "yellow") None [])) as Hw3.
  { unfold h3. rewrite lookup_app_l by lia. unfold h2.
    apply list_lookup_insert_eq. lia. }
  assert (h3 !! S w = Some (Node (TextNode c) None [])) as Hc3.
  { unfold h3. rewrite lookup_app_r by lia. now rewrite Hl2, Nat.sub_diag. }
  unfold appendChild. rewrite Hw3, Hc3. cbn [kind parentNode childNodes app].
  cbn [mbind outcome_bind].
  set (h4 := <[S w := Node (TextNode c) (Some w) []]>
               (<[w := Node (ElementNode "span" "" "yellow") None [S w]]> h3)).
  assert (length h4 = S (S w)) as Hl4 by (unfold h4; now rewrite !length_insert).
  assert (forall i, (i < w)%nat -> h4 !! i = h !! i) as Hsame4.
  { intros i Hi. unfold h4. rewrite !list_lookup_insert_ne by lia.
    unfold h3. rewrite lookup_app_l by lia.
    unfold h2. rewrite list_lookup_insert_ne by lia.
    unfold h1. now rewrite lookup_app_l by (fold w; lia). }
  assert (h4 !! w = Some (Node (ElementNode "span" "" "yellow") None [S w])) as Hw4.
  { unfold h4. rewrite list_lookup_insert_ne by lia.
    apply list_lookup_insert_eq. lia. }
  assert (h4 !! S w = Some (Node (TextNode c) (Some w) [])) as Hc4.
  { unfold h4. apply list_lookup_insert_eq. rewrite length_insert. lia. }
  rewrite (Hsame4 n Hln), Hn. cbn [parentNode].
  unfold replaceChild. rewrite (Hsame4 p Hlp), Hp, Hw4, (Hsame4 n Hln), Hn.
  cbn [mbind outcome_bind kind childNodes].
  rewrite Hkids, (replace_first_at l1 l2 n w Hnl).
  eexists. split; [reflexivity |].
  repeat split.
  - now rewrite !length_insert.
  - rewrite list_lookup_insert_ne by (unfold w; lia).
    apply list_lookup_insert_eq. rewrite length_insert. lia.
  - rewrite !list_lookup_insert_ne by (unfold w; lia).
    exact Hc4.
  - rewrite list_lookup_insert_ne by congruence.
    rewrite list_lookup_insert_ne by (unfold w; lia).
    apply list_lookup_insert_eq. lia.
  - apply list_lookup_insert_eq. rewrite !length_insert. lia.
  - intros i Hin Hip Hil.
    rewrite !list_lookup_insert_ne by (try congruence; unfold w; lia).
    now apply Hsame4.
Qed.

(** C8 (as amended).  For a text leaf with a parent, [wrapHighlight] creates
    a new [span] element whose style is the fixed inline background colour
    yellow (no class name is set on it), puts a childless copy of the leaf,
    with the leaf's data, inside it, and puts the wrapper in the place of the
    leaf among the children of the parent; the siblings, their order and
    every other node are unchanged. *)
Theorem wrapHighlight_wraps_in_place (h : dom) (n p : nat) (c : string) (pn : node)
    (l1 l2 : list nat) :
  h !! n = Some (Node (TextNode c) (Some p) []) ->
  h !! p = Some pn ->
  childNodes pn = l1 ++ n :: l2 ->
  n ∉ l1 ->
  n <> p ->
  exists (h' : dom) (wrapper copy : nat),
    wrapHighlight h (Some n) = Ok (h', wrapper)
    /\ h !! wrapper = None /\ h !! copy = None
    /\ h' !! wrapper = Some (Node (ElementNode "span" "" "yellow") (Some p) [copy])
    /\ h' !! copy = Some (Node (TextNode c) (Some wrapper) [])
    /\ h' !! p = Some (Node (kind pn) (parentNode pn) (l1 ++ wrapper :: l2))
    /\ (forall i, i <> n -> i <> p -> (i < length h)%nat -> h' !! i = h !! i).
Proof.
  intros Hn Hp Hkids Hnl Hnp.
  destruct (wrapHighlight_effect h n p c pn l1 l2 Hn Hp Hkids Hnl Hnp)
    as (h' & Hrun & _ & Hw & Hc & Hp' & _ & Hother).
  exists h', (length h), (S (length h)).
  split; [exact Hrun |].
  split; [apply lookup_ge_None; lia |].
  split; [apply lookup_ge_None; lia |].
  auto.
Qed.

Lemma wrapHighlight_wraps_in_place_witness :
  exists (h' : dom) (wrapper copy : nat),
    wrapHighlight (load scenario) (Some 2%nat) = Ok (h', wrapper)
    /\ load scenario !! wrapper = None /\ load scenario !! copy = None
    /\ h' !! wrapper = Some (Node (ElementNode "span" "" "yellow") (Some 1%nat) [copy])
    /\ h' !! copy = Some (Node (TextNode "Hello") (Some wrapper) [])
    /\ h' !! 1%nat
       = Some (Node (ElementNode "p" "" "") (Some 0%nat) ([] ++ wrapper :: []))
    /\ (forall i, i <> 2%nat -> i <> 1%nat -> (i < length (load scenario))%nat ->
                  h' !! i = load scenario !! i).
Proof.
  apply (wrapHighlight_wraps_in_place (load scenario) 2 1 "Hello"
           (Node (ElementNode "p" "" "") (Some 0%nat) [2%nat]) [] []).
  - reflexivity.
  - reflexivity.
  - reflexivity.
  - by_decide.
  - lia.
Defined.

(** C8 as stated fails on the style: the wrapper of the leaf "Hello" is a
    [span] with the inline background colour yellow and an empty class name,
    not the class name that the default options supply. *)
Lemma wrapHighlight_ignores_options :
  exists (h' : dom) (nd : node),
    wrapHighlight (load scenario) (Some 2%nat) = Ok (h', 5%nat)
    /\ h' !! 5%nat = Some nd
    /\ kind nd = ElementNode "span" "" "yellow"
    /\ className_of nd <> className (style getDefaultOptions).
Proof.
  eexists. eexists. split; [vm_compute; reflexivity |].
  split; [reflexivity |]. split; [reflexivity |].
  vm_compute. discriminate.
Qed.

(** C10.  For a text leaf that is a child of an element, [wrapHighlight]
    leaves the number of children of the parent and the parent's
    concatenated text content unchanged: the wrapper takes the index of the
    leaf, and the copy inside it carries the whole data of the leaf. *)
Theorem wrapHighlight_preserves_text (h : dom) (par : option nat) (p n : nat)
    (tg cl bg c : string) (K1 K2 : list tree) :
  rep h par (Tree p (ElementNode tg cl bg) (K1 ++ Tree n (TextNode c) [] :: K2)) ->
  NoDup (ids (Tree p (ElementNode tg cl bg) (K1 ++ Tree n (TextNode c) [] :: K2))) ->
  exists (h' : dom) (wrapper : nat) (pn pn' : node),
    wrapHighlight h (Some n) = Ok (h', wrapper)
    /\ h !! p = Some pn /\ h' !! p = Some pn'
    /\ length (childNodes pn') = length (childNodes pn)
    /\ childNodes pn !! length K1 = Some n
    /\ childNodes pn' !! length K1 = Some wrapper
    /\ (exists copy, childNodes <$> h' !! wrapper = Some [copy]
                     /\ node_data h' copy = c)
    /\ textContent h' p = textContent h p.
Proof.
  intros Hr Hnd.
  set (kids := K1 ++ Tree n (TextNode c) [] :: K2) in *.
  set (pt := Tree p (ElementNode tg cl bg) kids) in *.
  pose proof Hr as Hr0. apply rep_Tree in Hr0 as [Hp Hkids].
  assert (Forall (rep h (Some p)) K1 /\ rep h (Some p) (Tree n (TextNode c) [])
          /\ Forall (rep h (Some p)) K2) as (HK1 & Hrn & HK2).
  { unfold kids in Hkids. apply Forall_app in Hkids as [? Hk].
    inversion Hk; subst. auto. }
  apply rep_Tree in Hrn as [Hn _]. cbn [roots map] in Hn.
  pose proof Hnd as Hnd0. unfold pt in Hnd0. rewrite ids_Tree in Hnd0.
  apply NoDup_cons in Hnd0 as [Hpnot Hndk].
  unfold kids in Hndk, Hpnot. rewrite flat_map_app in Hndk, Hpnot.
  cbn [flat_map] in Hndk, Hpnot. rewrite ids_Tree in Hndk, Hpnot.
  cbn [flat_map app] in Hndk, Hpnot.
  pose proof Hndk as (Hnd1 & Hdisj & (Hn2 & Hnd2)%NoDup_cons)%NoDup_app.
  assert (n <> p) as Hnp.
  { intros ->. apply Hpnot. apply elem_of_app. right. now left. }
  assert (n ∉ roots K1) as Hn1.
  { intros Hin. unfold roots in Hin.
    apply list_elem_of_fmap in Hin as (kid & Heq & Hin).
    apply (Hdisj n); [| now left].
    apply list_elem_of_In, in_flat_map. exists kid.
    split; [now apply list_elem_of_In |].
    apply list_elem_of_In. rewrite Heq. apply root_in_ids. }
  assert (roots kids = roots K1 ++ n :: roots K2) as Hroots
    by (unfold kids; now rewrite roots_app).
  destruct (wrapHighlight_effect h n p c _ (roots K1) (roots K2) Hn Hp Hroots Hn1 Hnp)
    as (h' & Hrun & Hlen' & Hw & Hc & Hp' & _ & Hother).
  cbn [kind parentNode] in Hp'.
  set (w := length h) in *.
  set (pt' := Tree p (ElementNode tg cl bg)
                (K1 ++ Tree w (ElementNode "span" "" "yellow")
                         [Tree (S w) (TextNode c) []] :: K2)).
  assert (rep h' par pt') as Hr'.
  { apply rep_Tree. split.
    - rewrite Hp'. now rewrite roots_app.
    - assert (forall K, Forall (rep h (Some p)) K ->
                        (forall i, i ∈ flat_map ids K -> i <> n /\ i <> p) ->
                        Forall (rep h' (Some p)) K) as Hframe.
      { intros K HK Hno. rewrite Forall_forall in HK. apply Forall_forall.
        intros kid Hkid. apply (rep_frame h h' kid (Some p) (HK kid Hkid)).
        intros i Hi.
        assert (i ∈ flat_map ids K) as Hi'.
        { apply list_elem_of_In, in_flat_map. exists kid.
          split; now apply list_elem_of_In. }
        destruct (Hno i Hi') as [? ?].
        apply Hother; [assumption | assumption |].
        eapply rep_ids_lt; [apply (HK kid Hkid) | exact Hi]. }
      apply Forall_app. split; [| constructor].
      + apply Hframe; [exact HK1 |]. intros i Hi. split.
        * intros ->. apply (Hdisj n Hi). now left.
        * intros ->. apply Hpnot. apply elem_of_app. now left.
      + apply rep_Tree. split; [exact Hw |].
        constructor; [| constructor]. apply rep_Tree. split; [exact Hc | constructor].
      + apply Hframe; [exact HK2 |]. intros i Hi. split.
        * intros ->. contradiction.
        * intros ->. apply Hpnot. apply elem_of_app. right. now right. }
  pose proof (rep_size_le h pt par Hr Hnd) as Hsize.
  assert (length (pre pt') = S (length (pre pt))) as Hsize'.
  { unfold pt', pt, kids. cbn [pre length].
    fold (pre_forest (K1 ++ Tree w (ElementNode "span" "" "yellow")
                               [Tree (S w) (TextNode c) []] :: K2)).
    fold (pre_forest (K1 ++ Tree n (TextNode c) [] :: K2)).
    rewrite !pre_forest_app, !pre_forest_cons, !length_app. simpl. lia. }
  exists h', w, (Node (ElementNode tg cl bg) par (roots kids)),
    (Node (ElementNode tg cl bg) par (roots K1 ++ w :: roots K2)).
  split; [exact Hrun |]. split; [exact Hp |]. split; [exact Hp' |].
  assert (length (roots K1) = length K1) as HlK1 by (unfold roots; apply length_map).
  cbn [childNodes]. repeat split.
  - rewrite Hroots, !length_app. reflexivity.
  - rewrite Hroots, lookup_app_r by lia. now rewrite HlK1, Nat.sub_diag.
  - rewrite lookup_app_r by lia. now rewrite HlK1, Nat.sub_diag.
  - exists (S w). rewrite Hw. split; [reflexivity |].
    unfold node_data. now rewrite Hc.
  - change p with (root_id pt') at 1. change p with (root_id pt).
    rewrite (textContent_rep h' pt' par Hr') by lia.
    rewrite (textContent_rep h pt par Hr) by lia.
    unfold pt', pt, kids. cbn [pre text_of].
    fold (pre_forest (K1 ++ Tree w (ElementNode "span" "" "yellow")
                               [Tree (S w) (TextNode c) []] :: K2)).
    fold (pre_forest (K1 ++ Tree n (TextNode c) [] :: K2)).
    rewrite !pre_forest_app, !pre_forest_cons, !text_of_app. reflexivity.
Qed.

Lemma wrapHighlight_preserves_text_witness :
  exists (h' : dom) (wrapper : nat) (pn pn' : node),
    wrapHighlight (load [Elem "p" [Txt "Hello"; Elem "b" [Txt "big"]; Txt "World"]])
      (Some 5%nat) = Ok (h', wrapper)
    /\ load [Elem "p" [Txt "Hello"; Elem "b" [Txt "big"]; Txt "World"]] !! 1%nat = Some pn
    /\ h' !! 1%nat = Some pn'
    /\ length (childNodes pn') = length (childNodes pn)
    /\ childNodes pn !! 2%nat = Some 5%nat
    /\ childNodes pn' !! 2%nat = Some wrapper
    /\ (exists copy, childNodes <$> h' !! wrapper = Some [copy]
                     /\ node_data h' copy = "World")
    /\ textContent h' 1
       = textContent (load [Elem "p" [Txt "Hello"; Elem "b" [Txt "big"]; Txt "World"]]) 1.
Proof.
  apply (wrapHighlight_preserves_text
           (load [Elem "p" [Txt "Hello"; Elem "b" [Txt "big"]; Txt "World"]])
           (Some 0%nat) 1 5 "p" "" "" "World"
           [Tree 2 (TextNode "Hello") [];
            Tree 3 (ElementNode "b" "" "") [Tree 4 (TextNode "big") []]]
           []).
  - simpl. repeat split; reflexivity.
  - by_decide.
Defined.

(* ================================================================== *)
(** ** The listener and the restoration on load *)
(* ================================================================== *)

(** C7.  When the live selection is collapsed, its start position equal to
    its end position, the listener does nothing: the page is returned as it
    was, nothing is written to the store and no node is touched. *)
Theorem mouseup_collapsed (pg : page) (r : range) :
  startContainer r = endContainer r ->
  startOffset r = endOffset r ->
  mouseup pg (Some r) = Ok pg.
Proof.
  intros Hc Ho. unfold mouseup, isCollapsed.
  now rewrite Hc, Ho, strictEq_refl, Z.eqb_refl.
Qed.

Lemma mouseup_collapsed_witness :
  mouseup (Page (load scenario) None) (Some (Range (Some 2%nat) 3 (Some 2%nat) 3))
  = Ok (Page (load scenario) None).
Proof.
  apply (mouseup_collapsed (Page (load scenario) None)
           (Range (Some 2%nat) 3 (Some 2%nat) 3)); reflexivity.
Defined.




(* ================================================================== *)
(** ** More on the position codec *)
(* ================================================================== *)

Lemma getTextNodeOffset_below (h : dom) (par : option nat) (anc : tree)
    (textNode : nat) (s : string) (p1 p2 : list (nat * nodeKind)) :
  rep h par anc -> NoDup (ids anc) ->
  pre anc = p1 ++ (textNode, TextNode s) :: p2 ->
  getTextNodeOffset h (root_id anc) textNode = Ok (text_len p1).
Proof.
  intros Hr Hnd Hpre.
  rewrite (getTextNodeOffset_walk h par anc textNode Hr Hnd), Hpre.
  rewrite offset_walk_found; [f_equal; lia |].
  intros Hin. apply text_ids_subset in Hin.
  unfold ids in Hnd. rewrite Hpre, map_app in Hnd.
  now apply NoDup_mid in Hnd as [? _].
Qed.

(** X1.  For a text leaf below the ancestor, [getTextNodeOffset] returns the
    length of the text that precedes the leaf below the ancestor, in
    document order. *)
Theorem getTextNodeOffset_contained (h : dom) (par : option nat) (anc : tree)
    (textNode : nat) (s : string) (p1 p2 : list (nat * nodeKind)) :
  rep h par anc -> NoDup (ids anc) ->
  pre anc = p1 ++ (textNode, TextNode s) :: p2 ->
  getTextNodeOffset h (root_id anc) textNode = Ok (text_len p1).
Proof. exact (getTextNodeOffset_below h par anc textNode s p1 p2). Qed.

Lemma getTextNodeOffset_contained_witness :
  getTextNodeOffset
    (load [Elem "p" [Txt "Hello"; Elem "b" [Txt "big"]; Txt "World"]]) 1 5
  = Ok 8.
Proof.
  apply (getTextNodeOffset_contained
           (load [Elem "p" [Txt "Hello"; Elem "b" [Txt "big"]; Txt "World"]])
           (Some 0%nat)
           (label 1 (Elem "p" [Txt "Hello"; Elem "b" [Txt "big"]; Txt "World"]))
           5 "World"
           [(1%nat, ElementNode "p" "" ""); (2%nat, TextNode "Hello");
            (3%nat, ElementNode "b" "" ""); (4%nat, TextNode "big")]
           []).
  - simpl. repeat split; reflexivity.
  - by_decide.
  - reflexivity.
Defined.

(** The address of a text leaf [L] that is a child of the element [p]. *)
Lemma getSelectedTextNodePosition_child (h : dom) (par : option nat) (p : nat)
    (t c b : string) (k1 k2 lk : list tree) (L : nat) (s : string) :
  rep h par (Tree p (ElementNode t c b) (k1 ++ Tree L (TextNode s) lk :: k2)) ->
  NoDup (ids (Tree p (ElementNode t c b) (k1 ++ Tree L (TextNode s) lk :: k2))) ->
  getSelectedTextNodePosition h (Some L)
  = Ok (Address (ascii_uppercase t)
          (indexOf (getElementsByTagName h (ascii_uppercase t)) p)
          (text_len (pre_forest k1)) (Z.of_nat (String.length s))).
Proof.
  intros Hr Hnd.
  set (kids := k1 ++ Tree L (TextNode s) lk :: k2) in *.
  set (pt := Tree p (ElementNode t c b) kids) in *.
  assert (pre pt = ((p, ElementNode t c b) :: pre_forest k1)
                   ++ (L, TextNode s) :: (pre_forest lk ++ pre_forest k2)) as Hpre.
  { change (pre pt) with ((p, ElementNode t c b) :: pre_forest kids).
    unfold kids. rewrite pre_forest_app, pre_forest_cons. reflexivity. }
  pose proof Hr as Hr'. apply rep_Tree in Hr' as [Hp Hkids].
  assert (h !! L = Some (Node (TextNode s) (Some p) (roots lk))) as HL.
  { rewrite Forall_forall in Hkids.
    assert (rep h (Some p) (Tree L (TextNode s) lk)) as HrL
      by (apply Hkids, elem_of_app; right; now left).
    now apply rep_Tree in HrL as [? _]. }
  assert (getTextNodeOffset h p L = Ok (text_len (pre_forest k1))) as Hoff.
  { change p with (root_id pt).
    rewrite (getTextNodeOffset_below h par pt L s _ _ Hr Hnd Hpre).
    f_equal. }
  unfold getSelectedTextNodePosition, parentElement.
  rewrite HL. cbn [parentNode]. rewrite Hp. cbv iota beta. rewrite Hp.
  cbn [tagName_of kind]. rewrite Hoff. reflexivity.
Qed.

(** X2.  Encoding a text leaf that is a child of an element of the document gives
    the element's tag name (in upper case, as the HTML document reports
    it), an index at which [getElementsByTagName] has
    that very element, the length of the text that precedes the leaf below
    the element, and the length of the leaf. *)
Theorem getSelectedTextNodePosition_address (h : dom) (par : option nat) (p : nat)
    (t c b : string) (k1 k2 lk : list tree) (L : nat) (s : string) :
  rep h par (Tree p (ElementNode t c b) (k1 ++ Tree L (TextNode s) lk :: k2)) ->
  NoDup (ids (Tree p (ElementNode t c b) (k1 ++ Tree L (TextNode s) lk :: k2))) ->
  p ∈ preorder (length h) h document ->
  exists a,
    getSelectedTextNodePosition h (Some L) = Ok a
    /\ parentTagName a = ascii_uppercase t
    /\ item (getElementsByTagName h (parentTagName a)) (parentIndex a) = Some p
    /\ textNodeOffset a = text_len (pre_forest k1)
    /\ textNodeLength a = Z.of_nat (String.length s).
Proof.
  intros Hr Hnd Hdoc. eexists.
  split; [apply (getSelectedTextNodePosition_child h par p t c b k1 k2 lk L s Hr Hnd) |].
  cbn [parentTagName parentIndex textNodeOffset textNodeLength].
  repeat split. apply item_indexOf.
  apply rep_Tree in Hr as [Hp _]. eapply elem_getElementsByTagName; eauto.
Qed.

Lemma getSelectedTextNodePosition_address_witness :
  exists a,
    getSelectedTextNodePosition
      (load [Elem "p" [Txt "Hello"; Elem "b" [Txt "big"]; Txt "World"]]) (Some 5%nat) = Ok a
    /\ parentTagName a = "P"
    /\ item (getElementsByTagName
               (load [Elem "p" [Txt "Hello"; Elem "b" [Txt "big"]; Txt "World"]])
               (parentTagName a)) (parentIndex a) = Some 1%nat
    /\ textNodeOffset a = 8
    /\ textNodeLength a = 5.
Proof.
  apply (getSelectedTextNodePosition_address
           (load [Elem "p" [Txt "Hello"; Elem "b" [Txt "big"]; Txt "World"]])
           (Some 0%nat) 1 "p" "" ""
           [Tree 2 (TextNode "Hello") [];
            Tree 3 (ElementNode "b" "" "") [Tree 4 (TextNode "big") []]]
           [] [] 5 "World").
  - simpl. repeat split; reflexivity.
  - by_decide.
  - by_decide.
Defined.

(** X3.  When [textNodeOffset] falls inside a text leaf [T] of the located
    element, after its first character and at most at its end,
    [restoreContainer] returns [T] with the offset counted from the start of
    [T]. *)
Theorem restoreContainer_inside_leaf (h : dom) (a : address) (par : option nat)
    (pt : tree) (T : nat) (c : string) (p1 p2 : list (nat * nodeKind)) :
  item (getElementsByTagName h (parentTagName a)) (parentIndex a) = Some (root_id pt) ->
  rep h par pt -> NoDup (ids pt) ->
  pre pt = p1 ++ (T, TextNode c) :: p2 ->
  text_len p1 < textNodeOffset a <= text_len p1 + Z.of_nat (String.length c) ->
  restoreContainer h (Some a) = Ok (Some T, textNodeOffset a - text_len p1).
Proof.
  intros Hitem Hr Hnd Hpre Hoff.
  rewrite (restoreContainer_located h a par pt Hitem Hr Hnd), Hpre.
  rewrite restore_walk_stop; [do 2 f_equal; lia | intros _; lia | lia].
Qed.

Lemma restoreContainer_inside_leaf_witness :
  restoreContainer
    (load [Elem "p" [Txt "Hello"; Elem "b" [Txt "big"]; Txt "World"]])
    (Some (Address "p" 0 10 2))
  = Ok (Some 5%nat, 10 - 8).
Proof.
  apply (restoreContainer_inside_leaf
           (load [Elem "p" [Txt "Hello"; Elem "b" [Txt "big"]; Txt "World"]])
           (Address "p" 0 10 2) (Some 0%nat)
           (label 1 (Elem "p" [Txt "Hello"; Elem "b" [Txt "big"]; Txt "World"]))
           5 "World"
           [(1%nat, ElementNode "p" "" ""); (2%nat, TextNode "Hello");
            (3%nat, ElementNode "b" "" ""); (4%nat, TextNode "big")]
           []).
  - reflexivity.
  - simpl. repeat split; reflexivity.
  - by_decide.
  - reflexivity.
  - vm_compute. split; [reflexivity | discriminate].
Defined.

Lemma restore_walk_no_text (off : Z) :
  forall (p : list (nat * nodeKind)) (cur fin : Z),
    text_ids p = [] -> restore_walk off p cur fin = (None, fin).
Proof.
  induction p as [|[i k] p IH]; intros cur fin Hno; [reflexivity |].
  destruct k; simpl in *; try (now apply IH). discriminate.
Qed.

(** The walk runs to the end when the text ends before the offset; the
    offset it leaves is the one computed at the last text leaf. *)
Lemma restore_walk_past_end (off : Z) (T : nat) (c : string) :
  forall (p1 p2 : list (nat * nodeKind)) (cur fin : Z),
    text_ids p2 = [] ->
    cur + text_len (p1 ++ (T, TextNode c) :: p2) < off ->
    restore_walk off (p1 ++ (T, TextNode c) :: p2) cur fin
    = (None, off - (cur + text_len p1)).
Proof.
  induction p1 as [|[i k] p1 IH]; intros p2 cur fin Hno Hlt.
  - cbn [app] in *. rewrite text_len_cons_text in Hlt.
    pose proof (text_len_nonneg p2).
    cbn [restore_walk].
    destruct (cur + Z.of_nat (String.length c) >=? off) eqn:E; [lia |].
    rewrite restore_walk_no_text by exact Hno.
    unfold text_len. simpl. f_equal. lia.
  - destruct k as [|tg cl bg|s]; cbn [app restore_walk] in *;
      try (now apply IH).
    rewrite text_len_cons_text in *.
    pose proof (text_len_nonneg (p1 ++ (T, TextNode c) :: p2)).
    destruct (cur + Z.of_nat (String.length s) >=? off) eqn:E; [lia |].
    rewrite IH; [f_equal; lia | exact Hno | lia].
Qed.

(** X4.  When [textNodeOffset] is past the end of the text of the located
    element, no leaf matches: [restoreContainer] falls back to the element
    itself, with the offset it computed at the element's last text leaf. *)
Theorem restoreContainer_past_end (h : dom) (a : address) (par : option nat)
    (pt : tree) (T : nat) (c : string) (p1 p2 : list (nat * nodeKind)) :
  item (getElementsByTagName h (parentTagName a)) (parentIndex a) = Some (root_id pt) ->
  rep h par pt -> NoDup (ids pt) ->
  pre pt = p1 ++ (T, TextNode c) :: p2 ->
  text_ids p2 = [] ->
  text_len (pre pt) < textNodeOffset a ->
  restoreContainer h (Some a)
  = Ok (Some (root_id pt), textNodeOffset a - text_len p1).
Proof.
  intros Hitem Hr Hnd Hpre Hlast Hoff.
  rewrite (restoreContainer_located h a par pt Hitem Hr Hnd).
  rewrite Hpre in *. rewrite restore_walk_past_end by (assumption || lia).
  reflexivity.
Qed.

Lemma restoreContainer_past_end_witness :
  restoreContainer (load scenario) (Some (Address "p" 1 9 2))
  = Ok (Some 3%nat, 9 - 0).
Proof.
  apply (restoreContainer_past_end (load scenario) (Address "p" 1 9 2) (Some 0%nat)
           (label 3 (Elem "p" [Txt "World"])) 4 "World"
           [(3%nat, ElementNode "p" "" "")] []).
  - reflexivity.
  - simpl. repeat split; reflexivity.
  - by_decide.
  - reflexivity.
  - reflexivity.
  - reflexivity.
Defined.

(** X5.  When the located element has no text leaf below it, [restoreContainer]
    returns the element itself with offset 0, whatever [textNodeOffset]
    is. *)
Theorem restoreContainer_no_text (h : dom) (a : address) (par : option nat) (pt : tree) :
  item (getElementsByTagName h (parentTagName a)) (parentIndex a) = Some (root_id pt) ->
  rep h par pt -> NoDup (ids pt) ->
  text_ids (pre pt) = [] ->
  restoreContainer h (Some a) = Ok (Some (root_id pt), 0).
Proof.
  intros Hitem Hr Hnd Hno.
  rewrite (restoreContainer_located h a par pt Hitem Hr Hnd).
  now rewrite restore_walk_no_text.
Qed.

Lemma restoreContainer_no_text_witness :
  restoreContainer (load [Elem "p" [Elem "br" []]]) (Some (Address "p" 0 4 2))
  = Ok (Some 1%nat, 0).
Proof.
  apply (restoreContainer_no_text (load [Elem "p" [Elem "br" []]])
           (Address "p" 0 4 2) (Some 0%nat) (label 1 (Elem "p" [Elem "br" []]))).
  - reflexivity.
  - simpl. repeat split; reflexivity.
  - by_decide.
  - reflexivity.
Defined.

(** The walk finds a leaf whenever the offset does not pass the text. *)
Lemma restore_walk_finds (off : Z) :
  forall (p : list (nat * nodeKind)) (cur fin : Z),
    text_ids p <> [] ->
    cur <= off <= cur + text_len p ->
    exists (p1 : list (nat * nodeKind)) (T : nat) (c : string)
           (p2 : list (nat * nodeKind)),
      p = p1 ++ (T, TextNode c) :: p2
      /\ restore_walk off p cur fin = (Some T, off - (cur + text_len p1))
      /\ 0 <= off - (cur + text_len p1) <= Z.of_nat (String.length c).
Proof.
  induction p as [|[i k] p IH]; intros cur fin Hne Hoff; [contradiction |].
  destruct k as [|tg cl bg|s].
  - destruct (IH cur fin) as (p1 & T & c & p2 & -> & Hw & Hk); [exact Hne | exact Hoff |].
    exists ((i, DocumentNode) :: p1), T, c, p2.
    change (text_len ((i, DocumentNode) :: p1)) with (text_len p1).
    repeat split; try lia. exact Hw.
  - destruct (IH cur fin) as (p1 & T & c & p2 & -> & Hw & Hk); [exact Hne | exact Hoff |].
    exists ((i, ElementNode tg cl bg) :: p1), T, c, p2.
    change (text_len ((i, ElementNode tg cl bg) :: p1)) with (text_len p1).
    repeat split; try lia. exact Hw.
  - rewrite text_len_cons_text in Hoff. cbn [restore_walk].
    destruct (cur + Z.of_nat (String.length s) >=? off) eqn:E.
    + exists [], i, s, p. unfold text_len. simpl. repeat split; try lia.
      f_equal. lia.
    + assert (text_ids p <> []) as Hne'.
      { intros Hno. apply text_len_no_text in Hno. lia. }
      destruct (IH (cur + Z.of_nat (String.length s)) (off - cur)) as
        (p1 & T & c & p2 & -> & Hw & Hk); [exact Hne' | lia |].
      exists ((i, TextNode s) :: p1), T, c, p2.
      rewrite text_len_cons_text. repeat split; try lia.
      rewrite Hw. f_equal. lia.
Qed.

(** X6.  Round trip, as a position.  For a text leaf [L] that is a child of an
    element of the document, decoding the address that encoding [L] produces
    returns a text leaf [T] below that element and an offset within [T] that
    denote the place where [L] starts in the element's text: the text before
    [T] plus the offset is the text before [L]. *)
Theorem restoreContainer_round_trip_position (h : dom) (par : option nat) (p : nat)
    (t c b : string) (k1 k2 lk : list tree) (L : nat) (s : string) :
  rep h par (Tree p (ElementNode t c b) (k1 ++ Tree L (TextNode s) lk :: k2)) ->
  NoDup (ids (Tree p (ElementNode t c b) (k1 ++ Tree L (TextNode s) lk :: k2))) ->
  p ∈ preorder (length h) h document ->
  exists (a : address) (T : nat) (k : Z) (cT : string)
         (q1 q2 : list (nat * nodeKind)),
    getSelectedTextNodePosition h (Some L) = Ok a
    /\ restoreContainer h (Some a) = Ok (Some T, k)
    /\ pre (Tree p (ElementNode t c b) (k1 ++ Tree L (TextNode s) lk :: k2))
       = q1 ++ (T, TextNode cT) :: q2
    /\ 0 <= k <= Z.of_nat (String.length cT)
    /\ text_len q1 + k = text_len (pre_forest k1).
Proof.
  intros Hr Hnd Hdoc.
  set (pt := Tree p (ElementNode t c b) (k1 ++ Tree L (TextNode s) lk :: k2)) in *.
  assert (pre pt = ((p, ElementNode t c b) :: pre_forest k1)
                   ++ (L, TextNode s) :: (pre_forest lk ++ pre_forest k2)) as Hpre.
  { change (pre pt)
      with ((p, ElementNode t c b) :: pre_forest (k1 ++ Tree L (TextNode s) lk :: k2)).
    rewrite pre_forest_app, pre_forest_cons. reflexivity. }
  set (a := Address (ascii_uppercase t)
          (indexOf (getElementsByTagName h (ascii_uppercase t)) p)
              (text_len (pre_forest k1)) (Z.of_nat (String.length s))).
  assert (item (getElementsByTagName h (parentTagName a)) (parentIndex a)
          = Some (root_id pt)) as Hitem.
  { apply item_indexOf. pose proof Hr as Hr'. apply rep_Tree in Hr' as [Hp _].
    eapply elem_getElementsByTagName; eauto. }
  destruct (restore_walk_finds (text_len (pre_forest k1)) (pre pt) 0 0)
    as (q1 & T & cT & q2 & Hq & Hw & Hk).
  { rewrite Hpre, text_ids_app. cbn [text_ids]. intros Hnil.
    apply app_eq_nil in Hnil as [_ Hnil]. discriminate. }
  { pose proof (text_len_nonneg (pre_forest k1)). split; [lia |].
    rewrite Hpre, text_len_app, text_len_cons_text.
    pose proof (text_len_nonneg (pre_forest lk ++ pre_forest k2)).
    assert (text_len ((p, ElementNode t c b) :: pre_forest k1) = text_len (pre_forest k1))
      as -> by reflexivity.
    lia. }
  exists a, T, (text_len (pre_forest k1) - (0 + text_len q1)), cT, q1, q2.
  split; [apply (getSelectedTextNodePosition_child h par p t c b k1 k2 lk L s Hr Hnd) |].
  split; [| split; [exact Hq | split; [exact Hk | lia]]].
  rewrite (restoreContainer_located h a par pt Hitem Hr Hnd).
  cbn [textNodeOffset a]. unfold a. cbn [textNodeOffset]. now rewrite Hw.
Qed.

Lemma restoreContainer_round_trip_position_witness :
  exists (a : address) (T : nat) (k : Z) (cT : string)
         (q1 q2 : list (nat * nodeKind)),
    getSelectedTextNodePosition
      (load [Elem "p" [Txt "Hello"; Elem "b" [Txt "big"]; Txt "World"]]) (Some 5%nat) = Ok a
    /\ restoreContainer
         (load [Elem "p" [Txt "Hello"; Elem "b" [Txt "big"]; Txt "World"]]) (Some a)
       = Ok (Some T, k)
    /\ pre (Tree 1 (ElementNode "p" "" "")
              ([Tree 2 (TextNode "Hello") [];
                Tree 3 (ElementNode "b" "" "") [Tree 4 (TextNode "big") []]]
               ++ Tree 5 (TextNode "World") [] :: []))
       = q1 ++ (T, TextNode cT) :: q2
    /\ 0 <= k <= Z.of_nat (String.length cT)
    /\ text_len q1 + k
       = text_len (pre_forest [Tree 2 (TextNode "Hello") [];
                               Tree 3 (ElementNode "b" "" "") [Tree 4 (TextNode "big") []]]).
Proof.
  apply (restoreContainer_round_trip_position
           (load [Elem "p" [Txt "Hello"; Elem "b" [Txt "big"]; Txt "World"]])
           (Some 0%nat) 1 "p" "" ""
           [Tree 2 (TextNode "Hello") [];
            Tree 3 (ElementNode "b" "" "") [Tree 4 (TextNode "big") []]]
           [] [] 5 "World").
  - simpl. repeat split; reflexivity.
  - by_decide.
  - by_decide.
Defined.

(* ================================================================== *)
(** ** More on [getSelectedNodes] *)
(* ================================================================== *)

(** X7.  The general case of the traversal.  When the start container comes
    before the end container in document order, the result is, in order:
    the new leaf split off the start container if that is a text node, every
    text leaf strictly between the two containers, and the end container if
    that is a text node.  The offset of a container that is not a text node
    plays no part.  The document stays well-formed and its text is
    unchanged. *)
Theorem getSelectedNodes_between (h : dom) (t : tree) (s e : nat) (ks ke : nodeKind)
    (so eo : Z) (p1 p2 p3 : list (nat * nodeKind)) :
  wf_dom h t ->
  pre t = p1 ++ (s, ks) :: p2 ++ (e, ke) :: p3 ->
  (forall c, ks = TextNode c -> 0 <= so <= Z.of_nat (String.length c)) ->
  (forall c, ke = TextNode c -> 0 <= eo <= Z.of_nat (String.length c)) ->
  exists (h' : dom) (t' : tree),
    getSelectedNodes h document (Range (Some s) so (Some e) eo)
    = Ok (h', map Some (boundary_leaf ks (length h) ++ text_ids p2 ++ boundary_leaf ke e))
    /\ wf_dom h' t'
    /\ text_of (pre t') = text_of (pre t).
Proof.
  intros Hwf Hpre Hso Heo.
  destruct (getSelectedNodes_between_run h t s e ks ke so eo p1 p2 p3 Hwf Hpre Hso Heo)
    as (h' & t' & Hrun & Hwf' & Hpre').
  exists h', t'. split; [exact Hrun |]. split; [exact Hwf' |].
  rewrite Hpre', Hpre, !text_of_app.
  rewrite (text_of_cons (s, ks)), text_of_app, (text_of_cons (e, ke)).
  now rewrite (text_of_cut_leaf s ks so _ Hso), (text_of_cut_leaf e ke eo _ Heo).
Qed.

Lemma getSelectedNodes_between_witness :
  exists (h' : dom) (t' : tree),
    getSelectedNodes (load [Elem "div" [Elem "p" [Txt "A"]; Elem "p" [Txt "B"]]])
      document (Range (Some 1%nat) 1 (Some 5%nat) 1)
    = Ok (h', map Some (boundary_leaf (ElementNode "div" "" "")
                          (length (load [Elem "div" [Elem "p" [Txt "A"]; Elem "p" [Txt "B"]]]))
                        ++ text_ids [(2%nat, ElementNode "p" "" ""); (3%nat, TextNode "A");
                                     (4%nat, ElementNode "p" "" "")]
                        ++ boundary_leaf (TextNode "B") 5))
    /\ wf_dom h' t'
    /\ text_of (pre t')
       = text_of (pre (document_tree [Elem "div" [Elem "p" [Txt "A"]; Elem "p" [Txt "B"]]])).
Proof.
  apply (getSelectedNodes_between
           (load [Elem "div" [Elem "p" [Txt "A"]; Elem "p" [Txt "B"]]])
           (document_tree [Elem "div" [Elem "p" [Txt "A"]; Elem "p" [Txt "B"]]])
           1 5 (ElementNode "div" "" "") (TextNode "B") 1 1
           [(0%nat, DocumentNode)]
           [(2%nat, ElementNode "p" "" ""); (3%nat, TextNode "A");
            (4%nat, ElementNode "p" "" "")]
           []).
  - apply load_wf.
  - reflexivity.
  - intros c Hc. discriminate.
  - intros c Hc. inversion Hc; subst. simpl. lia.
Defined.

(** X8.  The end container is no node of the document other than the start
    container (it is undefined, or lies outside the document, or is the
    start container itself when that is no text node): the traversal never
    meets it, runs to the end of the document, and every text leaf after
    the start container is collected. *)
Theorem getSelectedNodes_open_end (h : dom) (t : tree) (s : nat) (ks : nodeKind)
    (so eo : Z) (ec : option nat) (p1 p2 : list (nat * nodeKind)) :
  wf_dom h t ->
  pre t = p1 ++ (s, ks) :: p2 ->
  (forall c, ks = TextNode c ->
             0 <= so <= Z.of_nat (String.length c) /\ ec <> Some s) ->
  (forall i, i ∈ map fst p1 ++ map fst p2 -> ec <> Some i) ->
  exists (h' : dom) (t' : tree),
    getSelectedNodes h document (Range (Some s) so ec eo)
    = Ok (h', map Some (boundary_leaf ks (length h) ++ text_ids p2))
    /\ wf_dom h' t'
    /\ text_of (pre t') = text_of (pre t).
Proof.
  intros Hwf Hpre Hso Hec.
  destruct (getSelectedNodes_open_end_run h t s ks so eo ec p1 p2 Hwf Hpre Hso Hec)
    as (h' & t' & Hrun & Hwf' & Hpre').
  exists h', t'. split; [exact Hrun |]. split; [exact Hwf' |].
  rewrite Hpre', Hpre, !text_of_app, (text_of_cons (s, ks)).
  now rewrite (text_of_cut_leaf s ks so _ (fun c Hc => proj1 (Hso c Hc))).
Qed.

Lemma getSelectedNodes_open_end_witness :
  exists (h' : dom) (t' : tree),
    getSelectedNodes (load scenario) document (Range (Some 1%nat) 0 (Some 1%nat) 1)
    = Ok (h', map Some (boundary_leaf (ElementNode "p" "" "") (length (load scenario))
                        ++ text_ids [(2%nat, TextNode "Hello");
                                     (3%nat, ElementNode "p" "" "");
                                     (4%nat, TextNode "World")]))
    /\ wf_dom h' t'
    /\ text_of (pre t') = text_of (pre (document_tree scenario)).
Proof.
  apply (getSelectedNodes_open_end (load scenario) (document_tree scenario)
           1 (ElementNode "p" "" "") 0 1 (Some 1%nat)
           [(0%nat, DocumentNode)]
           [(2%nat, TextNode "Hello"); (3%nat, ElementNode "p" "" "");
            (4%nat, TextNode "World")]).
  - apply load_wf.
  - reflexivity.
  - intros c Hc. discriminate.
  - intros i Hi Heq. inversion Heq; subst. revert Hi. by_decide.
Defined.

(** X9.  The end container is met before the start container (the start is
    undefined, or lies after the end, or outside the document): the
    traversal stops there.  The result is the end container alone if it is
    a text node, split at the end offset, and nothing otherwise. *)
Theorem getSelectedNodes_end_first (h : dom) (t : tree) (e : nat) (ke : nodeKind)
    (so eo : Z) (sc : option nat) (p1 p2 : list (nat * nodeKind)) :
  wf_dom h t ->
  pre t = p1 ++ (e, ke) :: p2 ->
  (forall c, ke = TextNode c -> 0 <= eo <= Z.of_nat (String.length c)) ->
  sc <> Some e ->
  (forall i, i ∈ map fst p1 -> sc <> Some i) ->
  exists (h' : dom) (t' : tree),
    getSelectedNodes h document (Range sc so (Some e) eo)
    = Ok (h', map Some (boundary_leaf ke e))
    /\ wf_dom h' t'
    /\ text_of (pre t') = text_of (pre t)
    /\ ((forall c, ke <> TextNode c) -> h' = h).
Proof.
  intros Hwf Hpre Heo Hsc Hsc1.
  destruct (getSelectedNodes_end_first_run h t e ke so eo sc p1 p2 Hwf Hpre Heo Hsc Hsc1)
    as (h' & t' & Hrun & Hwf' & Hpre' & Hsame).
  exists h', t'. split; [exact Hrun |]. split; [exact Hwf' |]. split; [| exact Hsame].
  rewrite Hpre', Hpre, !text_of_app, (text_of_cons (e, ke)).
  now rewrite (text_of_cut_leaf e ke eo _ Heo).
Qed.

Lemma getSelectedNodes_end_first_witness :
  exists (h' : dom) (t' : tree),
    getSelectedNodes (load scenario) document (Range None 0 (Some 4%nat) 3)
    = Ok (h', map Some (boundary_leaf (TextNode "World") 4))
    /\ wf_dom h' t'
    /\ text_of (pre t') = text_of (pre (document_tree scenario))
    /\ ((forall c, TextNode "World" <> TextNode c) -> h' = load scenario).
Proof.
  apply (getSelectedNodes_end_first (load scenario) (document_tree scenario)
           4 (TextNode "World") 0 3 None
           [(0%nat, DocumentNode); (1%nat, ElementNode "p" "" "");
            (2%nat, TextNode "Hello"); (3%nat, ElementNode "p" "" "")]
           []).
  - apply load_wf.
  - reflexivity.
  - intros c Hc. inversion Hc; subst. simpl. lia.
  - discriminate.
  - intros i _. discriminate.
Defined.

(** X10.  A selection that is not collapsed but whose end container is an
    element met before the start container (an ancestor of the start, for
    one) collects nothing; the listener then asks for the position of
    [undefined] and raises [TypeError]. *)
Theorem mouseup_nothing_collected (h : dom) (t : tree) (stored : option (list address))
    (e : nat) (tg cl bg : string) (so eo : Z) (sc : option nat)
    (p1 p2 : list (nat * nodeKind)) :
  wf_dom h t ->
  pre t = p1 ++ (e, ElementNode tg cl bg) :: p2 ->
  sc <> Some e ->
  (forall i, i ∈ map fst p1 -> sc <> Some i) ->
  mouseup (Page h stored) (Some (Range sc so (Some e) eo)) = Throw TypeError.
Proof.
  intros Hwf Hpre Hsc Hsc1.
  destruct (getSelectedNodes_end_first_run h t e (ElementNode tg cl bg) so eo sc p1 p2
              Hwf Hpre ltac:(discriminate) Hsc Hsc1)
    as (h' & t' & Hrun & _ & _ & Hsame).
  unfold mouseup, isCollapsed. cbn [startContainer endContainer page_dom].
  assert (strictEq sc (Some e) = false) as ->.
  { destruct sc as [x|]; [| reflexivity]. cbn. apply Nat.eqb_neq. congruence. }
  cbn [andb negb]. rewrite Hrun. reflexivity.
Qed.

Lemma mouseup_nothing_collected_witness :
  mouseup (Page (load [Elem "div" [Elem "p" [Txt "A"]; Elem "p" [Txt "B"]]]) None)
    (Some (Range (Some 3%nat) 0 (Some 1%nat) 2))
  = Throw TypeError.
Proof.
  apply (mouseup_nothing_collected
           (load [Elem "div" [Elem "p" [Txt "A"]; Elem "p" [Txt "B"]]])
           (document_tree [Elem "div" [Elem "p" [Txt "A"]; Elem "p" [Txt "B"]]])
           None 1 "div" "" "" 0 2 (Some 3%nat)
           [(0%nat, DocumentNode)]
           [(2%nat, ElementNode "p" "" ""); (3%nat, TextNode "A");
            (4%nat, ElementNode "p" "" ""); (5%nat, TextNode "B")]).
  - apply load_wf.
  - reflexivity.
  - discriminate.
  - intros i Hi Heq. inversion Heq; subst. revert Hi. by_decide.
Defined.

(** X11.  With both boundaries in one text leaf, offsets that are not
    [0 <= startOffset <= endOffset <= length] make the traversal raise
    [IndexSizeError].  The two arguments that reach [splitText] are taken
    of magnitude below [2^31], where a negative argument, read as an
    unsigned long, is past the end of the data. *)
Theorem getSelectedNodes_one_leaf_out_of_range (h : dom) (t : tree) (s : nat)
    (c : string) (so eo : Z) :
  wf_dom h t ->
  (s, TextNode c) ∈ pre t ->
  Z.of_nat (String.length c) < 2 ^ 31 ->
  Z.abs so < 2 ^ 31 -> Z.abs (eo - so) < 2 ^ 31 ->
  ~ (0 <= so /\ so <= eo /\ eo <= Z.of_nat (String.length c)) ->
  getSelectedNodes h document (Range (Some s) so (Some s) eo) = Throw IndexSizeError.
Proof.
  intros Hwf Hin _ _ _ Hbad.
  pose proof Hwf as (Hr & _ & _ & _ & Htl).
  destruct (rep_text_leaf h t None s c Hr Htl Hin) as (par & Hs).
  apply list_elem_of_split in Hin as (p1 & p2 & Hpre).
  unfold getSelectedNodes, instanceofText, getNodesIfSameStartEnd.
  cbn [startContainer endContainer startOffset endOffset strictEq].
  rewrite Nat.eqb_refl, Hs. cbn [isText nodeType kind Z.eqb Pos.eqb andb].
  destruct (Z_lt_dec so 0) as [Hneg | Hnn].
  { unfold splitText. rewrite Hs.
    now rewrite (proj2 (Z.ltb_lt so 0) Hneg). }
  destruct (Z_lt_dec (Z.of_nat (String.length c)) so) as [Hbig | Hle].
  { unfold splitText. rewrite Hs.
    rewrite (proj2 (Z.ltb_lt _ so) Hbig). now rewrite orb_true_r. }
  destruct (splitText_wf h t s c so p1 p2 Hwf Hpre ltac:(lia))
    as (h1 & p & Hsplit1 & Heff1 & Hnext1 & _).
  rewrite Hsplit1. cbn [mbind outcome_bind]. rewrite Hnext1.
  destruct Heff1 as (_ & _ & Hnew & _).
  unfold splitText. rewrite Hnew.
  rewrite substring_length by lia.
  destruct (eo - so <? 0) eqn:E1; [reflexivity |].
  destruct (Z.of_nat (String.length c - Z.to_nat so) <? eo - so) eqn:E2; [reflexivity |].
  exfalso. apply Hbad. apply Z.ltb_ge in E1, E2. lia.
Qed.

Lemma getSelectedNodes_one_leaf_out_of_range_witness :
  getSelectedNodes (load scenario) document (Range (Some 2%nat) 2 (Some 2%nat) 9)
  = Throw IndexSizeError.
Proof.
  apply (getSelectedNodes_one_leaf_out_of_range (load scenario) (document_tree scenario)
           2 "Hello" 2 9).
  - apply load_wf.
  - by_decide.
  - reflexivity.
  - reflexivity.
  - reflexivity.
  - simpl. lia.
Defined.

Lemma insert_after_at (l1 l2 : list nat) (x y : nat) :
  x ∉ l1 -> insert_after (l1 ++ x :: l2) x y = l1 ++ x :: y :: l2.
Proof.
  induction l1 as [|z l1 IH]; intros Hx; simpl.
  - now rewrite Nat.eqb_refl.
  - destruct (Nat.eqb_spec z x) as [-> | Hne].
    + exfalso. apply Hx. now left.
    + f_equal. apply IH. intros Hin. apply Hx. now right.
Qed.

(** What [getNodesIfSameStartEnd] does to the store. *)
Lemma getNodesIfSameStartEnd_effect (h : dom) (s p : nat) (c : string) (pn : node)
    (l1 l2 : list nat) (so eo : Z) :
  h !! s = Some (Node (TextNode c) (Some p) []) ->
  h !! p = Some pn ->
  s <> p ->
  childNodes pn = l1 ++ s :: l2 ->
  s ∉ l1 ->
  Forall (fun x => (x < length h)%nat) l1 ->
  0 <= so -> so <= eo -> eo <= Z.of_nat (String.length c) ->
  exists h',
    getNodesIfSameStartEnd h (Range (Some s) so (Some s) eo)
    = Ok (h', [Some (length h)])
    /\ length h' = S (S (length h))
    /\ h' !! s = Some (Node (TextNode (substring 0 (Z.to_nat so) c)) (Some p) [])
    /\ h' !! length h
       = Some (Node (TextNode (substring (Z.to_nat so) (Z.to_nat (eo - so)) c))
                    (Some p) [])
    /\ h' !! S (length h)
       = Some (Node (TextNode (substring (Z.to_nat eo)
                                 (String.length c - Z.to_nat eo) c)) (Some p) [])
    /\ h' !! p
       = Some (Node (kind pn) (parentNode pn)
                    (l1 ++ s :: length h :: S (length h) :: l2))
    /\ (forall i, i <> s -> i <> p -> (i < length h)%nat -> h' !! i = h !! i).
Proof.
  intros Hs Hp Hsp Hkids Hsl1 Hl1 Hso Hle Heo.
  pose proof (lookup_lt_Some _ _ _ Hs) as Hls.
  pose proof (lookup_lt_Some _ _ _ Hp) as Hlp.
  destruct (splitText_effect h s p c pn so Hs Hp Hsp ltac:(lia))
    as (h1 & Hsplit1 & Hlen1 & Hs1 & Hn1 & Hp1 & Hother1).
  specialize (Hp1 pn Hp). rewrite Hkids, (insert_after_at l1 l2 s _ Hsl1) in Hp1.
  set (c' := substring (Z.to_nat so) (String.length c - Z.to_nat so) c) in *.
  assert (String.length c' = (String.length c - Z.to_nat so)%nat) as Hlenc'
    by (apply substring_length; lia).
  destruct (splitText_effect h1 (length h) p c' _ (eo - so) Hn1 Hp1 ltac:(lia) ltac:(lia))
    as (h2 & Hsplit2 & Hlen2 & Hs2 & Hn2 & Hp2 & Hother2).
  specialize (Hp2 _ Hp1). cbn [kind parentNode childNodes] in Hp2.
  exists h2. split; [| split; [lia | split; [| split; [| split; [| split]]]]].
  - unfold getNodesIfSameStartEnd. cbn [startContainer startOffset endOffset].
    rewrite Hsplit1. cbn [mbind outcome_bind].
    assert (nextSibling h1 s = Some (length h)) as ->.
    { unfold nextSibling. rewrite Hs1. cbn [parentNode]. rewrite Hp1.
      cbn [childNodes]. rewrite <- (insert_after_at l1 l2 s _ Hsl1).
      apply next_in_insert_after. apply elem_of_app. right. now left. }
    rewrite Hsplit2. reflexivity.
  - rewrite Hother2; [exact Hs1 | lia | exact Hsp | lia].
  - rewrite Hs2. unfold c'. rewrite substring_suffix by lia.
    now rewrite Nat.add_0_r.
  - rewrite <- Hlen1, Hn2. unfold c' at 2. rewrite substring_suffix by lia.
    rewrite Hlenc'.
    replace (Z.to_nat so + Z.to_nat (eo - so))%nat with (Z.to_nat eo) by lia.
    replace (String.length c - Z.to_nat so - Z.to_nat (eo - so))%nat
      with (String.length c - Z.to_nat eo)%nat by lia.
    reflexivity.
  - rewrite Hp2, Hlen1. do 2 f_equal.
    change (l1 ++ s :: length h :: l2) with (l1 ++ [s] ++ length h :: l2).
    rewrite app_assoc, insert_after_at; [now rewrite <- app_assoc |].
    intros Hin. apply elem_of_app in Hin as [Hin | Hin].
    + rewrite Forall_forall in Hl1. specialize (Hl1 _ Hin). lia.
    + apply list_elem_of_singleton in Hin. lia.
  - intros i His Hip Hil. rewrite Hother2 by lia. now apply Hother1.
Qed.

(** X12.  [getNodesIfSameStartEnd] on the store.  For a text leaf [s] with data
    [c] that is a child of [p], and offsets [0 <= so <= eo <= length c], the
    leaf is cut in three: [s] keeps the data before [so], two new leaves hold
    the data from [so] to [eo] and the data after [eo], and they follow [s],
    in that order, among the children of [p].  The middle leaf is the one
    node returned; no other node changes. *)
Theorem getNodesIfSameStartEnd_store (h : dom) (s p : nat) (c : string) (pn : node)
    (l1 l2 : list nat) (so eo : Z) :
  h !! s = Some (Node (TextNode c) (Some p) []) ->
  h !! p = Some pn ->
  s <> p ->
  childNodes pn = l1 ++ s :: l2 ->
  s ∉ l1 ->
  Forall (fun x => (x < length h)%nat) l1 ->
  0 <= so -> so <= eo -> eo <= Z.of_nat (String.length c) ->
  exists h',
    getNodesIfSameStartEnd h (Range (Some s) so (Some s) eo)
    = Ok (h', [Some (length h)])
    /\ length h' = S (S (length h))
    /\ h' !! s = Some (Node (TextNode (substring 0 (Z.to_nat so) c)) (Some p) [])
    /\ h' !! length h
       = Some (Node (TextNode (substring (Z.to_nat so) (Z.to_nat (eo - so)) c))
                    (Some p) [])
    /\ h' !! S (length h)
       = Some (Node (TextNode (substring (Z.to_nat eo)
                                 (String.length c - Z.to_nat eo) c)) (Some p) [])
    /\ h' !! p
       = Some (Node (kind pn) (parentNode pn)
                    (l1 ++ s :: length h :: S (length h) :: l2))
    /\ (forall i, i <> s -> i <> p -> (i < length h)%nat -> h' !! i = h !! i).
Proof. exact (getNodesIfSameStartEnd_effect h s p c pn l1 l2 so eo). Qed.

Lemma getNodesIfSameStartEnd_store_witness :
  exists h',
    getNodesIfSameStartEnd (load scenario) (Range (Some 2%nat) 2 (Some 2%nat) 5)
    = Ok (h', [Some (length (load scenario))])
    /\ length h' = S (S (length (load scenario)))
    /\ h' !! 2%nat = Some (Node (TextNode (substring 0 (Z.to_nat 2) "Hello")) (Some 1%nat) [])
    /\ h' !! length (load scenario)
       = Some (Node (TextNode (substring (Z.to_nat 2) (Z.to_nat (5 - 2)) "Hello"))
                    (Some 1%nat) [])
    /\ h' !! S (length (load scenario))
       = Some (Node (TextNode (substring (Z.to_nat 5)
                                 (String.length "Hello" - Z.to_nat 5) "Hello"))
                    (Some 1%nat) [])
    /\ h' !! 1%nat
       = Some (Node (ElementNode "p" "" "") (Some 0%nat)
                    ([] ++ 2%nat :: length (load scenario)
                        :: S (length (load scenario)) :: []))
    /\ (forall i, i <> 2%nat -> i <> 1%nat -> (i < length (load scenario))%nat ->
                  h' !! i = load scenario !! i).
Proof.
  apply (getNodesIfSameStartEnd_store (load scenario) 2 1 "Hello"
           (Node (ElementNode "p" "" "") (Some 0%nat) [2%nat]) [] [] 2 5).
  - reflexivity.
  - reflexivity.
  - lia.
  - reflexivity.
  - by_decide.
  - constructor.
  - lia.
  - lia.
  - simpl. lia.
Defined.

(** A node without a parent cannot be wrapped: [wrapHighlight] raises
    [TypeError] at [node.parentNode.replaceChild]. *)
Lemma wrapHighlight_detached (h : dom) (n : nat) (c : string) (kids : list nat) :
  h !! n = Some (Node (TextNode c) None kids) ->
  wrapHighlight h (Some n) = Throw TypeError.
Proof.
  intros Hn. pose proof (lookup_lt_Some _ _ _ Hn) as Hln.
  unfold wrapHighlight, createElement, setBackgroundColor.
  set (w := length h).
  set (h1 := h ++ [Node (ElementNode "span" "" "") None []]).
  assert (h1 !! w = Some (Node (ElementNode "span" "" "") None [])) as Hw1.
  { unfold h1, w. rewrite lookup_app_r by lia. now rewrite Nat.sub_diag. }
  rewrite Hw1. cbn [mbind outcome_bind].
  set (h2 := <[w := Node (ElementNode "span" "" "yellow") None []]> h1).
  assert (length h1 = S w) as Hl1 by (unfold h1, w; rewrite length_app; simpl; lia).
  assert (length h2 = S w) as Hl2 by (unfold h2; now rewrite length_insert).
  assert (h2 !! n = Some (Node (TextNode c) None kids)) as Hn2.
  { unfold h2. rewrite list_lookup_insert_ne by (unfold w; lia).
    unfold h1. now rewrite lookup_app_l by lia. }
  unfold cloneNode_shallow. rewrite Hn2. cbn [mbind outcome_bind kind].
  rewrite Hl2.
  set (h3 := h2 ++ [Node (TextNode c) None []]).
  assert (h3 !! w = Some (Node (ElementNode "span" "" "yellow") None [])) as Hw3.
  { unfold h3. rewrite lookup_app_l by lia. unfold h2.
    apply list_lookup_insert_eq. lia. }
  assert (h3 !! S w = Some (Node (TextNode c) None [])) as Hc3.
  { unfold h3. rewrite lookup_app_r by lia. now rewrite Hl2, Nat.sub_diag. }
  unfold appendChild. rewrite Hw3, Hc3. cbn [kind parentNode childNodes app].
  cbn [mbind outcome_bind].
  rewrite !list_lookup_insert_ne by (unfold w; lia).
  unfold h3. rewrite lookup_app_l by lia. rewrite Hn2. reflexivity.
Qed.

(** X13.  [wrapHighlight] detaches the leaf it wraps.  After it, the leaf has no
    parent: wrapping the same leaf again, or asking for its position, raises
    [TypeError]. *)
Theorem wrapHighlight_once (h : dom) (n p : nat) (c : string) (pn : node)
    (l1 l2 : list nat) :
  h !! n = Some (Node (TextNode c) (Some p) []) ->
  h !! p = Some pn ->
  childNodes pn = l1 ++ n :: l2 ->
  n ∉ l1 ->
  n <> p ->
  exists (h' : dom) (wrapper : nat),
    wrapHighlight h (Some n) = Ok (h', wrapper)
    /\ parentNode <$> h' !! n = Some None
    /\ wrapHighlight h' (Some n) = Throw TypeError
    /\ getSelectedTextNodePosition h' (Some n) = Throw TypeError.
Proof.
  intros Hn Hp Hkids Hnl Hnp.
  destruct (wrapHighlight_effect h n p c pn l1 l2 Hn Hp Hkids Hnl Hnp)
    as (h' & Hrun & _ & _ & _ & _ & Hn' & _).
  exists h', (length h). split; [exact Hrun |]. split; [now rewrite Hn' |].
  split; [now apply (wrapHighlight_detached h' n c []) |].
  unfold getSelectedTextNodePosition, parentElement. now rewrite Hn'.
Qed.

Lemma wrapHighlight_once_witness :
  exists (h' : dom) (wrapper : nat),
    wrapHighlight (load scenario) (Some 2%nat) = Ok (h', wrapper)
    /\ parentNode <$> h' !! 2%nat = Some None
    /\ wrapHighlight h' (Some 2%nat) = Throw TypeError
    /\ getSelectedTextNodePosition h' (Some 2%nat) = Throw TypeError.
Proof.
  apply (wrapHighlight_once (load scenario) 2 1 "Hello"
           (Node (ElementNode "p" "" "") (Some 0%nat) [2%nat]) [] []).
  - reflexivity.
  - reflexivity.
  - reflexivity.
  - by_decide.
  - lia.
Defined.

(* ================================================================== *)
(** ** Capturing a selection and restoring it *)
(* ================================================================== *)

Lemma getElementsByTagName_pre (h : dom) (t : tree) (tag : string) :
  wf_dom h t -> getElementsByTagName h tag = elements_by_tag tag (pre t).
Proof.
  intros Hwf. unfold getElementsByTagName.
  rewrite (wf_dom_preorder h t Hwf). destruct Hwf as (Hr & _). unfold ids.
  assert (forall q, (forall x, x ∈ q -> x ∈ pre t) ->
            filter (fun n => Is_true (matchesTag h tag n)) (map fst q)
            = elements_by_tag tag q) as Hq.
  { induction q as [|[i k] q IH]; intros Hin; [reflexivity |].
    cbn [map fst elements_by_tag]. rewrite filter_cons.
    destruct (rep_lookup h t None i k Hr) as (par' & kids & Hl); [apply Hin; now left |].
    assert (matchesTag h tag i = kind_matches tag k) as Hm
      by (unfold matchesTag; rewrite Hl; reflexivity).
    rewrite IH by (intros x Hx; apply Hin; now right).
    destruct (decide _) as [Hd | Hd]; rewrite Hm in Hd;
      destruct (kind_matches tag k); simpl in Hd; try reflexivity; tauto. }
  apply Hq. auto.
Qed.

Lemma elements_by_tag_app (tag : string) (p q : list (nat * nodeKind)) :
  elements_by_tag tag (p ++ q) = elements_by_tag tag p ++ elements_by_tag tag q.
Proof.
  induction p as [|[i k] p IH]; [reflexivity |].
  cbn [app elements_by_tag]. destruct (kind_matches tag k); now rewrite IH.
Qed.

(** The nodes of a subtree keep the order and the kinds they have in the
    whole tree, so a subtree's references are distinct when the tree's
    are. *)
Lemma NoDup_pre_mid (A X B : list (nat * nodeKind)) :
  NoDup (map fst (A ++ X ++ B)) -> NoDup (map fst X).
Proof.
  rewrite !map_app. intros Hnd.
  apply NoDup_app in Hnd as (_ & _ & Hnd).
  now apply NoDup_app in Hnd as (Hnd & _ & _).
Qed.

(** A non-collapsed selection inside one text leaf [s], a child of the
    element [p]: the three steps of the listener. *)
Lemma mouseup_same_leaf_run (h : dom) (t : tree) (p s : nat) (tg cl bg c : string)
    (K1 K2 : list tree) (so eo : Z) :
  wf_dom h t ->
  Tree p (ElementNode tg cl bg) (K1 ++ Tree s (TextNode c) [] :: K2) ∈ subtrees t ->
  0 <= so -> so <= eo -> eo <= Z.of_nat (String.length c) ->
  exists h2 h3,
    getSelectedNodes h document (Range (Some s) so (Some s) eo)
    = Ok (h2, [Some (length h)])
    /\ getSelectedTextNodePosition h2 (Some (length h))
       = Ok (Address (ascii_uppercase tg)
               (indexOf (getElementsByTagName h (ascii_uppercase tg)) p)
               (text_len (pre_forest K1) + so) (eo - so))
    /\ wrapHighlight h2 (Some (length h)) = Ok (h3, S (S (length h)))
    /\ h3 !! S (S (length h))
       = Some (Node (ElementNode "span" "" "yellow") (Some p) [S (S (S (length h)))])
    /\ h3 !! S (S (S (length h)))
       = Some (Node (TextNode (substring (Z.to_nat so) (Z.to_nat (eo - so)) c))
                    (Some (S (S (length h)))) [])
    /\ childNodes <$> h3 !! p
       = Some (roots K1 ++ s :: S (S (length h)) :: S (length h) :: roots K2).
Proof.
  intros Hwf Hsub Hso Hle Heo.
  set (e := ElementNode tg cl bg) in *.
  set (pt := Tree p e (K1 ++ Tree s (TextNode c) [] :: K2)) in *.
  pose proof Hwf as (Hr & Hroot & Hkind & Hnd & Htl).
  destruct (subtree_rep h t pt None Hr Hsub) as (par & Hrp).
  pose proof (subtree_NoDup t pt Hnd Hsub) as Hndp.
  destruct (subtree_pre t pt Hsub) as (A & B & HAB).
  assert (pre pt = (p, e) :: pre_forest K1 ++ (s, TextNode c) :: pre_forest K2) as Hprept.
  { change (pre pt) with ((p, e) :: pre_forest (K1 ++ Tree s (TextNode c) [] :: K2)).
    rewrite pre_forest_app, pre_forest_cons. reflexivity. }
  assert (pre t = (A ++ (p, e) :: pre_forest K1)
                  ++ (s, TextNode c) :: (pre_forest K2 ++ B)) as Hpre.
  { rewrite HAB, Hprept. rewrite <- !app_assoc. cbn [app].
    rewrite <- !app_assoc. reflexivity. }
  pose proof Hrp as Hrp'. apply rep_Tree in Hrp' as [Hp Hkids].
  rewrite roots_app in Hp. cbn [roots map root_id] in Hp. fold (roots K1) (roots K2) in Hp.
  assert (h !! s = Some (Node (TextNode c) (Some p) [])) as Hs.
  { rewrite Forall_forall in Hkids.
    assert (rep h (Some p) (Tree s (TextNode c) [])) as Hrs
      by (apply Hkids, elem_of_app; right; now left).
    now apply rep_Tree in Hrs as [? _]. }
  assert (s <> p) as Hsp by (intros ->; rewrite Hp in Hs; discriminate).
  assert (ids pt = p :: flat_map ids K1 ++ s :: flat_map ids K2) as Hids.
  { unfold pt. rewrite ids_Tree, flat_map_app. reflexivity. }
  rewrite Hids in Hndp. apply NoDup_cons in Hndp as [Hpfresh Hndk].
  pose proof (NoDup_mid _ _ _ Hndk) as [Hs1 Hs2].
  assert (forall kid, kid ∈ K1 \/ kid ∈ K2 -> rep h (Some p) kid) as HrepK.
  { intros kid Hin. rewrite Forall_forall in Hkids. apply Hkids.
    apply elem_of_app. destruct Hin as [Hin | Hin]; [now left | right; now right]. }
  assert (s ∉ roots K1) as Hsr1.
  { intros Hin. apply Hs1. unfold roots in Hin.
    apply list_elem_of_fmap in Hin as (kid & -> & Hkid).
    apply list_elem_of_In, in_flat_map. exists kid.
    split; apply list_elem_of_In; [exact Hkid | apply root_in_ids]. }
  assert (Forall (fun x => (x < length h)%nat) (roots K1)) as Hlt1.
  { apply Forall_forall. intros x Hin. unfold roots in Hin.
    apply list_elem_of_fmap in Hin as (kid & -> & Hkid).
    apply (rep_ids_lt h kid (Some p)); [apply HrepK; now left | apply root_in_ids]. }
  destruct (getNodesIfSameStartEnd_effect h s p c _ (roots K1) (roots K2) so eo
              Hs Hp Hsp eq_refl Hsr1 Hlt1 Hso Hle Heo)
    as (h2 & Hrun & Hlen2 & Hs2' & Hn1 & Hn2 & Hp2 & Hother).
  cbn [kind parentNode] in Hp2.
  destruct (getSelectedNodes_same_leaf h t s c so eo _ _ Hwf Hpre Hso Hle Heo)
    as (h2' & t2 & Hgs & Hwf2 & Hpre2).
  assert (h2' = h2) as ->.
  { assert (getSelectedNodes h document (Range (Some s) so (Some s) eo)
            = getNodesIfSameStartEnd h (Range (Some s) so (Some s) eo)) as Heq.
    { unfold getSelectedNodes, instanceofText.
      cbn [startContainer endContainer startOffset endOffset strictEq].
      rewrite Nat.eqb_refl, Hs. reflexivity. }
    rewrite Heq, Hrun in Hgs. now inversion Hgs. }
  set (ctake := substring 0 (Z.to_nat so) c) in *.
  set (cmid := substring (Z.to_nat so) (Z.to_nat (eo - so)) c) in *.
  set (crest := substring (Z.to_nat eo) (String.length c - Z.to_nat eo) c) in *.
  set (n1 := length h) in *.
  set (K1' := K1 ++ [Tree s (TextNode ctake) []]).
  set (K2' := Tree (S n1) (TextNode crest) [] :: K2).
  set (pt2 := Tree p e (K1' ++ Tree n1 (TextNode cmid) [] :: K2')).
  assert (p < n1)%nat as Hpn by (apply lookup_lt_Some in Hp; exact Hp).
  assert (s < n1)%nat as Hsn by (apply lookup_lt_Some in Hs; exact Hs).
  assert (rep h2 par pt2) as Hrep2.
  { apply rep_Tree. split.
    - rewrite Hp2. do 2 f_equal. unfold K1', K2'. rewrite !roots_app.
      cbn [roots map root_id]. rewrite <- app_assoc. reflexivity.
    - assert (forall kid, kid ∈ K1 \/ kid ∈ K2 -> rep h2 (Some p) kid) as Hframe.
      { intros kid Hin. apply (rep_frame h h2 kid (Some p) (HrepK kid Hin)).
        intros i Hi.
        assert (i ∈ flat_map ids K1 \/ i ∈ flat_map ids K2) as Hi'.
        { destruct Hin as [Hin | Hin]; [left | right];
            apply list_elem_of_In, in_flat_map; exists kid;
            split; now apply list_elem_of_In. }
        apply Hother.
        - intros ->. destruct Hi'; [now apply Hs1 | now apply Hs2].
        - intros ->. apply Hpfresh, elem_of_app.
          destruct Hi' as [Hi' | Hi']; [now left | right; now right].
        - apply (rep_ids_lt h kid (Some p)); [now apply HrepK | exact Hi]. }
      unfold K1', K2'. rewrite !Forall_app, !Forall_cons.
      repeat split.
      + apply Forall_forall. intros kid Hin. apply Hframe. now left.
      + apply rep_Tree. split; [exact Hs2' | constructor].
      + constructor.
      + apply rep_Tree. split; [exact Hn1 | constructor].
      + apply rep_Tree. split; [exact Hn2 | constructor].
      + apply Forall_forall. intros kid Hin. apply Hframe. now right. }
  assert (pre pt2 = (p, e) :: pre_forest K1 ++ (s, TextNode ctake)
                    :: (n1, TextNode cmid) :: (S n1, TextNode crest) :: pre_forest K2)
    as Hprept2.
  { change (pre pt2) with ((p, e) :: pre_forest (K1' ++ Tree n1 (TextNode cmid) [] :: K2')).
    unfold K1', K2'. rewrite !pre_forest_app, <- app_assoc. reflexivity. }
  assert (NoDup (ids pt2)) as Hnd2.
  { destruct Hwf2 as (_ & _ & _ & Hndt2 & _). unfold ids in *.
    apply (NoDup_pre_mid A (pre pt2) B). rewrite Hprept2.
    rewrite Hpre2 in Hndt2. rewrite <- ?app_assoc in Hndt2. cbn [app] in Hndt2.
    rewrite <- ?app_assoc in Hndt2. cbn [app]. rewrite <- ?app_assoc. exact Hndt2. }
  assert (forall tag, getElementsByTagName h2 tag = getElementsByTagName h tag) as Htags.
  { intros tag.
    rewrite (getElementsByTagName_pre h2 t2 tag Hwf2), (getElementsByTagName_pre h t tag Hwf).
    rewrite Hpre2, Hpre, !elements_by_tag_app. reflexivity. }
  assert (String.length ctake = Z.to_nat so) as Hltake
    by (apply substring_length; lia).
  assert (String.length cmid = Z.to_nat (eo - so)) as Hlmid
    by (apply substring_length; lia).
  assert (n1 ∉ roots K1 ++ [s]) as Hfresh.
  { intros Hin. apply elem_of_app in Hin as [Hin | Hin].
    - rewrite Forall_forall in Hlt1. apply Hlt1 in Hin. lia.
    - apply list_elem_of_singleton in Hin. lia. }
  destruct (wrapHighlight_effect h2 n1 p cmid _ (roots K1 ++ [s]) (S n1 :: roots K2)
              Hn1 Hp2) as (h3 & Hwrap & Hlen3 & Hw & Hcopy & Hp3 & _ & _).
  { cbn [childNodes]. rewrite <- app_assoc. reflexivity. }
  { exact Hfresh. }
  { lia. }
  exists h2, h3. rewrite Hlen2 in Hwrap, Hw, Hcopy, Hp3.
  split; [exact Hgs |].
  split; [| split; [exact Hwrap | split; [exact Hw | split; [exact Hcopy |]]]].
  - rewrite (getSelectedTextNodePosition_child h2 par p tg cl bg K1' K2' [] n1 cmid Hrep2 Hnd2).
    rewrite Htags. unfold K1'. rewrite pre_forest_app, text_len_app.
    change (pre_forest [Tree s (TextNode ctake) []]) with [(s, TextNode ctake)].
    rewrite text_len_cons_text. change (text_len []) with 0.
    rewrite Hltake, Hlmid. do 2 f_equal; lia.
  - rewrite Hp3. cbn [fmap option_fmap option_map childNodes].
    rewrite <- app_assoc. reflexivity.
Qed.

(** X14.  What the listener does for a non-collapsed selection inside one text
    leaf [s], a child of the element [p]: the page afterwards.  The stored
    value holds the same address twice: the tag name of [p] (in upper case,
    as the HTML document reports it), the index of [p] among the elements
    of that tag in the document as it was before the selection, the length
    of the text before the selected part below [p], and the length of the
    selected part.  In the document, a new [span]
    with a yellow background stands right after [s] among the children of
    [p] and holds a copy of the selected part. *)
Theorem mouseup_same_leaf (h : dom) (t : tree) (stored : option (list address))
    (p s : nat) (tg cl bg c : string) (K1 K2 : list tree) (so eo : Z) :
  wf_dom h t ->
  Tree p (ElementNode tg cl bg) (K1 ++ Tree s (TextNode c) [] :: K2) ∈ subtrees t ->
  0 <= so -> so < eo -> eo <= Z.of_nat (String.length c) ->
  exists h3,
    mouseup (Page h stored) (Some (Range (Some s) so (Some s) eo))
    = Ok (Page h3
            (Some [Address (ascii_uppercase tg)
                     (indexOf (getElementsByTagName h (ascii_uppercase tg)) p)
                     (text_len (pre_forest K1) + so) (eo - so);
                   Address (ascii_uppercase tg)
                     (indexOf (getElementsByTagName h (ascii_uppercase tg)) p)
                     (text_len (pre_forest K1) + so) (eo - so)]))
    /\ h3 !! S (S (length h))
       = Some (Node (ElementNode "span" "" "yellow") (Some p) [S (S (S (length h)))])
    /\ h3 !! S (S (S (length h)))
       = Some (Node (TextNode (substring (Z.to_nat so) (Z.to_nat (eo - so)) c))
                    (Some (S (S (length h)))) [])
    /\ childNodes <$> h3 !! p
       = Some (roots K1 ++ s :: S (S (length h)) :: S (length h) :: roots K2).
Proof.
  intros Hwf Hsub Hso Hlt Heo.
  destruct (mouseup_same_leaf_run h t p s tg cl bg c K1 K2 so eo Hwf Hsub Hso
              ltac:(lia) Heo) as (h2 & h3 & Hgs & Henc & Hwrap & Hw & Hcopy & Hp3).
  exists h3. split; [| split; [exact Hw | split; [exact Hcopy | exact Hp3]]].
  unfold mouseup, isCollapsed.
  cbn [startContainer endContainer startOffset endOffset strictEq page_dom].
  rewrite Nat.eqb_refl, (proj2 (Z.eqb_neq so eo)) by lia.
  cbn [andb negb]. rewrite Hgs. cbn [mbind outcome_bind].
  change (at_index [Some (length h)] 0) with (Some (length h)).
  change (at_index [Some (length h)] (Z.of_nat (length [Some (length h)]) - 1))
    with (Some (length h)).
  unfold storeSelectedNodes. rewrite Henc. cbn [mbind outcome_bind].
  cbn [forEach_wrapHighlight]. rewrite Hwrap. reflexivity.
Qed.

Lemma mouseup_same_leaf_witness :
  exists h3,
    mouseup (Page (load [Elem "p" [Txt "Hello"; Elem "b" [Txt "big"]; Txt "World"]]) None)
      (Some (Range (Some 5%nat) 1 (Some 5%nat) 3))
    = Ok (Page h3
            (Some [Address "P"
                     (indexOf (getElementsByTagName
                        (load [Elem "p" [Txt "Hello"; Elem "b" [Txt "big"]; Txt "World"]])
                        "P") 1%nat)
                     (text_len (pre_forest
                        [Tree 2 (TextNode "Hello") [];
                         Tree 3 (ElementNode "b" "" "") [Tree 4 (TextNode "big") []]]) + 1)
                     (3 - 1);
                   Address "P"
                     (indexOf (getElementsByTagName
                        (load [Elem "p" [Txt "Hello"; Elem "b" [Txt "big"]; Txt "World"]])
                        "P") 1%nat)
                     (text_len (pre_forest
                        [Tree 2 (TextNode "Hello") [];
                         Tree 3 (ElementNode "b" "" "") [Tree 4 (TextNode "big") []]]) + 1)
                     (3 - 1)]))
    /\ h3 !! S (S (length (load [Elem "p" [Txt "Hello"; Elem "b" [Txt "big"]; Txt "World"]])))
       = Some (Node (ElementNode "span" "" "yellow") (Some 1%nat)
                 [S (S (S (length
                    (load [Elem "p" [Txt "Hello"; Elem "b" [Txt "big"]; Txt "World"]]))))])
    /\ h3 !! S (S (S (length
                 (load [Elem "p" [Txt "Hello"; Elem "b" [Txt "big"]; Txt "World"]]))))
       = Some (Node (TextNode (substring (Z.to_nat 1) (Z.to_nat (3 - 1)) "World"))
                 (Some (S (S (length
                    (load [Elem "p" [Txt "Hello"; Elem "b" [Txt "big"]; Txt "World"]])))))
                 [])
    /\ childNodes <$> h3 !! 1%nat
       = Some (roots [Tree 2 (TextNode "Hello") [];
                      Tree 3 (ElementNode "b" "" "") [Tree 4 (TextNode "big") []]]
               ++ 5%nat
               :: S (S (length
                    (load [Elem "p" [Txt "Hello"; Elem "b" [Txt "big"]; Txt "World"]])))
               :: S (length
                    (load [Elem "p" [Txt "Hello"; Elem "b" [Txt "big"]; Txt "World"]]))
               :: roots []).
Proof.
  apply (mouseup_same_leaf
           (load [Elem "p" [Txt "Hello"; Elem "b" [Txt "big"]; Txt "World"]])
           (document_tree [Elem "p" [Txt "Hello"; Elem "b" [Txt "big"]; Txt "World"]])
           None 1 5 "p" "" "" "World"
           [Tree 2 (TextNode "Hello") [];
            Tree 3 (ElementNode "b" "" "") [Tree 4 (TextNode "big") []]]
           [] 1 3).
  - apply load_wf.
  - vm_compute. apply list_elem_of_In. simpl. tauto.
  - lia.
  - lia.
  - vm_compute. discriminate.
Defined.

Lemma restore_walk_app (off : Z) (rest : list (nat * nodeKind)) :
  forall (q : list (nat * nodeKind)) (cur fin : Z) (T : nat) (k : Z),
    restore_walk off q cur fin = (Some T, k) ->
    restore_walk off (q ++ rest) cur fin = (Some T, k).
Proof.
  induction q as [|[i kd] q IH]; intros cur fin T k Hw; [discriminate |].
  destruct kd as [|tg cl bg|s]; cbn [app restore_walk] in *; try (now apply IH).
  destruct (cur + Z.of_nat (String.length s) >=? off); [exact Hw | now apply IH].
Qed.

(** The listener, from the results of its three steps when one node is
    collected. *)
Lemma mouseup_one_node (h h2 h3 : dom) (stored : option (list address)) (r : range)
    (n w : nat) (a : address) :
  isCollapsed (Some r) = false ->
  getSelectedNodes h document r = Ok (h2, [Some n]) ->
  getSelectedTextNodePosition h2 (Some n) = Ok a ->
  wrapHighlight h2 (Some n) = Ok (h3, w) ->
  mouseup (Page h stored) (Some r) = Ok (Page h3 (Some [a; a])).
Proof.
  intros Hcol Hgs Henc Hwrap. unfold mouseup. rewrite Hcol.
  cbn [negb page_dom]. rewrite Hgs. cbn [mbind outcome_bind].
  change (at_index [Some n] 0) with (Some n).
  change (at_index [Some n] (Z.of_nat (length [Some n]) - 1)) with (Some n).
  unfold storeSelectedNodes. rewrite Henc. cbn [mbind outcome_bind].
  cbn [forEach_wrapHighlight]. rewrite Hwrap. reflexivity.
Qed.

(** X15.  Restoring in the document as it was before the selection reproduces the
    page that capturing the selection gave, when the selection lies inside
    one text leaf and does not start at offset 0 of a leaf that has text
    before it below its parent. *)
Theorem restore_on_load_same_leaf (h : dom) (t : tree) (stored : option (list address))
    (p s : nat) (tg cl bg c : string) (K1 K2 : list tree) (so eo : Z) :
  wf_dom h t ->
  Tree p (ElementNode tg cl bg) (K1 ++ Tree s (TextNode c) [] :: K2) ∈ subtrees t ->
  0 <= so -> so < eo -> eo <= Z.of_nat (String.length c) ->
  0 < so \/ text_ids (pre_forest K1) = [] ->
  exists pg',
    mouseup (Page h stored) (Some (Range (Some s) so (Some s) eo)) = Ok pg'
    /\ restore_on_load (Page h (localStorage_selection pg')) = Ok pg'.
Proof.
  intros Hwf Hsub Hso Hlt Heo Hstart.
  destruct (mouseup_same_leaf_run h t p s tg cl bg c K1 K2 so eo Hwf Hsub Hso
              ltac:(lia) Heo) as (h2 & h3 & Hgs & Henc & Hwrap & _).
  set (a := Address (ascii_uppercase tg)
              (indexOf (getElementsByTagName h (ascii_uppercase tg)) p)
              (text_len (pre_forest K1) + so) (eo - so)) in *.
  exists (Page h3 (Some [a; a])). split.
  { apply (mouseup_one_node h h2 h3 stored _ (length h) (S (S (length h))) a);
      try assumption.
    unfold isCollapsed. cbn [startContainer endContainer startOffset endOffset strictEq].
    rewrite Nat.eqb_refl, (proj2 (Z.eqb_neq so eo)) by lia. reflexivity. }
  set (e := ElementNode tg cl bg) in *.
  set (pt := Tree p e (K1 ++ Tree s (TextNode c) [] :: K2)) in *.
  pose proof Hwf as (Hr & Hroot & Hkind & Hnd & Htl).
  destruct (subtree_rep h t pt None Hr Hsub) as (par & Hrp).
  pose proof (subtree_NoDup t pt Hnd Hsub) as Hndp.
  destruct (subtree_pre t pt Hsub) as (A & B & HAB).
  assert (pre pt = ((p, e) :: pre_forest K1) ++ (s, TextNode c) :: pre_forest K2) as Hprept.
  { change (pre pt) with ((p, e) :: pre_forest (K1 ++ Tree s (TextNode c) [] :: K2)).
    rewrite pre_forest_app, pre_forest_cons. reflexivity. }
  assert (item (getElementsByTagName h (parentTagName a)) (parentIndex a)
          = Some (root_id pt)) as Hitem.
  { apply item_indexOf. pose proof Hrp as Hrp'. apply rep_Tree in Hrp' as [Hp _].
    eapply elem_getElementsByTagName; [| exact Hp].
    rewrite (wf_dom_preorder h t Hwf). unfold ids. rewrite HAB, Hprept.
    rewrite !map_app. apply elem_of_app. right. apply elem_of_app. left. now left. }
  assert (restoreContainer h (Some a) = Ok (Some s, so)) as Hdec.
  { rewrite (restoreContainer_located h a par pt Hitem Hrp Hndp), Hprept.
    change (textNodeOffset a) with (text_len (pre_forest K1) + so).
    assert (text_len ((p, e) :: pre_forest K1) = text_len (pre_forest K1)) as Hlen
      by reflexivity.
    rewrite restore_walk_stop.
    - rewrite Hlen. do 2 f_equal. lia.
    - rewrite Hlen. intros Hne. destruct Hstart as [Hpos | Hno]; [lia |].
      exfalso. apply Hne. exact Hno.
    - rewrite Hlen. lia. }
  unfold restore_on_load. cbn [localStorage_selection page_dom].
  unfold restoreSelectedNodes.
  change ([a; a] !! 0%nat) with (Some a). change ([a; a] !! 1%nat) with (Some a).
  rewrite Hdec. cbn [mbind outcome_bind].
  change (textNodeLength a) with (eo - so).
  replace (so + (eo - so)) with eo by lia.
  rewrite Hgs. cbn [mbind outcome_bind forEach_wrapHighlight].
  rewrite Hwrap. reflexivity.
Qed.

Lemma restore_on_load_same_leaf_witness :
  exists pg',
    mouseup (Page (load [Elem "p" [Txt "Hello"; Elem "b" [Txt "big"]; Txt "World"]]) None)
      (Some (Range (Some 5%nat) 1 (Some 5%nat) 3)) = Ok pg'
    /\ restore_on_load
         (Page (load [Elem "p" [Txt "Hello"; Elem "b" [Txt "big"]; Txt "World"]])
               (localStorage_selection pg')) = Ok pg'.
Proof.
  apply (restore_on_load_same_leaf
           (load [Elem "p" [Txt "Hello"; Elem "b" [Txt "big"]; Txt "World"]])
           (document_tree [Elem "p" [Txt "Hello"; Elem "b" [Txt "big"]; Txt "World"]])
           None 1 5 "p" "" "" "World"
           [Tree 2 (TextNode "Hello") [];
            Tree 3 (ElementNode "b" "" "") [Tree 4 (TextNode "big") []]]
           [] 1 3).
  - apply load_wf.
  - vm_compute. apply list_elem_of_In. simpl. tauto.
  - lia.
  - lia.
  - vm_compute. discriminate.
  - left. lia.
Defined.

(** X16.  A selection that starts at offset 0 of a text leaf with text before it
    below its parent is captured, but restoring it raises [IndexSizeError]:
    the stored offset is decoded as the end of an earlier leaf, and the
    selection's length is then cut from the empty node that follows the
    split there. *)
Theorem restore_on_load_leaf_start (h : dom) (t : tree) (stored : option (list address))
    (p s : nat) (tg cl bg c : string) (K1 K2 : list tree) (eo : Z) :
  wf_dom h t ->
  Tree p (ElementNode tg cl bg) (K1 ++ Tree s (TextNode c) [] :: K2) ∈ subtrees t ->
  0 < eo -> eo <= Z.of_nat (String.length c) ->
  0 < text_len (pre_forest K1) ->
  exists pg',
    mouseup (Page h stored) (Some (Range (Some s) 0 (Some s) eo)) = Ok pg'
    /\ restore_on_load (Page h (localStorage_selection pg')) = Throw IndexSizeError.
Proof.
  intros Hwf Hsub Hlt Heo Hbefore.
  destruct (mouseup_same_leaf_run h t p s tg cl bg c K1 K2 0 eo Hwf Hsub
              ltac:(lia) ltac:(lia) Heo) as (h2 & h3 & Hgs & Henc & Hwrap & _).
  set (a := Address (ascii_uppercase tg)
              (indexOf (getElementsByTagName h (ascii_uppercase tg)) p)
              (text_len (pre_forest K1) + 0) (eo - 0)) in *.
  exists (Page h3 (Some [a; a])). split.
  { apply (mouseup_one_node h h2 h3 stored _ (length h) (S (S (length h))) a);
      try assumption.
    unfold isCollapsed. cbn [startContainer endContainer startOffset endOffset strictEq].
    rewrite Nat.eqb_refl, (proj2 (Z.eqb_neq 0 eo)) by lia. reflexivity. }
  set (e := ElementNode tg cl bg) in *.
  set (pt := Tree p e (K1 ++ Tree s (TextNode c) [] :: K2)) in *.
  pose proof Hwf as (Hr & Hroot & Hkind & Hnd & Htl).
  destruct (subtree_rep h t pt None Hr Hsub) as (par & Hrp).
  pose proof (subtree_NoDup t pt Hnd Hsub) as Hndp.
  destruct (subtree_pre t pt Hsub) as (A & B & HAB).
  set (q := (p, e) :: pre_forest K1).
  set (rest := (s, TextNode c) :: pre_forest K2).
  assert (pre pt = q ++ rest) as Hprept.
  { change (pre pt) with ((p, e) :: pre_forest (K1 ++ Tree s (TextNode c) [] :: K2)).
    rewrite pre_forest_app, pre_forest_cons. reflexivity. }
  assert (item (getElementsByTagName h (parentTagName a)) (parentIndex a)
          = Some (root_id pt)) as Hitem.
  { apply item_indexOf. pose proof Hrp as Hrp'. apply rep_Tree in Hrp' as [Hp _].
    eapply elem_getElementsByTagName; [| exact Hp].
    rewrite (wf_dom_preorder h t Hwf). unfold ids. rewrite HAB, Hprept.
    rewrite !map_app. apply elem_of_app. right. apply elem_of_app. left.
    apply elem_of_app. left. now left. }
  assert (text_len q = text_len (pre_forest K1)) as Hlenq by reflexivity.
  destruct (restore_walk_finds (text_len (pre_forest K1) + 0) q 0 0)
    as (q1 & T & cT & q2 & Hq & Hw & Hk).
  { intros Hno. apply text_len_no_text in Hno. lia. }
  { lia. }
  assert (text_len (pre_forest K1) + 0 - (0 + text_len q1) = Z.of_nat (String.length cT))
    as HkT.
  { pose proof (text_len_nonneg q2).
    rewrite Hq, text_len_app, text_len_cons_text in Hlenq. lia. }
  rewrite HkT in Hw.
  assert (restoreContainer h (Some a) = Ok (Some T, Z.of_nat (String.length cT))) as Hdec.
  { rewrite (restoreContainer_located h a par pt Hitem Hrp Hndp), Hprept.
    change (textNodeOffset a) with (text_len (pre_forest K1) + 0).
    now rewrite (restore_walk_app _ rest q 0 0 T _ Hw). }
  assert (pre t = (A ++ q1) ++ (T, TextNode cT) :: (q2 ++ rest ++ B)) as Hpre.
  { rewrite HAB, Hprept, Hq. rewrite <- ?app_assoc. cbn [app].
    rewrite <- ?app_assoc. reflexivity. }
  destruct (splitText_wf h t T cT (Z.of_nat (String.length cT)) _ _ Hwf Hpre ltac:(lia))
    as (h1 & pp & Hsplit & Heff & Hnext & _).
  destruct Heff as (_ & _ & Hnew & _).
  destruct (rep_lookup h t None T (TextNode cT) Hr) as (parT & kidsT & HT).
  { rewrite Hpre. apply elem_of_app. right. now left. }
  unfold restore_on_load. cbn [localStorage_selection page_dom].
  unfold restoreSelectedNodes.
  change ([a; a] !! 0%nat) with (Some a). change ([a; a] !! 1%nat) with (Some a).
  rewrite Hdec. cbn [mbind outcome_bind].
  change (textNodeLength a) with (eo - 0).
  unfold getSelectedNodes, instanceofText, getNodesIfSameStartEnd.
  cbn [startContainer endContainer startOffset endOffset strictEq].
  rewrite Nat.eqb_refl, HT. cbn [isText nodeType kind Z.eqb Pos.eqb andb].
  rewrite Hsplit. cbn [mbind outcome_bind]. rewrite Hnext.
  unfold splitText. rewrite Hnew.
  rewrite Nat2Z.id, Nat.sub_diag.
  assert (String.length (substring (String.length cT) 0 cT) = 0%nat) as ->
    by (apply substring_length; lia).
  replace (Z.of_nat (String.length cT) + (eo - 0) - Z.of_nat (String.length cT))
    with eo by lia.
  rewrite (proj2 (Z.ltb_lt (Z.of_nat 0) eo)) by lia.
  rewrite orb_true_r. reflexivity.
Qed.

Lemma restore_on_load_leaf_start_witness :
  exists pg',
    mouseup (Page (load [Elem "p" [Txt "Hello"; Elem "b" [Txt "big"]; Txt "World"]]) None)
      (Some (Range (Some 5%nat) 0 (Some 5%nat) 3)) = Ok pg'
    /\ restore_on_load
         (Page (load [Elem "p" [Txt "Hello"; Elem "b" [Txt "big"]; Txt "World"]])
               (localStorage_selection pg')) = Throw IndexSizeError.
Proof.
  apply (restore_on_load_leaf_start
           (load [Elem "p" [Txt "Hello"; Elem "b" [Txt "big"]; Txt "World"]])
           (document_tree [Elem "p" [Txt "Hello"; Elem "b" [Txt "big"]; Txt "World"]])
           None 1 5 "p" "" "" "World"
           [Tree 2 (TextNode "Hello") [];
            Tree 3 (ElementNode "b" "" "") [Tree 4 (TextNode "big") []]]
           [] 3).
  - apply load_wf.
  - vm_compute. apply list_elem_of_In. simpl. tauto.
  - lia.
  - vm_compute. discriminate.
  - reflexivity.
Defined.
